(** * object_perception: anchor matching, box encoding and batch assembly

    A shallow embedding of [src/prior_box_manager.py] (class
    [PriorBoxManager]) and [src/image_generator.py] (class [ImageGenerator]).

    Numbers.  The Python code computes on numpy [float64] arrays.  Inputs
    (box coordinates, thresholds, scale factors, pixel values) are modelled
    as real numbers [R]; values the code computes by a division or a
    logarithm are modelled by [fval]: a real number, an infinity or NaN,
    following numpy (a division by zero does not raise: it produces
    [inf], [-inf] or [nan]).  Rounding and the sign of zero are not
    modelled.

    Exceptions.  Python code that can raise returns a [result].

    Randomness.  Every draw of the process RNG ([np.random.random],
    [np.random.permutation], [random.shuffle]) is an explicit argument. *)

From Stdlib Require Import Reals Lra Lia ZArith List.
From stdpp Require Import base option list gmap strings.

Open Scope R_scope.

(** ** Floating-point values *)

Inductive fval : Type :=
| Fin (r : R)
| PInf
| NInf
| NaN.

Definition is_nan (v : fval) : bool :=
  match v with NaN => true | _ => false end.

Definition Rltb (a b : R) : bool := if Rlt_dec a b then true else false.
Definition Rleb (a b : R) : bool := if Rle_dec a b then true else false.
Definition Reqb (a b : R) : bool := if Req_dec_T a b then true else false.

(** [a < b], [a <= b], [a > b], [a != b] on floats: every ordered comparison
    with NaN is false, [!=] with NaN is true. *)
Definition fltb (a b : fval) : bool :=
  match a, b with
  | NaN, _ | _, NaN => false
  | Fin x, Fin y => Rltb x y
  | NInf, NInf => false
  | NInf, _ => true
  | _, PInf => match a with PInf => false | _ => true end
  | _, _ => false
  end.

Definition fleb (a b : fval) : bool :=
  match a, b with
  | NaN, _ | _, NaN => false
  | Fin x, Fin y => Rleb x y
  | NInf, _ => true
  | _, PInf => true
  | _, _ => false
  end.

Definition fgtb (a b : fval) : bool := fltb b a.

Definition fneqb (a b : fval) : bool :=
  match a, b with
  | Fin x, Fin y => negb (Reqb x y)
  | PInf, PInf | NInf, NInf => false
  | _, _ => true
  end.

Definition fneg (a : fval) : fval :=
  match a with
  | Fin x => Fin (- x)
  | PInf => NInf
  | NInf => PInf
  | NaN => NaN
  end.

Definition fadd (a b : fval) : fval :=
  match a, b with
  | NaN, _ | _, NaN => NaN
  | Fin x, Fin y => Fin (x + y)
  | PInf, NInf | NInf, PInf => NaN
  | PInf, _ | _, PInf => PInf
  | NInf, _ | _, NInf => NInf
  end.

Definition fsub (a b : fval) : fval := fadd a (fneg b).

(** The infinity with the sign of [x] ([x] is not zero). *)
Definition inf_of_sign (x : R) : fval := if Rlt_dec 0 x then PInf else NInf.

Definition fmul (a b : fval) : fval :=
  match a, b with
  | NaN, _ | _, NaN => NaN
  | Fin x, Fin y => Fin (x * y)
  | Fin x, PInf | PInf, Fin x =>
      if Req_dec_T x 0 then NaN else inf_of_sign x
  | Fin x, NInf | NInf, Fin x =>
      if Req_dec_T x 0 then NaN else inf_of_sign (- x)
  | PInf, PInf | NInf, NInf => PInf
  | PInf, NInf | NInf, PInf => NInf
  end.

(** numpy's true division: [0/0] is NaN, [x/0] an infinity. *)
Definition fdiv (a b : fval) : fval :=
  match a, b with
  | NaN, _ | _, NaN => NaN
  | Fin x, Fin y =>
      if Req_dec_T y 0
      then (if Req_dec_T x 0 then NaN else inf_of_sign x)
      else Fin (x / y)
  | Fin _, _ => Fin 0
  | PInf, Fin y => if Rlt_dec y 0 then NInf else PInf
  | NInf, Fin y => if Rlt_dec y 0 then PInf else NInf
  | _, _ => NaN
  end.

(** [np.log]: [log 0 = -inf], the logarithm of a negative number is NaN. *)
Definition flog (a : fval) : fval :=
  match a with
  | Fin x => if Rlt_dec 0 x then Fin (ln x)
             else if Req_dec_T x 0 then NInf else NaN
  | PInf => PInf
  | NInf | NaN => NaN
  end.

(** [np.exp]. *)
Definition fexp (a : fval) : fval :=
  match a with
  | Fin x => Fin (exp x)
  | PInf => PInf
  | NInf => Fin 0
  | NaN => NaN
  end.

(** [np.maximum], [np.minimum]: NaN propagates. *)
Definition fmaximum (a b : fval) : fval :=
  match a, b with
  | NaN, _ | _, NaN => NaN
  | _, _ => if fleb a b then b else a
  end.

Definition fminimum (a b : fval) : fval :=
  match a, b with
  | NaN, _ | _, NaN => NaN
  | _, _ => if fleb a b then a else b
  end.

(** [np.clip v lo hi]. *)
Definition fclip (lo hi : R) (v : fval) : fval :=
  fminimum (fmaximum v (Fin lo)) (Fin hi).

(** [np.clip] on finite inputs. *)
Definition Rclip (lo hi : R) (x : R) : R := Rmin (Rmax x lo) hi.

(** ** Exceptions *)

Inductive exn : Type :=
| IndexError
| KeyError
| ValueError
| OverflowError
| AttributeError
| AssertionError
| LinAlgError.

Inductive result (A : Type) : Type :=
| Ok (a : A)
| Raise (e : exn).
Arguments Ok {A} a.
Arguments Raise {A} e.

#[global] Instance result_ret : MRet result := fun A a => Ok a.
#[global] Instance result_bind : MBind result := fun A B k m =>
  match m with
  | Ok a => k a
  | Raise e => Raise e
  end.

(** Run [f] over a list, left to right, stopping at the first exception. *)
Fixpoint mapM {A B} (f : A -> result B) (l : list A) : result (list B) :=
  match l with
  | [] => Ok []
  | a :: l' => b ← f a; bs ← mapM f l'; Ok (b :: bs)
  end.

(** ** Boxes *)

(** A row [xmin, ymin, xmax, ymax] of a box array. *)
Record box : Type := Box {
  x_min : R;
  y_min : R;
  x_max : R;
  y_max : R
}.

(** A row [xmin, ymin, xmax, ymax, c0, c1, ...] of the ground-truth array of
    an image: the box and the columns from 4 on (the one-hot class). *)
Record gt_row : Type := GtRow {
  gt_box : box;
  gt_classes : list R
}.

#[global] Instance fval_inhabited : Inhabited fval := populate (Fin 0).
#[global] Instance box_inhabited : Inhabited box := populate (Box 0 0 0 0).
#[global] Instance gt_row_inhabited : Inhabited gt_row :=
  populate (GtRow inhabitant []).

(** A two-dimensional float array: the list of its rows. *)
Abbreviation matrix := (list (list fval)).

(** ** numpy helpers *)

(** [a[mask]]: the elements of [a] where the boolean mask is set. *)
Fixpoint select {A} (mask : list bool) (l : list A) : list A :=
  match mask, l with
  | m :: mask', a :: l' => if m then a :: select mask' l' else select mask' l'
  | _, _ => []
  end.

(** [a[mask] = vals]: the elements of [vals], in order, are written by [wr]
    into the rows of [a] where the mask is set. *)
Fixpoint mask_assign {A V} (wr : V -> A -> A) (mask : list bool)
    (a : list A) (vals : list V) : list A :=
  match mask, a with
  | m :: mask', x :: a' =>
      if m then
        match vals with
        | v :: vals' => wr v x :: mask_assign wr mask' a' vals'
        | [] => x :: a'
        end
      else x :: mask_assign wr mask' a' vals
  | _, _ => a
  end.

(** [row[lo:hi] = vals] for [vals] of length [hi - lo]. *)
Definition write_slice (lo hi : nat) (vals row : list fval) : list fval :=
  if decide (lo <= hi)%nat then take lo row ++ vals ++ drop hi row else row.

(** [ndarray.argmax] of a one-dimensional float array: the first index of
    the maximum, a NaN counting as the maximum (numpy scans with
    [if (!(x <= mp))] and stops at the first NaN); [ValueError] on an empty
    array. *)
Fixpoint argmax_from (mp : fval) (best i : nat) (l : list fval) : nat :=
  match l with
  | [] => best
  | x :: l' =>
      if is_nan mp then best
      else if fleb x mp then argmax_from mp best (S i) l'
      else argmax_from x i (S i) l'
  end.

Definition argmax (l : list fval) : result nat :=
  match l with
  | [] => Raise ValueError
  | x :: l' => Ok (argmax_from x 0%nat 1%nat l')
  end.

(** [ndarray.max]: NaN propagates; [ValueError] on an empty array. *)
Definition amax (l : list fval) : result fval :=
  match l with
  | [] => Raise ValueError
  | x :: l' => Ok (foldl fmaximum x l')
  end.

(** Broadcasting of a value row of length [m] into a target of width [t]:
    the lengths agree, or [m = 1]. *)
Definition broadcast_row (t : nat) (v : list fval) : result (list fval) :=
  if decide (length v = t) then Ok v
  else match v with
       | [x] => Ok (replicate t x)
       | _ => Raise ValueError
       end.

(** Broadcasting of two one-dimensional arrays against each other. *)
Definition broadcast2 {A B} (l1 : list A) (l2 : list B)
    : result (list (A * B)) :=
  if decide (length l1 = length l2) then Ok (zip l1 l2)
  else match l1, l2 with
       | [a], _ => Ok (map (pair a) l2)
       | _, [b] => Ok (map (fun a => (a, b)) l1)
       | _, _ => Raise ValueError
       end.

(** The value of a computation that does not raise, and the number a
    finite float holds. *)
Definition total {A} `{Inhabited A} (r : result A) : A :=
  match r with Ok a => a | Raise _ => inhabitant end.


(** ** prior_box_manager.py *)

Module PriorBoxManager.

Record scale_factors : Type := Scales {
  scale_center_x : R;
  scale_center_y : R;
  scale_width : R;
  scale_height : R
}.

(** The attributes of a [PriorBoxManager]; [num_priors] is
    [prior_boxes.shape[0]]. *)
Record manager : Type := Manager {
  prior_boxes : list box;
  background_id : nat;
  overlap_threshold : R;
  num_classes : nat;
  box_scale_factors : scale_factors;
  assigned_prior_boxes : list (list box)
}.

Definition num_priors (self : manager) : nat := length (prior_boxes self).

(** [__init__], with the defaults of the source. *)
Definition init_defaults (priors : list box) : manager :=
  Manager priors 0 0.5 21 (Scales 1 1 1 1) [].

Definition set_assigned (self : manager) (a : list (list box)) : manager :=
  Manager (prior_boxes self) (background_id self) (overlap_threshold self)
    (num_classes self) (box_scale_factors self) a.

(** The body of [_calculate_intersection_over_unions] for one prior box
    (the source computes it for all prior boxes at once, elementwise). *)
Definition iou (prior g : box) : fval :=
  let intersections_x_min := Rmax (x_min prior) (x_min g) in
  let intersections_y_min := Rmax (y_min prior) (y_min g) in
  let intersections_x_max := Rmin (x_max prior) (x_max g) in
  let intersections_y_max := Rmin (y_max prior) (y_max g) in
  let intersected_widths := intersections_x_max - intersections_x_min in
  let intersected_heights := intersections_y_max - intersections_y_min in
  let intersected_widths := Rmax intersected_widths 0 in
  let intersected_heights := Rmax intersected_heights 0 in
  let intersections := intersected_widths * intersected_heights in
  let prior_box_widths := x_max prior - x_min prior in
  let prior_box_heights := y_max prior - y_min prior in
  let prior_box_areas := prior_box_widths * prior_box_heights in
  let ground_truth_width := x_max g - x_min g in
  let ground_truth_height := y_max g - y_min g in
  let ground_truth_area := ground_truth_width * ground_truth_height in
  let unions := prior_box_areas + ground_truth_area - intersections in
  fdiv (Fin intersections) (Fin unions).

Definition _calculate_intersection_over_unions (self : manager)
    (ground_truth_data : box) : list fval :=
  map (fun prior => iou prior ground_truth_data) (prior_boxes self).

(** One row of the result of [_encode_box]. *)
Definition encode_row (s : scale_factors) (d g : box) : list fval :=
  let d_center_x := 0.5 * (x_min d + x_max d) in
  let d_center_y := 0.5 * (y_min d + y_max d) in
  let d_width := x_max d - x_min d in
  let d_height := y_max d - y_min d in
  let g_width := x_max g - x_min g in
  let g_height := y_max g - y_min g in
  let g_center_x := 0.5 * (x_min g + x_max g) in
  let g_center_y := 0.5 * (y_min g + y_max g) in
  let g_hat_center_x :=
    fdiv (Fin (g_center_x - d_center_x)) (Fin (d_width * scale_center_x s)) in
  let g_hat_center_y :=
    fdiv (Fin (g_center_y - d_center_y)) (Fin (d_height * scale_center_y s)) in
  let g_hat_width :=
    fdiv (flog (fdiv (Fin g_width) (Fin d_width))) (Fin (scale_width s)) in
  let g_hat_height :=
    fdiv (flog (fdiv (Fin g_height) (Fin d_height))) (Fin (scale_height s)) in
  [g_hat_center_x; g_hat_center_y; g_hat_width; g_hat_height].

Definition _encode_box (self : manager) (assigned_prior_boxes : list box)
    (ground_truth_box : box) : matrix :=
  map (fun d => encode_row (box_scale_factors self) d ground_truth_box)
    assigned_prior_boxes.

(** [_assign_boxes_to_object]: the [num_priors] rows of [encoded_boxes]
    (the source returns them flattened by [ravel]; [assign_boxes] reshapes
    them back) and the manager with the assigned priors appended. *)
Definition _assign_boxes_to_object (self : manager) (return_iou : bool)
    (ground_truth_box : box) : result (matrix * manager) :=
  let ious := _calculate_intersection_over_unions self ground_truth_box in
  let encoded_boxes :=
    replicate (num_priors self)
      (replicate (4 + (if return_iou then 1 else 0)) (Fin 0)) in
  let assign_mask :=
    map (fun v => fgtb v (Fin (overlap_threshold self))) ious in
  assign_mask ←
    (if existsb (fun m => m) assign_mask then Ok assign_mask
     else i ← argmax ious; Ok (<[i := true]> assign_mask));
  let encoded_boxes :=
    if return_iou
    then mask_assign (fun v row => take 4 row ++ [v]) assign_mask
           encoded_boxes (select assign_mask ious)
    else encoded_boxes in
  let assigned := select assign_mask (prior_boxes self) in
  let self :=
    set_assigned self (assigned_prior_boxes self ++ [assigned]) in
  let assigned_encoded_priors := _encode_box self assigned ground_truth_box in
  let encoded_boxes :=
    mask_assign (fun v row => v ++ drop 4 row) assign_mask
      encoded_boxes assigned_encoded_priors in
  Ok (encoded_boxes, self).

(** [np.apply_along_axis(self._assign_boxes_to_object, 1, boxes)]: one call
    per ground-truth box, in order, on the same manager. *)
Fixpoint assign_each (self : manager) (boxes : list box)
    : result (list matrix * manager) :=
  match boxes with
  | [] => Ok ([], self)
  | g :: boxes' =>
      '(rows, self) ← _assign_boxes_to_object self true g;
      '(rest, self) ← assign_each self boxes';
      Ok (rows :: rest, self)
  end.

(** The row of [assignments] at prior [j], when [best_iou_mask] selects it:
    lines 113 to 119 of the source, which write the selected rows block by
    block, for one row.  [encoded_boxes] is indexed [object][prior][column];
    [classes] holds, for every ground-truth row, its columns from 5 on
    (the class columns but the first) after broadcasting. *)
Definition write_assigned (num_classes : nat) (encoded_boxes : list matrix)
    (classes : matrix) (j best : nat) (row : list fval) : list fval :=
  let row := take 4 ((encoded_boxes !!! best) !!! j) ++ drop 4 row in
  let row := <[4%nat := Fin 0]> row in
  let row := write_slice 5 (4 + num_classes) (classes !!! best) row in
  <[(4 + num_classes)%nat := Fin 1]> row.

(** [assign_boxes]: the assignment matrix and the manager, whose
    [assigned_prior_boxes] the call has reset and filled.  The column of
    the last entries of [encoded_boxes] at prior [j] holds, for every
    ground-truth box, the intersection over union it stores there;
    [best_iou] and [best_iou_indices] are its [max] and [argmax].  The
    source writes the rows that [best_iou_mask] selects column block by
    column block; here [write_assigned] does the same writes row by row.
    Writing the class columns needs the shapes to broadcast, for the whole
    ground-truth array: [ValueError] otherwise. *)
Definition assign_boxes (self : manager) (ground_truth_data : list gt_row)
    : result (matrix * manager) :=
  let self := set_assigned self [] in
  let width := (4 + num_classes self + 8)%nat in
  assignments ←
    (if decide (4 + background_id self < width)%nat
     then Ok (replicate (num_priors self)
                (<[(4 + background_id self)%nat := Fin 1]>
                   (replicate width (Fin 0))))
     else Raise IndexError);
  let num_objects_in_image := length ground_truth_data in
  if decide (num_objects_in_image = 0%nat) then Ok (assignments, self) else
  '(encoded_boxes, self) ← assign_each self (map gt_box ground_truth_data);
  let iou_columns :=
    map (fun j => map (fun rows : matrix => (rows !!! j) !!! 4%nat)
                    encoded_boxes)
      (seq 0 (num_priors self)) in
  best_iou ← mapM amax iou_columns;
  best_iou_indices ← mapM argmax iou_columns;
  let best_iou_mask := map (fun v => fgtb v (Fin 0)) best_iou in
  classes ←
    mapM (fun g => broadcast_row (4 + num_classes self - 5)
                     (map Fin (drop 1 (gt_classes g))))
      ground_truth_data;
  let assignments :=
    imap (fun (j : nat) (row : list fval) =>
            if (best_iou_mask !!! j : bool)
            then write_assigned (num_classes self) encoded_boxes classes j
                   (best_iou_indices !!! j) row
            else row)
      assignments in
  Ok (assignments, self).

(** A row [cx, cy, w, h, rest...] of the array given to [decode_boxes]. *)
Record predicted_row : Type := Predicted {
  pred_center_x : fval;
  pred_center_y : fval;
  pred_width : fval;
  pred_height : fval;
  pred_rest : list fval
}.

Definition decode_row (s : scale_factors) (prior : box) (p : predicted_row)
    : list fval :=
  let prior_width := x_max prior - x_min prior in
  let prior_height := y_max prior - y_min prior in
  let prior_center_x := 0.5 * (x_max prior + x_min prior) in
  let prior_center_y := 0.5 * (y_max prior + y_min prior) in
  let decoded_center_x :=
    fmul (fmul (pred_center_x p) (Fin prior_width)) (Fin (scale_center_x s)) in
  let decoded_center_x := fadd decoded_center_x (Fin prior_center_x) in
  let decoded_center_y :=
    fmul (fmul (pred_center_y p) (Fin prior_height)) (Fin (scale_center_y s)) in
  let decoded_center_y := fadd decoded_center_y (Fin prior_center_y) in
  let decoded_width := fexp (fmul (pred_width p) (Fin (scale_width s))) in
  let decoded_width := fmul decoded_width (Fin prior_width) in
  let decoded_height := fexp (fmul (pred_height p) (Fin (scale_height s))) in
  let decoded_height := fmul decoded_height (Fin prior_height) in
  let decoded_x_min := fsub decoded_center_x (fmul (Fin 0.5) decoded_width) in
  let decoded_y_min := fsub decoded_center_y (fmul (Fin 0.5) decoded_height) in
  let decoded_x_max := fadd decoded_center_x (fmul (Fin 0.5) decoded_width) in
  let decoded_y_max := fadd decoded_center_y (fmul (Fin 0.5) decoded_height) in
  map (fclip 0 1) [decoded_x_min; decoded_y_min; decoded_x_max; decoded_y_max].

(** [decode_boxes]: the prior boxes and the predicted rows are combined
    elementwise, with numpy's broadcasting; the trailing columns are
    appended when there are any, which needs as many decoded rows as
    predicted ones. *)
Definition decode_boxes (self : manager) (predicted_boxes : list predicted_row)
    : result matrix :=
  pairs ← broadcast2 (prior_boxes self) predicted_boxes;
  let decoded_boxes :=
    map (fun '(prior, p) => decode_row (box_scale_factors self) prior p)
      pairs in
  if forallb (fun p => bool_decide (pred_rest p = [])) predicted_boxes
  then Ok decoded_boxes
  else if decide (length decoded_boxes = length predicted_boxes)
  then Ok (zip_with (fun d p => d ++ pred_rest p) decoded_boxes predicted_boxes)
  else Raise ValueError.

(** *** Vocabulary of the specification *)

(** A box with positive width and height. *)
Definition valid_box (b : box) : Prop :=
  x_min b < x_max b /\ y_min b < y_max b.

(** The area of a box as the source computes it: width times height. *)
Definition area (b : box) : R :=
  (x_max b - x_min b) * (y_max b - y_min b).

(** The value of [intersections] in [iou]. *)
Definition intersection (prior g : box) : R :=
  Rmax (Rmin (x_max prior) (x_max g) - Rmax (x_min prior) (x_min g)) 0 *
  Rmax (Rmin (y_max prior) (y_max g) - Rmax (y_min prior) (y_min g)) 0.

(** Two boxes that do not overlap: one ends before the other starts,
    horizontally or vertically. *)
Definition disjoint (a b : box) : Prop :=
  x_max a <= x_min b \/ x_max b <= x_min a \/
  y_max a <= y_min b \/ y_max b <= y_min a.

(** A box with a side of no length: [max <= min] in a dimension. *)
Definition degenerate (b : box) : Prop :=
  x_max b <= x_min b \/ y_max b <= y_min b.

(** Coordinates in [0, 1]. *)
Definition in_unit_square (b : box) : Prop :=
  0 <= x_min b /\ x_max b <= 1 /\ 0 <= y_min b /\ y_max b <= 1.

Definition nonzero_scales (s : scale_factors) : Prop :=
  scale_center_x s <> 0 /\ scale_center_y s <> 0 /\
  scale_width s <> 0 /\ scale_height s <> 0.

(** A box as a row of four columns, and a row of an encoded array read as
    a row of the array given to [decode_boxes]. *)
Definition box_row (b : box) : list fval :=
  [Fin (x_min b); Fin (y_min b); Fin (x_max b); Fin (y_max b)].

Definition predicted_of_row (row : list fval) : predicted_row :=
  Predicted (row !!! 0%nat) (row !!! 1%nat) (row !!! 2%nat) (row !!! 3%nat)
    (drop 4 row).

(** *** What [assign_boxes] computes, value by value

    The intermediate values of [_assign_boxes_to_object] and [assign_boxes]
    as functions of the manager and of a ground-truth box; the lemmas below
    relate them to the embedding of the source. *)

(** The mask [ious > self.overlap_threshold]. *)
Definition threshold_mask (self : manager) (g : box) : list bool :=
  map (fun v => fgtb v (Fin (overlap_threshold self)))
    (_calculate_intersection_over_unions self g).

(** The value of [assign_mask] after the fallback on [ious.argmax()]. *)
Definition object_mask (self : manager) (g : box) : list bool :=
  let ious := _calculate_intersection_over_unions self g in
  if existsb (fun m => m) (threshold_mask self g) then threshold_mask self g
  else match ious with
       | [] => []
       | x :: l =>
           <[argmax_from x 0%nat 1%nat l := true]> (threshold_mask self g)
       end.

(** The rows of [encoded_boxes] for one ground-truth box. *)
Definition object_rows (self : manager) (g : box) : matrix :=
  zip_with (fun (m : bool) p =>
              if m then encode_row (box_scale_factors self) p g ++ [iou p g]
              else replicate 5 (Fin 0))
    (object_mask self g) (prior_boxes self).

(** The prior boxes assigned to one ground-truth box, as appended to
    [self.assigned_prior_boxes]. *)
Definition object_priors (self : manager) (g : box) : list box :=
  select (object_mask self g) (prior_boxes self).

(** A row of [assignments] as [assign_boxes] initialises it. *)
Definition background_row (self : manager) : list fval :=
  <[(4 + background_id self)%nat := Fin 1]>
    (replicate (4 + num_classes self + 8) (Fin 0)).

(** The intersection over union that the box of row [g] stores in the last
    column of its row at prior [j]: 0 when the prior is not assigned to it. *)
Definition stored_iou (self : manager) (j : nat) (g : gt_row) : fval :=
  (object_rows self (gt_box g) !!! j) !!! 4%nat.

(** [ground_truth_data[i, 5:]]. *)
Definition class_columns (g : gt_row) : list fval :=
  map Fin (drop 1 (gt_classes g)).

(** A row of the assignment matrix that carries the match of the prior box
    [p] with the ground-truth row [g]: background flag 0, the encoded
    delta of the box against the prior, and the class columns of the row. *)
Definition row_assigned_to (self : manager) (p : box) (g : gt_row)
    (row : list fval) : Prop :=
  row !! 4%nat = Some (Fin 0) /\
  take 4 row = encode_row (box_scale_factors self) p (gt_box g) /\
  take (num_classes self - 1) (drop 5 row) = class_columns g.

(** The ground-truth row [g] has an assigned prior in the matrix [m]. *)
Definition has_assigned_prior (self : manager) (m : matrix) (g : gt_row)
    : Prop :=
  exists (j : nat) p row,
    prior_boxes self !! j = Some p /\ m !! j = Some row /\
    row_assigned_to self p g row.

(** *** Example inputs *)

(** One prior box, the whole image, with the defaults of the source but two
    classes; two ground-truth rows that both exceed the threshold for it
    (intersection over union 1 and 0.8). *)
Definition ex_manager : manager :=
  Manager [Box 0 0 1 1] 0 0.5 2 (Scales 1 1 1 1) [].

Definition ex_conflict : list gt_row :=
  [GtRow (Box 0 0 1 1) [0; 1]; GtRow (Box 0 0 1 0.8) [0; 1]].


(** One prior box and a ground-truth row whose box does not touch it. *)
Definition ex_far_manager : manager :=
  Manager [Box 0 0 0.5 0.5] 0 0.5 2 (Scales 1 1 1 1) [].

Definition ex_far : gt_row := GtRow (Box 0.6 0.6 1 1) [0; 1].

(** The prior box and the ground-truth box are the same box, the middle of
    the image. *)
Definition ex_crop_box : box := Box 0.25 0.25 0.75 0.75.

Definition ex_crop_manager : manager :=
  Manager [ex_crop_box] 0 0.5 2 (Scales 1 1 1 1) [].

Definition ex_crop_row : gt_row := GtRow ex_crop_box [0; 1].

(** *** Vocabulary for decoded boxes *)

(** The row of a box with each coordinate clipped to [0, 1]. *)
Definition clip_box (b : box) : list fval :=
  [Fin (Rclip 0 1 (x_min b)); Fin (Rclip 0 1 (y_min b));
   Fin (Rclip 0 1 (x_max b)); Fin (Rclip 0 1 (y_max b))].

(** A value that [np.clip(., 0.0, 1.0)] can return. *)
Definition unit_or_nan (v : fval) : Prop :=
  v = NaN \/ exists r, v = Fin r /\ 0 <= r <= 1.

(** A box that sticks out of the image on both sides, and a predicted row
    with one trailing column. *)
Definition ex_wide_box : box := Box (-0.5) 0.25 1.5 0.75.

Definition ex_predicted : list predicted_row :=
  [Predicted (Fin 0) (Fin 0) (Fin 0) (Fin 0) [Fin 7]].

End PriorBoxManager.

(** ** Python helpers *)

(** [int(v)] for a float: truncation toward zero; [ValueError] on NaN,
    [OverflowError] on an infinity. *)
Definition Rtrunc (r : R) : Z := if Rle_dec 0 r then Zfloor r else Zceil r.

Definition py_int (v : fval) : result Z :=
  match v with
  | Fin r => Ok (Rtrunc r)
  | NaN => Raise ValueError
  | PInf | NInf => Raise OverflowError
  end.

(** A slice bound of [l[lo:hi]] brought into [0 .. len]: a negative bound
    counts from the end. *)
Definition slice_bound (len : nat) (i : Z) : nat :=
  if decide (i < 0)%Z then Z.to_nat (i + Z.of_nat len)
  else Nat.min (Z.to_nat i) len.

(** [l[lo:hi]]. *)
Definition py_slice {A} (lo hi : Z) (l : list A) : list A :=
  let lo' := slice_bound (length l) lo in
  let hi' := slice_bound (length l) hi in
  take (hi' - lo') (drop lo' l).

(** Read an attribute that [__init__] may not have set. *)
Definition getattr {A} (a : option A) : result A :=
  match a with
  | Some v => Ok v
  | None => Raise AttributeError
  end.

(** ** image_generator.py *)

Module ImageGenerator.

Import PriorBoxManager.

(** An [H x W x 3] image array. *)
Record pixel : Type := Pixel {
  red : R;
  green : R;
  blue : R
}.

Abbreviation image := (list (list pixel)).

Definition pixel_map (f : R -> R) (p : pixel) : pixel :=
  Pixel (f (red p)) (f (green p)) (f (blue p)).

Definition image_map (f : R -> R) (im : image) : image :=
  map (map (pixel_map f)) im.

(** [image_array.shape[:2]]: height and width (the rows of an array have
    one length). *)
Definition image_shape (im : image) : nat * nat :=
  (length im, length (hd [] im)).

(** The bound methods kept in [self.color_jitter]. *)
Inductive jitter : Type :=
| Saturation
| Brightness
| Contrast.

Inductive mode : Type :=
| Train
| Val
| Demo.

(** The arrays of ground-truth rows live in a heap: the dictionary
    [ground_truth_data] maps a key to the address of its array, and a
    function that is given a box array is given its address. *)
Abbreviation loc := nat (only parsing).
Abbreviation heap := (gmap loc (list gt_row)).

(** The attributes of an [ImageGenerator] that its methods read.  An
    attribute that [__init__] sets under a condition is an [option]: [None]
    when the object has no such attribute. *)
Record generator : Type := Generator {
  negative_positive_ratio : nat;
  ground_truth_data : gmap string loc;
  box_manager : manager;
  batch_size : nat;
  path_prefix : string;
  train_keys : list string;
  validation_keys : list string;
  image_size : nat * nat;
  suffix : string;
  color_jitter : list jitter;
  saturation_var : option R;
  brightness_var : option R;
  contrast_var : option R;
  lighting_std : R;
  horizontal_flip_probability : R;
  vertical_flip_probability : R
}.

(** [if v:] for a number. *)
Definition truthy (v : R) : bool := negb (Reqb v 0).

(** [__init__]: the three variance attributes and the entries of
    [color_jitter] are set only for a non-zero argument. *)
Definition init (ground_truth_data : gmap string loc) (box_manager : manager)
    (batch_size : nat) (image_size : nat * nat)
    (train_keys validation_keys : list string) (path_prefix suffix : string)
    (negative_positive_ratio : nat)
    (saturation_var brightness_var contrast_var lighting_std
       horizontal_flip_probability vertical_flip_probability : R)
    : generator :=
  Generator negative_positive_ratio ground_truth_data box_manager batch_size
    path_prefix train_keys validation_keys image_size suffix
    ((if truthy saturation_var then [Saturation] else []) ++
     (if truthy brightness_var then [Brightness] else []) ++
     (if truthy contrast_var then [Contrast] else []))
    (if truthy saturation_var then Some saturation_var else None)
    (if truthy brightness_var then Some brightness_var else None)
    (if truthy contrast_var then Some contrast_var else None)
    lighting_std horizontal_flip_probability vertical_flip_probability.

Definition set_color_jitter (self : generator) (l : list jitter) : generator :=
  Generator (negative_positive_ratio self) (ground_truth_data self)
    (box_manager self) (batch_size self) (path_prefix self) (train_keys self)
    (validation_keys self) (image_size self) (suffix self) l
    (saturation_var self) (brightness_var self) (contrast_var self)
    (lighting_std self) (horizontal_flip_probability self)
    (vertical_flip_probability self).

Definition set_box_manager (self : generator) (m : manager) : generator :=
  Generator (negative_positive_ratio self) (ground_truth_data self)
    m (batch_size self) (path_prefix self) (train_keys self)
    (validation_keys self) (image_size self) (suffix self) (color_jitter self)
    (saturation_var self) (brightness_var self) (contrast_var self)
    (lighting_std self) (horizontal_flip_probability self)
    (vertical_flip_probability self).

Definition set_keys (self : generator) (train val : list string) : generator :=
  Generator (negative_positive_ratio self) (ground_truth_data self)
    (box_manager self) (batch_size self) (path_prefix self) train
    val (image_size self) (suffix self) (color_jitter self)
    (saturation_var self) (brightness_var self) (contrast_var self)
    (lighting_std self) (horizontal_flip_probability self)
    (vertical_flip_probability self).

Definition _gray_scale (image_array : image) : list (list R) :=
  map (map (fun p => red p * 0.299 + green p * 0.587 + blue p * 0.114))
    image_array.

(** [u] is the value of [np.random.random()]. *)
Definition saturation (self : generator) (u : R) (image_array : image)
    : result image :=
  let gray_scale := _gray_scale image_array in
  brightness_var ← getattr (brightness_var self);
  let alpha := 2.0 * u * brightness_var in
  saturation_var ← getattr (saturation_var self);
  let alpha := alpha + 1 - saturation_var in
  let image_array :=
    zip_with (zip_with (fun p g =>
      pixel_map (fun c => alpha * c + (1 - alpha) * g) p))
      image_array gray_scale in
  Ok (image_map (Rclip 0 255) image_array).

Definition brightness (self : generator) (u : R) (image_array : image)
    : result image :=
  brightness_var ← getattr (brightness_var self);
  let alpha := 2 * u * brightness_var in
  saturation_var ← getattr (saturation_var self);
  let alpha := alpha + 1 - saturation_var in
  let image_array := image_map (fun c => alpha * c) image_array in
  Ok (image_map (Rclip 0 255) image_array).

(** The mean of a two-dimensional array (of an empty array it is not
    used: there is no pixel to write). *)
Definition mean (a : list (list R)) : R :=
  foldr Rplus 0 (concat a) / INR (length (concat a)).

Definition contrast (self : generator) (u : R) (image_array : image)
    : result image :=
  let gray_scale := mean (_gray_scale image_array) in
  contrast_var ← getattr (contrast_var self);
  let alpha := 2 * u * contrast_var in
  let alpha := alpha + 1 - contrast_var in
  let image_array :=
    image_map (fun c => c * alpha + (1 - alpha) * gray_scale) image_array in
  Ok (image_map (Rclip 0 255) image_array).

Definition apply_jitter (self : generator) (j : jitter) (u : R)
    (image_array : image) : result image :=
  match j with
  | Saturation => saturation self u image_array
  | Brightness => brightness self u image_array
  | Contrast => contrast self u image_array
  end.

(** [box_corners[:, [0, 2]] = 1 - box_corners[:, [2, 0]]] and
    [box_corners[:, [1, 3]] = 1 - box_corners[:, [3, 1]]], on one row: the
    right-hand side is computed before the row is written. *)
Definition flip_row_x (g : gt_row) : gt_row :=
  let b := gt_box g in
  GtRow (Box (1 - x_max b) (y_min b) (1 - x_min b) (y_max b)) (gt_classes g).

Definition flip_row_y (g : gt_row) : gt_row :=
  let b := gt_box g in
  GtRow (Box (x_min b) (1 - y_max b) (x_max b) (1 - y_min b)) (gt_classes g).

(** [horizontal_flip]: the image is a new (reversed) array, the boxes are
    rewritten in the array at [box_corners], whose address is returned. *)
Definition horizontal_flip (self : generator) (u : R) (image_array : image)
    (box_corners : loc) (h : heap) : image * loc * heap :=
  if Rltb u (horizontal_flip_probability self)
  then (map (@rev pixel) image_array, box_corners,
        alter (map flip_row_x) box_corners h)
  else (image_array, box_corners, h).

Definition vertical_flip (self : generator) (u : R) (image_array : image)
    (box_corners : loc) (h : heap) : image * loc * heap :=
  if Rltb u (vertical_flip_probability self)
  then (rev image_array, box_corners, alter (map flip_row_y) box_corners h)
  else (image_array, box_corners, h).

(** The random draws of one call of [transform]: the order in which
    [shuffle] leaves [self.color_jitter], one uniform number for each
    jitter applied, the three normal numbers of [lighting] and the uniform
    numbers of the two flips. *)
Record transform_draws : Type := TransformDraws {
  shuffled : list jitter;
  jitter_u : nat -> R;
  lighting_noise : R * R * R;
  hflip_u : R;
  vflip_u : R
}.

(** The random draws for one key of [flow]: those of [transform] and the
    permutation of [_select_samples]. *)
Record key_draws : Type := KeyDraws {
  kd_transform : transform_draws;
  kd_permutation : list nat
}.

(** [for jitter in self.color_jitter: image_array = jitter(image_array)]. *)
Fixpoint apply_jitters (self : generator) (js : list jitter) (u : nat -> R)
    (i : nat) (image_array : image) : result image :=
  match js with
  | [] => Ok image_array
  | j :: js' =>
      image_array ← apply_jitter self j (u i) image_array;
      apply_jitters self js' u (S i) image_array
  end.

(** [_denormalize_box]: the first four columns are rescaled in place (the
    array is the one [assign_boxes] has just built). *)
Definition denormalize_row (original_image_height original_image_width : nat)
    (row : list fval) : list fval :=
  let row := alter (fun v => fmul v (Fin (INR original_image_width))) 0%nat row in
  let row := alter (fun v => fmul v (Fin (INR original_image_height))) 1%nat row in
  let row := alter (fun v => fmul v (Fin (INR original_image_width))) 2%nat row in
  alter (fun v => fmul v (Fin (INR original_image_height))) 3%nat row.

Definition _denormalize_box (box_coordinates : matrix)
    (original_image_size : nat * nat) : result matrix :=
  let '(original_image_height, original_image_width) := original_image_size in
  if forallb (fun row : list fval => bool_decide (4 <= length row)%nat)
       box_coordinates
  then Ok (map (denormalize_row original_image_height original_image_width)
             box_coordinates)
  else Raise IndexError.

(** [_select_samples]; [permutation] is the value of
    [np.random.permutation(num_background_boxes)]. *)
Definition _select_samples (self : generator) (permutation : list nat)
    (assigned_data : matrix) : result (matrix * matrix) :=
  object_mask ←
    mapM (fun row : list fval =>
            match row !! 4%nat with
            | Some v => Ok (fneqb v (Fin 1))
            | None => Raise IndexError
            end) assigned_data;
  let background_mask := map negb object_mask in
  let object_data := select object_mask assigned_data in
  let background_data := select background_mask assigned_data in
  let num_assigned_boxes := length object_data in
  let num_background_boxes := length background_data in
  let random_args := permutation in
  let num_negative_boxes :=
    (negative_positive_ratio self * num_assigned_boxes)%nat in
  let random_args := take num_negative_boxes random_args in
  background_data ←
    mapM (fun i : nat =>
            match background_data !! i with
            | Some row => Ok row
            | None => Raise ValueError
            end) random_args;
  Ok (object_data, background_data).

Definition _crop_bounding_box (image_array : image) (box_data : list fval)
    : result image :=
  let column (i : nat) : result fval :=
    match box_data !! i with
    | Some v => Ok v
    | None => Raise IndexError
    end in
  x_min ← column 0%nat ≫= py_int;
  y_min ← column 1%nat ≫= py_int;
  x_max ← column 2%nat ≫= py_int;
  y_max ← column 3%nat ≫= py_int;
  Ok (map (py_slice x_min x_max) (py_slice y_min y_max image_array)).

(** [0 in cropped_array.shape]. *)
Definition empty_shape (im : image) : bool :=
  bool_decide (length im = 0%nat) || bool_decide (length (hd [] im) = 0%nat).

Section Collaborators.

(** The functions this module imports from [utils], and the numerical core
    of [lighting] ([np.cov] and [np.linalg.eigh]), which gives no array
    when [np.linalg.eigh] raises [LinAlgError]: it does on the covariance
    of a single pixel, which [np.cov] returns as a 0-dimensional array. *)
Variable read_image : string -> result image.
Variable resize_image : image -> nat * nat -> image.
Variable preprocess_images : list image -> list image.
Variable lighting_core : R -> R * R * R -> image -> option image.

(** [lighting]: [lighting_core] stands for lines 76 to 81, the image plus
    the noise projected on the eigenvectors of the covariance of its
    colours, or the failure of [np.linalg.eigh]; [noise] is the value of
    [np.random.randn(3)]. *)
Definition lighting (self : generator) (noise : R * R * R)
    (image_array : image) : result image :=
  match lighting_core (lighting_std self) noise image_array with
  | Some image_array => Ok (image_map (Rclip 0 255) image_array)
  | None => Raise LinAlgError
  end.

Definition transform (self : generator) (d : transform_draws)
    (image_array : image) (box_corners : loc) (h : heap)
    : result (image * loc * heap * generator) :=
  let self := set_color_jitter self (shuffled d) in
  image_array ← apply_jitters self (color_jitter self) (jitter_u d) 0 image_array;
  image_array ←
    (if truthy (lighting_std self)
     then lighting self (lighting_noise d) image_array
     else Ok image_array);
  let '(image_array, box_corners, h) :=
    if Rltb 0 (horizontal_flip_probability self)
    then horizontal_flip self (hflip_u d) image_array box_corners h
    else (image_array, box_corners, h) in
  let '(image_array, box_corners, h) :=
    if Rltb 0 (vertical_flip_probability self)
    then vertical_flip self (vflip_u d) image_array box_corners h
    else (image_array, box_corners, h) in
  Ok (image_array, box_corners, h, self).

(** [_crop_bounding_boxes]: the crops and the class targets of the selected
    rows, the rows with an empty crop skipped. *)
Fixpoint crop_rows (self : generator) (image_array : image) (data : matrix)
    : result (list image * matrix) :=
  match data with
  | [] => Ok ([], [])
  | object_data :: data' =>
      cropped_array ← _crop_bounding_box image_array object_data;
      '(images, classes) ← crop_rows self image_array data';
      if empty_shape cropped_array then Ok (images, classes)
      else Ok (resize_image cropped_array (image_size self) :: images,
               drop 4 object_data :: classes)
  end.

Definition _crop_bounding_boxes (self : generator) (permutation : list nat)
    (image_array : image) (assigned_data : matrix)
    : result (list image * matrix) :=
  '(object_data, background_data) ←
    _select_samples self permutation assigned_data;
  crop_rows self image_array (object_data ++ background_data).

(** The body of the loop [for key in keys] of [flow], up to the crops of
    that key (lines 182 to 193). *)
Definition flow_key (self : generator) (m : mode) (d : key_draws)
    (key : string) (h : heap)
    : result (list image * matrix * heap * generator) :=
  let image_path := (path_prefix self +:+ key +:+ suffix self)%string in
  image_array ← read_image image_path;
  let original_image_size := image_shape image_array in
  box_data ←
    match ground_truth_data self !! key with
    | Some l => Ok l
    | None => Raise KeyError
    end;
  '(image_array, box_data, h, self) ←
    match m with
    | Train | Demo => transform self (kd_transform d) image_array box_data h
    | Val => Ok (image_array, box_data, h, self)
    end;
  '(assigned_data, manager) ←
    assign_boxes (box_manager self) (h !!! box_data);
  let self := set_box_manager self manager in
  assigned_data ← _denormalize_box assigned_data original_image_size;
  '(images, classes) ←
    _crop_bounding_boxes self (kd_permutation d) image_array assigned_data;
  Ok (images, classes, h, self).

(** [_shuffle_together]; [random_args] is the value of
    [np.random.permutation(num_samples)]. *)
Definition _shuffle_together {A B} (random_args : list nat)
    (array_1 : list A) (array_2 : list B) : result (list A * list B) :=
  if decide (length array_1 = length array_2) then
    let index {C} (a : list C) (i : nat) : result C :=
      match a !! i with
      | Some x => Ok x
      | None => Raise IndexError
      end in
    randomized_list_1 ← mapM (index array_1) random_args;
    randomized_list_2 ← mapM (index array_2) random_args;
    Ok (randomized_list_1, randomized_list_2)
  else Raise AssertionError.

(** The value of [_wrap_in_dictionary]. *)
Record batch : Type := Batch {
  image_array_input : list image;
  predictions : matrix
}.

(** The random draws of one pass over the keys: the order in which
    [shuffle] leaves the keys, the draws for the key at each position and
    the permutation of the batch completed at each position. *)
Record pass_draws : Type := PassDraws {
  shuffled_keys : list string;
  pd_key : nat -> key_draws;
  pd_batch : nat -> list nat
}.

(** [_mangage_keys]: the key list of the mode is shuffled in place. *)
Definition _mangage_keys (self : generator) (m : mode) (d : pass_draws)
    : list string * generator :=
  match m with
  | Train =>
      (shuffled_keys d, set_keys self (shuffled_keys d) (validation_keys self))
  | Val | Demo =>
      (shuffled_keys d, set_keys self (train_keys self) (shuffled_keys d))
  end.

(** The loop [for key in keys] of [flow], from the key at position [i] on:
    the batches it yields, when it runs to its end. *)
Fixpoint flow_keys (self : generator) (m : mode) (d : pass_draws) (i : nat)
    (keys : list string) (inputs : list image) (targets : matrix) (h : heap)
    : result (list batch * heap * generator) :=
  match keys with
  | [] => Ok ([], h, self)
  | key :: keys' =>
      '(images, classes, h, self) ← flow_key self m (pd_key d i) key h;
      let inputs := inputs ++ images in
      let targets := targets ++ classes in
      if decide (batch_size self <= length targets)%nat then
        '(inputs, targets) ← _shuffle_together (pd_batch d i) inputs targets;
        let inputs :=
          match m with
          | Train | Val => preprocess_images inputs
          | Demo => inputs
          end in
        '(rest, h, self) ← flow_keys self m d (S i) keys' [] [] h;
        Ok (Batch inputs targets :: rest, h, self)
      else flow_keys self m d (S i) keys' inputs targets h
  end.

(** [flow]: the generator never ends; this is the run of its first passes,
    one for each element of [passes], and the batches they yield. *)
Fixpoint flow (self : generator) (m : mode) (passes : list pass_draws)
    (h : heap) : result (list batch * heap * generator) :=
  match passes with
  | [] => Ok ([], h, self)
  | d :: passes' =>
      let '(keys, self) := _mangage_keys self m d in
      '(batches, h, self) ← flow_keys self m d 0 keys [] [] h;
      '(rest, h, self) ← flow self m passes' h;
      Ok (batches ++ rest, h, self)
  end.

End Collaborators.

(** *** Vocabulary of the specification *)

(** A foreground row for [_select_samples]: column 4 is not 1. *)
Definition is_object (row : list fval) : bool :=
  fneqb (row !!! 4%nat) (Fin 1).

(** A flip of probability [p] fires on the draw [u]: [transform] calls it
    and its test succeeds. *)
Definition flip_fires (p u : R) : bool := Rltb 0 p && Rltb u p.

(** The box array after the flips of one call of [transform], for the flip
    probabilities [ph] and [pv]. *)
Definition flip_boxes (ph pv : R) (d : transform_draws)
    (boxes : list gt_row) : list gt_row :=
  let boxes :=
    if flip_fires ph (hflip_u d) then map flip_row_x boxes else boxes in
  if flip_fires pv (vflip_u d) then map flip_row_y boxes else boxes.

(** The heap after [flow] has processed one key: in the modes that call
    [transform] the array stored for the key is rewritten. *)
Definition key_effect (gtd : gmap string loc) (ph pv : R) (m : mode)
    (d : transform_draws) (key : string) (h : heap) : heap :=
  match m, gtd !! key with
  | Val, _ | _, None => h
  | _, Some l => alter (flip_boxes ph pv d) l h
  end.

(** The heap after a pass over the keys, and after a list of passes. *)
Fixpoint keys_effect (gtd : gmap string loc) (ph pv : R) (m : mode)
    (d : pass_draws) (i : nat) (keys : list string) (h : heap) : heap :=
  match keys with
  | [] => h
  | key :: keys' =>
      keys_effect gtd ph pv m d (S i) keys'
        (key_effect gtd ph pv m (kd_transform (pd_key d i)) key h)
  end.

Fixpoint passes_effect (gtd : gmap string loc) (ph pv : R) (m : mode)
    (passes : list pass_draws) (h : heap) : heap :=
  match passes with
  | [] => h
  | d :: passes' =>
      passes_effect gtd ph pv m passes'
        (keys_effect gtd ph pv m d 0 (shuffled_keys d) h)
  end.

(** Two states of a generator with the same ground-truth dictionary and
    flip probabilities. *)
Definition same_config (self self' : generator) : Prop :=
  ground_truth_data self' = ground_truth_data self /\
  horizontal_flip_probability self' = horizontal_flip_probability self /\
  vertical_flip_probability self' = vertical_flip_probability self.

(** *** Example inputs *)

(** A generator with every augmentation off, and an assignment matrix of
    one foreground row and three background rows. *)
Definition ex_generator (r : nat) : generator :=
  init ∅ (init_defaults []) 1 (1, 1)%nat [] [] "" "" r 0 0 0 0 0 0.

Definition ex_assigned : matrix :=
  [replicate 4 (Fin 0) ++ [Fin 0; Fin 1];
   replicate 4 (Fin 0) ++ [Fin 1; Fin 0];
   replicate 4 (Fin 0) ++ [Fin 1; Fin 0];
   replicate 4 (Fin 0) ++ [Fin 1; Fin 0]].

(** A black image of 4 by 4 pixels and collaborators that read it, resize
    nothing and add no lighting. *)
Definition ex_image : image := replicate 4 (replicate 4 (Pixel 0 0 0)).
Definition ex_read_image (path : string) : result image := Ok ex_image.
Definition ex_resize_image (im : image) (size : nat * nat) : image := im.
Definition ex_lighting_core (std : R) (noise : R * R * R) (im : image)
    : option image := Some im.

(** One key, whose box array is at address 0; only the horizontal flip is
    enabled, with probability 1. *)
Definition ex_flip_generator : generator :=
  init {["k" := 0%nat]} ex_far_manager 1 (1, 1)%nat ["k"] [] "" "" 1
    0 0 0 0 1 0.

Definition ex_flip_heap : heap :=
  {[ 0%nat := [GtRow (Box 0 0.6 0.4 1) [0; 1]] ]}.

Definition ex_flip_draws : key_draws :=
  KeyDraws (TransformDraws [] (fun _ => 0) (0, 0, 0) 0.5 0.5) [].

(** One key whose only box is the only prior box, the middle of the
    image; every augmentation is off. *)
Definition ex_crop_generator : generator :=
  init {["k" := 0%nat]} ex_crop_manager 1 (1, 1)%nat ["k"] ["k"] "" "" 1
    0 0 0 0 0 0.

Definition ex_crop_heap : heap := {[ 0%nat := [ex_crop_row] ]}.

Definition ex_crop_draws : key_draws :=
  KeyDraws (TransformDraws [] (fun _ => 0) (0, 0, 0) 0.5 0.5) [].

(** *** Vocabulary for images, crops and exceptions *)

(** Every channel of every pixel is in [0, 255]. *)
Definition in_byte_range (im : image) : Prop :=
  Forall (Forall (fun p => 0 <= red p <= 255 /\ 0 <= green p <= 255 /\
                           0 <= blue p <= 255)) im.

(** Two images with as many rows, of the same lengths. *)
Definition same_shape (a b : image) : Prop := map length a = map length b.

(** A ground-truth row whose box is valid and inside the unit square. *)
Definition well_formed (g : gt_row) : Prop :=
  valid_box (gt_box g) /\ in_unit_square (gt_box g).

Definition is_finite (v : fval) : bool :=
  match v with Fin _ => true | _ => false end.

(** [crop] is cut out of [im]: its rows are cut out of some of the rows of
    [im], in order. *)
Definition sub_image (crop im : image) : Prop :=
  exists rows, rows `sublist_of` im /\
    Forall2 (fun r r0 : list pixel => r `sublist_of` r0) crop rows.

(** A computation that does not raise [AssertionError]. *)
Definition never_asserts {A} (r : result A) : Prop :=
  r <> Raise AssertionError.

(** *** Further example inputs *)

(** Both flips enabled with probability 1; the three colour jitters
    enabled with variance 0.5 and nothing else; the lighting noise alone. *)
Definition ex_both_flips_generator : generator :=
  init {["k" := 0%nat]} ex_far_manager 1 (1, 1)%nat ["k"] [] "" "" 1
    0 0 0 0 1 1.

Definition ex_jitter_generator : generator :=
  init ∅ (init_defaults []) 1 (1, 1)%nat [] [] "" "" 1 0.5 0.5 0.5 0 0 0.

Definition ex_lighting_generator : generator :=
  init ∅ (init_defaults []) 1 (1, 1)%nat [] [] "" "" 1 0 0 0 0.5 0 0.

Definition ex_lighting_draws : transform_draws :=
  TransformDraws [] (fun _ => 0) (0, 0, 0) 0.5 0.5.

(** An image of two pixels: the covariance of its colours is a 3 by 3
    matrix. *)
Definition ex_two_pixels : image := [[Pixel 10 20 30; Pixel 40 50 60]].

(** A foreground row in pixel coordinates, a pass over the one key ["k"],
    and a heap where that key has no box. *)
Definition ex_pixel_row : list fval :=
  [Fin 1; Fin 1; Fin 3; Fin 3; Fin 0; Fin 1].

Definition ex_val_pass : pass_draws :=
  PassDraws ["k"] (fun _ => ex_flip_draws) (fun _ => []).

Definition ex_empty_heap : heap := {[ 0%nat := [] ]}.

End ImageGenerator.

(** * Properties *)

Import PriorBoxManager ImageGenerator.

(** Decide the comparisons of real numbers that a goal tests. *)
Ltac rdec :=
  repeat match goal with
  | |- context [Rle_dec ?a ?b] => destruct (Rle_dec a b); try lra
  | |- context [Rlt_dec ?a ?b] => destruct (Rlt_dec a b); try lra
  | |- context [Req_dec_T ?a ?b] => destruct (Req_dec_T a b); try lra
  end.

(** ** Arithmetic of [fval] on finite values *)

Lemma half_eq : 0.5 = / 2.
Proof. lra. Qed.

Lemma fdiv_fin a b : b <> 0 -> fdiv (Fin a) (Fin b) = Fin (a / b).
Proof.
  intros Hb. unfold fdiv.
  destruct (Req_dec_T b 0); [contradiction|reflexivity].
Qed.

Lemma fdiv_zero_zero : fdiv (Fin 0) (Fin 0) = NaN.
Proof. unfold fdiv. rdec. reflexivity. Qed.

Lemma flog_fin a : 0 < a -> flog (Fin a) = Fin (ln a).
Proof.
  intros Ha. unfold flog. destruct (Rlt_dec 0 a); [reflexivity|contradiction].
Qed.

Lemma fclip_fin lo hi x : lo <= x <= hi -> fclip lo hi (Fin x) = Fin x.
Proof.
  intros [H1 H2]. unfold fclip, fmaximum, fminimum, fleb, Rleb.
  destruct (Rle_dec x lo).
  - assert (x = lo) by lra. subst. destruct (Rle_dec lo hi); [reflexivity|lra].
  - destruct (Rle_dec x hi); [reflexivity|lra].
Qed.

Lemma fclip_fin_eq e x : e = x -> 0 <= x <= 1 -> fclip 0 1 (Fin e) = Fin x.
Proof. intros -> H. apply fclip_fin, H. Qed.

Lemma exp_ln_scaled x s : 0 < x -> s <> 0 -> exp (ln x / s * s) = x.
Proof.
  intros Hx Hs. replace (ln x / s * s) with (ln x) by (field; assumption).
  apply exp_ln, Hx.
Qed.

Lemma div_range a b : 0 <= a <= b -> 0 < b -> 0 <= a / b <= 1.
Proof.
  intros [H0 H1] Hb. pose proof (Rinv_0_lt_compat b Hb) as Hi.
  unfold Rdiv. split.
  - apply Rmult_le_pos; lra.
  - replace 1 with (b * / b) by (field; lra).
    apply Rmult_le_compat_r; lra.
Qed.

(** ** Intersection over union *)

Lemma iou_unfold p g :
  iou p g =
  fdiv (Fin (intersection p g)) (Fin (area p + area g - intersection p g)).
Proof. reflexivity. Qed.

(** The clamped widths and heights make the intersection non-negative. *)
Lemma intersection_nonneg p g : 0 <= intersection p g.
Proof. unfold intersection. apply Rmult_le_pos; apply Rmax_r. Qed.

Lemma intersection_comm p g : intersection p g = intersection g p.
Proof.
  unfold intersection.
  rewrite (Rmin_comm (x_max p)), (Rmax_comm (x_min p)),
    (Rmin_comm (y_max p)), (Rmax_comm (y_min p)). reflexivity.
Qed.

(** A positive intersection lies inside both boxes, which are then valid. *)
Lemma intersection_pos_le p g :
  0 < intersection p g ->
  valid_box p /\ valid_box g /\
  intersection p g <= area p /\ intersection p g <= area g.
Proof.
  unfold intersection, valid_box, area.
  set (w := Rmin (x_max p) (x_max g) - Rmax (x_min p) (x_min g)).
  set (h := Rmin (y_max p) (y_max g) - Rmax (y_min p) (y_min g)).
  intros H.
  assert (Hw : 0 < w).
  { destruct (Rlt_dec 0 w) as [|n]; [assumption|].
    rewrite (Rmax_right w 0) in H by lra. lra. }
  assert (Hh : 0 < h).
  { destruct (Rlt_dec 0 h) as [|n]; [assumption|].
    rewrite (Rmax_right h 0), Rmult_0_r in H by lra. lra. }
  rewrite (Rmax_left w 0), (Rmax_left h 0) by lra.
  pose proof (Rmin_l (x_max p) (x_max g)).
  pose proof (Rmin_r (x_max p) (x_max g)).
  pose proof (Rmax_l (x_min p) (x_min g)).
  pose proof (Rmax_r (x_min p) (x_min g)).
  pose proof (Rmin_l (y_max p) (y_max g)).
  pose proof (Rmin_r (y_max p) (y_max g)).
  pose proof (Rmax_l (y_min p) (y_min g)).
  pose proof (Rmax_r (y_min p) (y_min g)).
  assert (w <= x_max p - x_min p) by (unfold w; lra).
  assert (w <= x_max g - x_min g) by (unfold w; lra).
  assert (h <= y_max p - y_min p) by (unfold h; lra).
  assert (h <= y_max g - y_min g) by (unfold h; lra).
  repeat split; try lra; apply Rmult_le_compat; lra.
Qed.

Lemma intersection_disjoint p g : disjoint p g -> intersection p g = 0.
Proof.
  unfold disjoint, intersection. intros H.
  pose proof (Rmin_l (x_max p) (x_max g)).
  pose proof (Rmin_r (x_max p) (x_max g)).
  pose proof (Rmax_l (x_min p) (x_min g)).
  pose proof (Rmax_r (x_min p) (x_min g)).
  pose proof (Rmin_l (y_max p) (y_max g)).
  pose proof (Rmin_r (y_max p) (y_max g)).
  pose proof (Rmax_l (y_min p) (y_min g)).
  pose proof (Rmax_r (y_min p) (y_min g)).
  destruct H as [H|[H|[H|H]]].
  1,2: rewrite (Rmax_right _ 0) by lra; lra.
  1,2: rewrite (Rmax_right (Rmin (y_max p) (y_max g) - _) 0) by lra; lra.
Qed.

Lemma intersection_degenerate p g : degenerate g -> intersection p g = 0.
Proof.
  unfold degenerate, intersection. intros H.
  pose proof (Rmin_r (x_max p) (x_max g)).
  pose proof (Rmax_r (x_min p) (x_min g)).
  pose proof (Rmin_r (y_max p) (y_max g)).
  pose proof (Rmax_r (y_min p) (y_min g)).
  destruct H as [H|H].
  - rewrite (Rmax_right _ 0) by lra; lra.
  - rewrite (Rmax_right (Rmin (y_max p) (y_max g) - _) 0) by lra; lra.
Qed.

Lemma intersection_self p : valid_box p -> intersection p p = area p.
Proof.
  unfold valid_box, intersection, area. intros [Hx Hy].
  rewrite !Rmin_left, !(Rmax_left (x_min p)), !(Rmax_left (y_min p)) by lra.
  rewrite !Rmax_left by lra. reflexivity.
Qed.

(** The union of two boxes of positive area is positive and bounds their
    intersection. *)
Lemma union_pos p g :
  0 < area p -> 0 < area g ->
  0 < area p + area g - intersection p g /\
  intersection p g <= area p + area g - intersection p g.
Proof.
  intros Hp Hg. pose proof (intersection_nonneg p g) as [Hi|Hi].
  - destruct (intersection_pos_le p g Hi) as (_ & _ & ? & ?). lra.
  - rewrite <- Hi. lra.
Qed.

Lemma valid_box_area b : valid_box b -> 0 < area b.
Proof. intros [Hx Hy]. unfold area. apply Rmult_lt_0_compat; lra. Qed.

Lemma iou_range a b :
  0 < area a -> 0 < area b -> exists r, iou a b = Fin r /\ 0 <= r <= 1.
Proof.
  intros Ha Hb. rewrite iou_unfold.
  destruct (union_pos a b Ha Hb) as [Hu Hle].
  pose proof (intersection_nonneg a b) as Hi.
  eexists. split; [apply fdiv_fin; lra|]. apply div_range; lra.
Qed.

(** Without any assumption on the boxes: the value is NaN exactly when
    the union is 0, and a number of [0, 1] otherwise. *)
Lemma iou_nan_or_unit (p g : box) :
  (area p + area g - intersection p g = 0 /\ iou p g = NaN) \/
  (area p + area g - intersection p g <> 0 /\
   exists r, iou p g = Fin r /\ 0 <= r <= 1).
Proof.
  rewrite iou_unfold.
  destruct (Req_dec_T (area p + area g - intersection p g) 0) as [E|E].
  - left. split; [exact E|].
    pose proof (intersection_nonneg p g) as [Hi|Hi].
    + destruct (intersection_pos_le p g Hi) as (Hp & Hg & H1 & H2).
      pose proof (valid_box_area p Hp). lra.
    + rewrite E, <- Hi. apply fdiv_zero_zero.
  - right. split; [exact E|]. rewrite fdiv_fin by exact E.
    eexists. split; [reflexivity|].
    pose proof (intersection_nonneg p g) as [Hi|Hi].
    + destruct (intersection_pos_le p g Hi) as (Hp & Hg & H1 & H2).
      pose proof (valid_box_area p Hp). pose proof (valid_box_area g Hg).
      apply div_range; lra.
    + rewrite <- Hi. unfold Rdiv. rewrite Rmult_0_l. lra.
Qed.

Lemma iou_comm a b : iou a b = iou b a.
Proof.
  rewrite !iou_unfold, (intersection_comm b a), (Rplus_comm (area b)).
  reflexivity.
Qed.

Lemma iou_disjoint a b :
  0 < area a -> 0 < area b -> disjoint a b -> iou a b = Fin 0.
Proof.
  intros Ha Hb Hd. rewrite iou_unfold, (intersection_disjoint _ _ Hd).
  rewrite fdiv_fin by lra. f_equal. field. lra.
Qed.

Lemma iou_self a : valid_box a -> iou a a = Fin 1.
Proof.
  intros Hv. pose proof (valid_box_area a Hv) as Ha.
  rewrite iou_unfold, (intersection_self _ Hv).
  rewrite fdiv_fin by lra. f_equal. field. lra.
Qed.

(** C8.  For two boxes of positive area the intersection over union is a
    number between 0 and 1; it does not change when the ground-truth box
    and the prior box are exchanged; it is 0 for boxes that do not overlap;
    and the intersection over union of a valid box with itself is 1. *)
Theorem iou_properties (a b : box) :
  0 < area a -> 0 < area b ->
  (exists r, iou a b = Fin r /\ 0 <= r <= 1) /\
  iou a b = iou b a /\
  (disjoint a b -> iou a b = Fin 0) /\
  (valid_box a -> iou a a = Fin 1).
Proof.
  intros Ha Hb. split; [apply iou_range; assumption|].
  split; [apply iou_comm|]. split.
  - apply iou_disjoint; assumption.
  - apply iou_self.
Qed.

Lemma iou_properties_witness :
  (exists r, iou (Box 0 0 0.5 0.5) (Box 0.5 0.5 1 1) = Fin r /\ 0 <= r <= 1) /\
  iou (Box 0 0 0.5 0.5) (Box 0.5 0.5 1 1)
    = iou (Box 0.5 0.5 1 1) (Box 0 0 0.5 0.5) /\
  iou (Box 0 0 0.5 0.5) (Box 0.5 0.5 1 1) = Fin 0 /\
  iou (Box 0 0 0.5 0.5) (Box 0 0 0.5 0.5) = Fin 1.
Proof.
  destruct (iou_properties (Box 0 0 0.5 0.5) (Box 0.5 0.5 1 1))
    as (Hr & Hs & Hd & Hv).
  - unfold area; cbn; lra.
  - unfold area; cbn; lra.
  - split; [exact Hr|]. split; [exact Hs|]. split.
    + apply Hd. left. cbn. lra.
    + apply Hv. split; cbn; lra.
Defined.

(** C2, as amended.  The clamped intersection of a prior box with a
    degenerate ground-truth box ([max <= min] in a dimension) is 0, and the
    computation of the intersection over union, a total function, raises
    nothing; its value is exactly 0 when the union, the sum of the two areas
    as the source computes them, is not 0, which is so for a ground-truth
    box of area 0 against a prior of area other than 0; when the union is 0
    the source divides 0 by 0 and the value is NaN. *)
Theorem iou_degenerate (p g : box) :
  degenerate g ->
  0 <= intersection p g /\
  intersection p g = 0 /\
  (area p + area g <> 0 -> iou p g = Fin 0) /\
  (area g = 0 -> area p <> 0 -> iou p g = Fin 0) /\
  (area p + area g = 0 -> iou p g = NaN).
Proof.
  intros Hg. pose proof (intersection_degenerate p g Hg) as Hi.
  rewrite iou_unfold, Hi, Rminus_0_r.
  assert (Hz : forall u, u <> 0 -> fdiv (Fin 0) (Fin u) = Fin 0).
  { intros u Hu. rewrite fdiv_fin by assumption. f_equal. field. assumption. }
  split; [lra|]. split; [reflexivity|]. split; [apply Hz|]. split.
  - intros Ha Hp. apply Hz. lra.
  - intros ->. apply fdiv_zero_zero.
Qed.

Lemma iou_degenerate_witness :
  0 <= intersection (Box 0 0 1 1) (Box 0.5 0 0.5 1) /\
  intersection (Box 0 0 1 1) (Box 0.5 0 0.5 1) = 0 /\
  (area (Box 0 0 1 1) + area (Box 0.5 0 0.5 1) <> 0 ->
   iou (Box 0 0 1 1) (Box 0.5 0 0.5 1) = Fin 0) /\
  (area (Box 0.5 0 0.5 1) = 0 -> area (Box 0 0 1 1) <> 0 ->
   iou (Box 0 0 1 1) (Box 0.5 0 0.5 1) = Fin 0) /\
  (area (Box 0 0 1 1) + area (Box 0.5 0 0.5 1) = 0 ->
   iou (Box 0 0 1 1) (Box 0.5 0 0.5 1) = NaN).
Proof.
  apply (iou_degenerate (Box 0 0 1 1) (Box 0.5 0 0.5 1)).
  left. cbn. lra.
Defined.

(** C2 as stated fails: the ground-truth box [(1, 0, 0, 1)] has
    [x_max <= x_min], and against the prior box [(0, 0, 1, 1)] the union is
    [1 + (-1) - 0 = 0], so the source computes 0/0: the value is NaN, not 0.
    The same happens for a ground-truth box and a prior box that are the
    same point. *)
Lemma iou_degenerate_counterexample :
  (degenerate (Box 1 0 0 1) /\
   iou (Box 0 0 1 1) (Box 1 0 0 1) = NaN /\
   iou (Box 0 0 1 1) (Box 1 0 0 1) <> Fin 0) /\
  (degenerate (Box 0.5 0.5 0.5 0.5) /\
   iou (Box 0.5 0.5 0.5 0.5) (Box 0.5 0.5 0.5 0.5) = NaN /\
   iou (Box 0.5 0.5 0.5 0.5) (Box 0.5 0.5 0.5 0.5) <> Fin 0).
Proof.
  assert (H1 : iou (Box 0 0 1 1) (Box 1 0 0 1) = NaN).
  { unfold iou, fdiv, Rmax, Rmin; cbn. rdec. all: reflexivity. }
  assert (H2 : iou (Box 0.5 0.5 0.5 0.5) (Box 0.5 0.5 0.5 0.5) = NaN).
  { unfold iou, fdiv, Rmax, Rmin; cbn. rdec. all: reflexivity. }
  rewrite H1, H2. repeat split; try discriminate.
  - left. cbn. lra.
  - left. cbn. lra.
Qed.

(** ** Encoding and decoding *)

Lemma decode_encode_row s d g :
  nonzero_scales s -> valid_box d -> valid_box g -> in_unit_square g ->
  decode_row s d (predicted_of_row (encode_row s d g)) = box_row g.
Proof.
  intros (Hsx & Hsy & Hsw & Hsh) [Hdx Hdy] [Hgx Hgy] (H0x & H1x & H0y & H1y).
  assert (Hdw : x_max d - x_min d <> 0) by lra.
  assert (Hdh : y_max d - y_min d <> 0) by lra.
  assert (Hrw : 0 < (x_max g - x_min g) / (x_max d - x_min d))
    by (apply Rdiv_lt_0_compat; lra).
  assert (Hrh : 0 < (y_max g - y_min g) / (y_max d - y_min d))
    by (apply Rdiv_lt_0_compat; lra).
  unfold encode_row, predicted_of_row, decode_row, box_row.
  rewrite !fdiv_fin
    by (try apply Rmult_integral_contrapositive_currified; assumption).
  rewrite !flog_fin by assumption.
  rewrite !fdiv_fin by assumption.
  cbn [pred_center_x pred_center_y pred_width pred_height lookup_total
       list_lookup_total fmul fadd fsub fneg fexp map].
  rewrite !exp_ln_scaled by assumption.
  repeat match goal with |- _ :: _ = _ :: _ => f_equal end.
  all: apply fclip_fin_eq;
    [rewrite !half_eq; field; repeat split; assumption | lra].
Qed.

(** C3.  For prior boxes of positive width and height, a valid
    ground-truth box with coordinates in [0, 1] and scale factors other
    than 0, [decode_boxes] applied to the rows that [_encode_box] computes
    for that box gives back, for every prior box, the coordinates of the
    box: over the real numbers the decoding inverts the encoding exactly. *)
Theorem encode_decode_round_trip (self : manager) (g : box) :
  nonzero_scales (box_scale_factors self) ->
  Forall valid_box (prior_boxes self) ->
  valid_box g -> in_unit_square g ->
  decode_boxes self
    (map predicted_of_row (_encode_box self (prior_boxes self) g))
  = Ok (map (fun _ => box_row g) (prior_boxes self)).
Proof.
  intros Hs Hp Hg Hu. unfold decode_boxes, _encode_box, broadcast2.
  rewrite !length_map. destruct (decide _) as [_|n]; [|congruence].
  cbn [mbind result_bind].
  replace (forallb _ _) with true.
  2:{ symmetry. apply forallb_forall. intros x Hin.
      apply in_map_iff in Hin as (r & <- & Hin).
      apply in_map_iff in Hin as (d & <- & _). reflexivity. }
  f_equal. induction Hp as [|d l Hd Hl IH]; [reflexivity|].
  cbn [map zip zip_with]. rewrite decode_encode_row by assumption.
  f_equal. apply IH.
Qed.

Lemma encode_decode_round_trip_witness :
  decode_boxes (init_defaults [Box 0 0 1 1; Box 0.25 0.25 0.75 0.5])
    (map predicted_of_row
       (_encode_box (init_defaults [Box 0 0 1 1; Box 0.25 0.25 0.75 0.5])
          [Box 0 0 1 1; Box 0.25 0.25 0.75 0.5] (Box 0.5 0.25 1 0.75)))
  = Ok [box_row (Box 0.5 0.25 1 0.75); box_row (Box 0.5 0.25 1 0.75)].
Proof.
  apply (encode_decode_round_trip
           (init_defaults [Box 0 0 1 1; Box 0.25 0.25 0.75 0.5])
           (Box 0.5 0.25 1 0.75)).
  - unfold nonzero_scales. cbn. lra.
  - repeat constructor; cbn; lra.
  - split; cbn; lra.
  - unfold in_unit_square. cbn. lra.
Defined.

(** ** Assignment of prior boxes *)

Lemma bind_ok {A B} (a : A) (k : A -> result B) : Ok a ≫= k = k a.
Proof. reflexivity. Qed.

Lemma mapM_ok_map {A B} (f : A -> result B) (g : A -> B) (l : list A) :
  Forall (fun x => f x = Ok (g x)) l -> mapM f l = Ok (map g l).
Proof.
  induction 1 as [|x l Hx _ IH]; [reflexivity|].
  cbn [mapM map]. rewrite Hx, bind_ok, IH. reflexivity.
Qed.

Lemma select_map {A B} (f : A -> B) mask (l : list A) :
  select mask (map f l) = map f (select mask l).
Proof.
  revert l. induction mask as [|m mask IH]; intros [|a l]; try reflexivity.
  cbn. destruct m; cbn; rewrite IH; reflexivity.
Qed.

Lemma length_mask_assign {A V} (wr : V -> A -> A) mask a vals :
  length (mask_assign wr mask a vals) = length a.
Proof.
  revert a vals. induction mask as [|m mask IH]; intros [|x a] vals;
    try reflexivity.
  cbn. destruct m; [destruct vals|]; cbn; rewrite ?IH; reflexivity.
Qed.

Lemma mask_assign_select {A V} (wr : V -> A -> A) mask a vs :
  length mask = length a -> length vs = length a ->
  mask_assign wr mask a (select mask vs) =
  zip_with (fun (mv : bool * V) x => if mv.1 then wr mv.2 x else x)
    (zip mask vs) a.
Proof.
  revert a vs. induction mask as [|m mask IH]; intros [|x a] [|v vs];
    try discriminate; try reflexivity.
  intros [= H1] [= H2]. cbn. destruct m; cbn; rewrite IH by assumption;
    reflexivity.
Qed.

Lemma argmax_from_bound mp best i l :
  (best < i)%nat -> (argmax_from mp best i l < i + length l)%nat.
Proof.
  revert mp best i. induction l as [|x l IH]; intros mp best i H; cbn.
  - lia.
  - destruct (is_nan mp); [lia|]. destruct (fleb x mp).
    + specialize (IH mp best (S i)). lia.
    + specialize (IH x i (S i)). lia.
Qed.

Lemma length_threshold_mask self g :
  length (threshold_mask self g) = length (prior_boxes self).
Proof. unfold threshold_mask, _calculate_intersection_over_unions.
  rewrite !length_map. reflexivity. Qed.

Lemma length_object_mask self g :
  length (object_mask self g) = length (prior_boxes self).
Proof.
  unfold object_mask. destruct (existsb _ _).
  - apply length_threshold_mask.
  - destruct (_calculate_intersection_over_unions self g) eqn:E.
    + unfold _calculate_intersection_over_unions in E.
      destruct (prior_boxes self); [reflexivity|discriminate].
    + rewrite length_insert. apply length_threshold_mask.
Qed.

Lemma object_mask_true self g :
  prior_boxes self <> [] -> exists j, object_mask self g !! j = Some true.
Proof.
  intros Hne. unfold object_mask.
  destruct (existsb _ _) eqn:E.
  - apply existsb_exists in E as (m & Hin & ->).
    apply list_elem_of_In, list_elem_of_lookup in Hin. exact Hin.
  - destruct (_calculate_intersection_over_unions self g) as [|x l] eqn:Ei.
    + unfold _calculate_intersection_over_unions in Ei.
      destruct (prior_boxes self); [congruence|discriminate].
    + exists (argmax_from x 0%nat 1%nat l).
      apply list_lookup_insert_eq. rewrite length_threshold_mask.
      pose proof (argmax_from_bound x 0 1 l ltac:(lia)) as Hb.
      assert (length (x :: l) = length (prior_boxes self)).
      { rewrite <- Ei. unfold _calculate_intersection_over_unions.
        apply length_map. }
      cbn in H. lia.
Qed.

Lemma select_nonempty {A} mask (l : list A) j :
  length mask = length l -> mask !! j = Some true -> select mask l <> [].
Proof.
  revert l j. induction mask as [|m mask IH]; intros [|a l] j Hl Hj;
    try discriminate.
  cbn. destruct m; [discriminate|].
  destruct j as [|j]; [discriminate|]. cbn in Hj. 
  apply (IH l j); [cbn in Hl; lia|exact Hj].
Qed.

Lemma object_priors_nonempty self g :
  prior_boxes self <> [] -> object_priors self g <> [].
Proof.
  intros Hne. destruct (object_mask_true self g Hne) as [j Hj].
  eapply select_nonempty; [apply length_object_mask|exact Hj].
Qed.

Lemma assign_object_ok self g :
  prior_boxes self <> [] ->
  _assign_boxes_to_object self true g =
  Ok (object_rows self g,
      set_assigned self (assigned_prior_boxes self ++ [object_priors self g])).
Proof.
  intros Hne. unfold _assign_boxes_to_object.
  assert (Hm : (if existsb (fun m => m)
                   (map (fun v => fgtb v (Fin (overlap_threshold self)))
                      (_calculate_intersection_over_unions self g))
               then Ok (map (fun v => fgtb v (Fin (overlap_threshold self)))
                      (_calculate_intersection_over_unions self g))
               else i ← argmax (_calculate_intersection_over_unions self g);
                    Ok (<[i:=true]> (map (fun v => fgtb v (Fin (overlap_threshold self)))
                      (_calculate_intersection_over_unions self g))))
              = Ok (object_mask self g)).
  { unfold object_mask, threshold_mask. destruct (existsb _ _); [reflexivity|].
    destruct (_calculate_intersection_over_unions self g) eqn:E; [|reflexivity].
    unfold _calculate_intersection_over_unions in E.
    destruct (prior_boxes self); [congruence|discriminate]. }
  rewrite Hm, bind_ok. f_equal. f_equal.
  unfold _encode_box, _calculate_intersection_over_unions, object_rows.
  rewrite <- select_map.
  pose proof (length_object_mask self g) as Hl.
  rewrite (mask_assign_select _ _ _ (map (fun prior => iou prior g) (prior_boxes self)))
    by (rewrite ?length_replicate, ?length_map; auto).
  rewrite mask_assign_select
    by (rewrite ?length_zip_with, ?length_zip, ?length_replicate, ?length_map; unfold num_priors; lia).
  cbn [box_scale_factors set_assigned].
  unfold num_priors.
  clear Hm Hne. generalize dependent (object_mask self g).
  induction (prior_boxes self) as [|p l IH]; intros [|m mask] Hl;
    try discriminate; [reflexivity|].
  cbn. injection Hl as Hl. rewrite <- IH by assumption. destruct m; reflexivity.
Qed.

Lemma assign_each_ok self boxes :
  prior_boxes self <> [] ->
  assign_each self boxes =
  Ok (map (object_rows self) boxes,
      set_assigned self
        (assigned_prior_boxes self ++ map (object_priors self) boxes)).
Proof.
  revert self. induction boxes as [|g boxes IH]; intros self Hne.
  - cbn. rewrite app_nil_r. destruct self; reflexivity.
  - cbn [assign_each map]. rewrite assign_object_ok by assumption.
    rewrite bind_ok. cbn beta iota.
    rewrite IH by exact Hne. rewrite bind_ok. cbn beta iota.
    cbn [set_assigned assigned_prior_boxes]. rewrite <- app_assoc.
    reflexivity.
Qed.

Lemma amax_cons x l : amax (x :: l) = Ok (foldl fmaximum x l).
Proof. reflexivity. Qed.

Lemma mapM_ext {A B} (f g : A -> result B) l :
  Forall (fun x => f x = g x) l -> mapM f l = mapM g l.
Proof.
  induction 1 as [|x l Hx _ IH]; [reflexivity|].
  cbn. rewrite Hx, IH. reflexivity.
Qed.

Lemma mapM_nonempty {A} `{Inhabited A} (f : list fval -> result A) (cols : list (list fval)) :
  (forall x l, exists a, f (x :: l) = Ok a) ->
  Forall (fun c => c <> []) cols ->
  mapM f cols = Ok (map (fun c => total (f c)) cols).
Proof.
  intros Hf Hc. apply mapM_ok_map. eapply Forall_impl; [exact Hc|].
  intros [|x l] Hne; [congruence|]. cbn beta.
  destruct (Hf x l) as [a ->]. reflexivity.
Qed.

Lemma lookup_total_map {A B} `{Inhabited B} (f : A -> B) l j x :
  l !! j = Some x -> map f l !!! j = f x.
Proof.
  intros Hl. apply list_lookup_total_correct.
  rewrite list_lookup_fmap, Hl. reflexivity.
Qed.

Lemma assign_boxes_rows self gts :
  prior_boxes self <> [] -> gts <> [] ->
  (background_id self < num_classes self + 8)%nat ->
  Forall (fun g => length (gt_classes g) = num_classes self) gts ->
  exists m,
    assign_boxes self gts =
      Ok (m, set_assigned self (map (fun g => object_priors self (gt_box g)) gts)) /\
    length m = num_priors self /\
    forall j, (j < num_priors self)%nat ->
      exists v b,
        amax (map (stored_iou self j) gts) = Ok v /\
        argmax (map (stored_iou self j) gts) = Ok b /\
        m !! j = Some
          (if fgtb v (Fin 0)
           then write_assigned (num_classes self)
                  (map (fun g => object_rows self (gt_box g)) gts)
                  (map class_columns gts) j b (background_row self)
           else background_row self).
Proof.
  intros Hne Hg Hb Hc. unfold assign_boxes.
  destruct (decide (4 + background_id (set_assigned self []) <
                    4 + num_classes (set_assigned self []) + 8)%nat) as [_|n];
    [|cbn in n; lia].
  rewrite bind_ok.
  destruct (decide (length gts = 0%nat)) as [e|_];
    [destruct gts; [congruence|discriminate]|].
  rewrite assign_each_ok by exact Hne. rewrite bind_ok. cbn beta iota.
  unfold num_priors, set_assigned.
  cbn [assigned_prior_boxes prior_boxes num_classes background_id
       overlap_threshold box_scale_factors app].
  rewrite !map_map.
  change (map (fun x => object_rows _ (gt_box x)) gts)
    with (map (fun g => object_rows self (gt_box g)) gts).
  change (map (fun x => object_priors _ (gt_box x)) gts)
    with (map (fun g => object_priors self (gt_box g)) gts).
  set (enc := map (fun g => object_rows self (gt_box g)) gts).
  set (cols := map (fun j : nat => map (fun rows : matrix => (rows !!! j) !!! 4%nat) enc) _).
  assert (Hcols : cols = map (fun j => map (stored_iou self j) gts)
                           (seq 0 (length (prior_boxes self)))).
  { unfold cols, enc. apply map_ext. intros j. rewrite map_map. reflexivity. }
  assert (Hnonempty : Forall (fun c : list fval => c <> []) cols).
  { rewrite Hcols. apply Forall_forall. intros c Hin.
    apply list_elem_of_In, in_map_iff in Hin as (j & <- & _).
    destruct gts; [congruence|discriminate]. }
  rewrite (mapM_nonempty amax cols) by (eauto || (intros; eexists; reflexivity)).
  rewrite bind_ok.
  rewrite (mapM_nonempty argmax cols) by (eauto || (intros; eexists; reflexivity)).
  rewrite bind_ok.
  rewrite (mapM_ok_map _ class_columns).
  2:{ eapply Forall_impl; [exact Hc|]. intros g Hl. cbn beta.
      unfold broadcast_row, class_columns.
      rewrite length_map, length_drop, Hl.
      destruct (decide _) as [_|n]; [reflexivity|lia]. }
  rewrite bind_ok.
  eexists. split; [reflexivity|]. split.
  { rewrite length_imap, length_replicate. reflexivity. }
  intros j Hj.
  exists (total (amax (map (stored_iou self j) gts))),
         (total (argmax (map (stored_iou self j) gts))).
  assert (Hcj : cols !! j = Some (map (stored_iou self j) gts)).
  { rewrite Hcols, list_lookup_fmap, lookup_seq_lt by exact Hj. reflexivity. }
  destruct gts as [|g0 gts]; [congruence|].
  split; [reflexivity|]. split; [reflexivity|].
  rewrite list_lookup_imap, lookup_replicate_2 by exact Hj. cbn [fmap option_fmap option_map].
  rewrite (lookup_total_map _ _ j (total (amax (map (stored_iou self j) (g0 :: gts)))))
    by (rewrite list_lookup_fmap, Hcj; reflexivity).
  rewrite (lookup_total_map _ _ j _ Hcj).
  reflexivity.
Qed.

Lemma object_rows_lookup self g (j : nat) p (m : bool) :
  prior_boxes self !! j = Some p ->
  object_mask self g !! j = Some m ->
  object_rows self g !! j =
  Some (if m then encode_row (box_scale_factors self) p g ++ [iou p g]
        else replicate 5 (Fin 0)).
Proof.
  intros Hp Hm. unfold object_rows.
  rewrite lookup_zip_with, Hm. cbn. rewrite Hp. reflexivity.
Qed.

Lemma stored_iou_eq self g (j : nat) p (m : bool) :
  prior_boxes self !! j = Some p ->
  object_mask self (gt_box g) !! j = Some m ->
  stored_iou self j g = if m then iou p (gt_box g) else Fin 0.
Proof.
  intros Hp Hm. unfold stored_iou.
  rewrite (list_lookup_total_correct _ _ _ (object_rows_lookup _ _ _ _ _ Hp Hm)).
  destruct m; reflexivity.
Qed.

Lemma threshold_mask_lookup self g (j : nat) p :
  prior_boxes self !! j = Some p ->
  threshold_mask self g !! j =
  Some (fgtb (iou p g) (Fin (overlap_threshold self))).
Proof.
  intros Hp. unfold threshold_mask, _calculate_intersection_over_unions.
  rewrite !list_lookup_fmap, Hp. reflexivity.
Qed.

(** a prior whose IoU exceeds the threshold is in the mask of the box *)
Lemma object_mask_above self g (j : nat) p :
  prior_boxes self !! j = Some p ->
  fgtb (iou p g) (Fin (overlap_threshold self)) = true ->
  object_mask self g !! j = Some true.
Proof.
  intros Hp Hgt. pose proof (threshold_mask_lookup self g j p Hp) as Ht.
  rewrite Hgt in Ht. unfold object_mask.
  destruct (existsb _ _) eqn:E; [exact Ht|].
  exfalso. assert (existsb (fun m => m) (threshold_mask self g) = true).
  { apply existsb_exists. exists true. split; [|reflexivity].
    apply list_elem_of_In, list_elem_of_lookup. eauto. }
  congruence.
Qed.

Lemma object_mask_lookup self g (j : nat) p :
  prior_boxes self !! j = Some p -> exists m, object_mask self g !! j = Some m.
Proof.
  intros Hp. apply lookup_lt_is_Some. rewrite length_object_mask.
  apply lookup_lt_Some in Hp. exact Hp.
Qed.

Lemma fleb_fin a b : fleb (Fin a) (Fin b) = true <-> a <= b.
Proof. unfold fleb, Rleb. destruct (Rle_dec a b); split; intros; auto; discriminate. Qed.

Lemma fgtb_fin a b : fgtb (Fin a) (Fin b) = true <-> b < a.
Proof. unfold fgtb, fltb, Rltb. destruct (Rlt_dec b a); split; intros; auto; discriminate. Qed.

Lemma fmaximum_fin a b : fmaximum (Fin a) (Fin b) = Fin (Rmax a b).
Proof.
  unfold fmaximum, fleb, Rleb, Rmax. destruct (Rle_dec a b); reflexivity.
Qed.

Lemma foldl_fmaximum_fin m rs :
  foldl fmaximum (Fin m) (map Fin rs) = Fin (foldl Rmax m rs).
Proof.
  revert m. induction rs as [|r rs IH]; intros m; [reflexivity|].
  cbn [foldl map]. rewrite fmaximum_fin. apply IH.
Qed.

Lemma foldl_Rmax_ge m rs :
  m <= foldl Rmax m rs /\ Forall (fun x => x <= foldl Rmax m rs) rs.
Proof.
  revert m. induction rs as [|r rs IH]; intros m; cbn.
  - split; [lra|constructor].
  - destruct (IH (Rmax m r)) as [H1 H2].
    pose proof (Rmax_l m r). pose proof (Rmax_r m r).
    split; [lra|]. constructor; [lra|exact H2].
Qed.

Lemma argmax_from_fin m best i rs :
  let b := argmax_from (Fin m) best i (map Fin rs) in
  (b = best /\ foldl Rmax m rs = m) \/
  ((i <= b)%nat /\ rs !! (b - i)%nat = Some (foldl Rmax m rs)).
Proof.
  revert m best i. induction rs as [|r rs IH]; intros m best i; cbn.
  - left. split; reflexivity.
  - unfold Rleb. destruct (Rle_dec r m) as [Hle|Hgt].
    + rewrite (Rmax_left m r) by lra.
      destruct (IH m best (S i)) as [[-> E]|[Hb E]].
      * left. split; [reflexivity|exact E].
      * right. split; [lia|].
        replace (argmax_from (Fin m) best (S i) (map Fin rs) - i)%nat
          with (S (argmax_from (Fin m) best (S i) (map Fin rs) - S i)) by lia.
        exact E.
    + rewrite (Rmax_right m r) by lra.
      destruct (IH r i (S i)) as [[-> E]|[Hb E]].
      * right. split; [lia|]. rewrite Nat.sub_diag. cbn. f_equal. auto.
      * right. split; [lia|].
        replace (argmax_from (Fin r) i (S i) (map Fin rs) - i)%nat
          with (S (argmax_from (Fin r) i (S i) (map Fin rs) - S i)) by lia.
        exact E.
Qed.

(** [amax] and [argmax] of a non-empty array of finite values: the maximum
    and an index that holds it. *)
Lemma argmax_amax_fin (rs : list R) :
  rs <> [] ->
  exists b M,
    argmax (map Fin rs) = Ok b /\ amax (map Fin rs) = Ok (Fin M) /\
    rs !! b = Some M /\ Forall (fun x => x <= M) rs.
Proof.
  destruct rs as [|r rs]; [congruence|]. intros _.
  exists (argmax_from (Fin r) 0%nat 1%nat (map Fin rs)), (foldl Rmax r rs).
  cbn [map argmax amax]. rewrite foldl_fmaximum_fin.
  destruct (foldl_Rmax_ge r rs) as [H1 H2].
  split; [reflexivity|]. split; [reflexivity|]. split.
  - destruct (argmax_from_fin r 0 1 rs) as [[-> E]|[Hb E]].
    + cbn. f_equal. auto.
    + destruct (argmax_from _ _ _ _) as [|b]; [lia|].
      replace (S b - 1)%nat with b in E by lia. exact E.
  - constructor; assumption.
Qed.

Lemma length_background_row self :
  length (background_row self) = (4 + num_classes self + 8)%nat.
Proof. unfold background_row. rewrite length_insert, length_replicate. reflexivity. Qed.

Lemma write_assigned_row C (enc : list matrix) (classes : matrix) j b bg E v cls :
  (1 <= C)%nat -> length bg = (4 + C + 8)%nat ->
  (enc !!! b) !!! j = E ++ [v] -> length E = 4%nat ->
  classes !!! b = cls -> length cls = (C - 1)%nat ->
  let row := write_assigned C enc classes j b bg in
  take 4 row = E /\ row !! 4%nat = Some (Fin 0) /\
  take (C - 1) (drop 5 row) = cls /\ row !! (4 + C)%nat = Some (Fin 1) /\
  length row = (4 + C + 8)%nat.
Proof.
  intros HC Hbg HE HlE Hcls Hlc row. subst row. unfold write_assigned.
  rewrite HE, Hcls, take_app_length' by (symmetry; exact HlE).
  unfold write_slice. destruct (decide (5 <= 4 + C)%nat) as [_|n]; [|lia].
  set (r1 := E ++ drop 4 bg).
  assert (Hl1 : length r1 = (4 + C + 8)%nat).
  { unfold r1. rewrite length_app, length_drop. lia. }
  set (r2 := <[4%nat := Fin 0]> r1).
  assert (Hl2 : length r2 = (4 + C + 8)%nat).
  { unfold r2. rewrite length_insert. exact Hl1. }
  assert (Ht2 : take 4 r2 = E).
  { unfold r2. rewrite take_insert_ge by lia. unfold r1.
    apply take_app_length'. symmetry. exact HlE. }
  assert (H42 : r2 !! 4%nat = Some (Fin 0)).
  { unfold r2. apply list_lookup_insert_eq. lia. }
  set (r3 := take 5 r2 ++ cls ++ drop (4 + C) r2).
  assert (Hl3 : length r3 = (4 + C + 8)%nat).
  { unfold r3. rewrite !length_app, length_take, length_drop. lia. }
  fold r1. fold r2. fold r3.
  repeat split.
  - rewrite take_insert_ge by lia. unfold r3.
    rewrite take_app_le by (rewrite length_take; lia).
    rewrite take_take. replace (4 `min` 5)%nat with 4%nat by lia. exact Ht2.
  - rewrite list_lookup_insert_ne by lia. unfold r3.
    rewrite lookup_app_l by (rewrite length_take; lia).
    rewrite lookup_take_lt by lia. exact H42.
  - rewrite drop_insert_ge by lia. unfold r3.
    rewrite drop_app_length' by (rewrite length_take; lia).
    replace (4 + C - 5)%nat with (length cls + 0)%nat by lia.
    rewrite insert_app_r. rewrite <- Hlc. apply take_app_length.
  - apply list_lookup_insert_eq. lia.
  - rewrite length_insert. exact Hl3.
Qed.

Lemma iou_above_valid p g thr :
  0 <= thr -> fgtb (iou p g) (Fin thr) = true -> valid_box p /\ valid_box g.
Proof.
  intros Hthr H. rewrite iou_unfold in H.
  pose proof (intersection_nonneg p g) as [Hi|Hi].
  - destruct (intersection_pos_le p g Hi) as (? & ? & _). split; assumption.
  - exfalso. rewrite <- Hi in H. unfold fdiv in H.
    destruct (Req_dec_T _ 0); [destruct (Req_dec_T 0 0); [discriminate|lra]|].
    apply fgtb_fin in H. unfold Rdiv in H. rewrite Rmult_0_l in H. lra.
Qed.

Lemma iou_valid_fin p g :
  valid_box p -> valid_box g -> exists r, iou p g = Fin r /\ 0 <= r <= 1.
Proof.
  intros Hp Hg. apply iou_range; apply valid_box_area; assumption.
Qed.

Lemma length_encode_row s p g : length (encode_row s p g) = 4%nat.
Proof. reflexivity. Qed.


(** Evaluate the minima and maxima of a goal, innermost first, then the
    comparisons of [iou]. *)
Ltac rminmax :=
  repeat match goal with
  | |- context [Rmax ?a ?b] =>
      first [rewrite (Rmax_left a b) by lra | rewrite (Rmax_right a b) by lra]
  | |- context [Rmin ?a ?b] =>
      first [rewrite (Rmin_left a b) by lra | rewrite (Rmin_right a b) by lra]
  end.

Ltac iou_eval :=
  unfold iou; cbn [x_min x_max y_min y_max]; rminmax;
  unfold fdiv, fgtb, fltb, fleb, Rltb, Rleb; rdec.


Lemma select_map_filter {A} (f : A -> bool) (l : list A) :
  select (map f l) l = List.filter f l.
Proof.
  induction l as [|a l IH]; [reflexivity|].
  cbn. destruct (f a); rewrite IH; reflexivity.
Qed.

Lemma existsb_map_filter {A} (f : A -> bool) (l : list A) :
  existsb (fun m => m) (map f l) = false <-> List.filter f l = [].
Proof.
  induction l as [|a l IH]; [cbn; tauto|].
  cbn. destruct (f a); cbn; [split; discriminate|exact IH].
Qed.

Lemma select_insert_single {A} (f : A -> bool) (l : list A) (k : nat) p :
  List.filter f l = [] -> l !! k = Some p ->
  select (<[k := true]> (map f l)) l = [p].
Proof.
  revert k. induction l as [|a l IH]; intros k Hf Hk; [discriminate|].
  cbn in Hf. destruct (f a) eqn:Efa; [discriminate|].
  destruct k as [|k]; cbn.
  - injection Hk as ->. f_equal.
    rewrite select_map_filter. exact Hf.
  - rewrite Efa. apply IH; assumption.
Qed.

Lemma threshold_mask_eq self g :
  threshold_mask self g =
  map (fun p => fgtb (iou p g) (Fin (overlap_threshold self)))
    (prior_boxes self).
Proof.
  unfold threshold_mask, _calculate_intersection_over_unions.
  apply map_map.
Qed.

Lemma argmax_bound l k : argmax l = Ok k -> (k < length l)%nat.
Proof.
  destruct l as [|x l]; [discriminate|]. intros [= <-].
  pose proof (argmax_from_bound x 0 1 l ltac:(lia)). cbn. lia.
Qed.

Lemma object_mask_fallback self g :
  prior_boxes self <> [] ->
  existsb (fun m => m) (threshold_mask self g) = false ->
  exists k,
    argmax (_calculate_intersection_over_unions self g) = Ok k /\
    object_mask self g = <[k := true]> (threshold_mask self g).
Proof.
  intros Hne E. unfold object_mask. rewrite E.
  destruct (_calculate_intersection_over_unions self g) as [|x l] eqn:Ei.
  - unfold _calculate_intersection_over_unions in Ei.
    destruct (prior_boxes self); [congruence|discriminate].
  - eexists. split; reflexivity.
Qed.

(** The prior boxes assigned to a ground-truth box: those whose
    intersection over union exceeds the threshold, or else the one at
    [argmax]. *)
Lemma object_priors_spec self g :
  prior_boxes self <> [] ->
  let above :=
    List.filter (fun p => fgtb (iou p g) (Fin (overlap_threshold self)))
      (prior_boxes self) in
  object_priors self g <> [] /\
  ((above <> [] /\ object_priors self g = above) \/
   (above = [] /\
    exists k p,
      argmax (_calculate_intersection_over_unions self g) = Ok k /\
      prior_boxes self !! k = Some p /\ object_priors self g = [p])).
Proof.
  intros Hne above. split; [apply object_priors_nonempty, Hne|].
  destruct (existsb (fun m => m) (threshold_mask self g)) eqn:E.
  - left. unfold object_priors, object_mask. rewrite E, threshold_mask_eq.
    rewrite select_map_filter. split; [|reflexivity].
    intros Ha. rewrite threshold_mask_eq in E.
    apply existsb_map_filter in Ha. congruence.
  - right. destruct (object_mask_fallback self g Hne E) as (k & Hk & Hm).
    rewrite threshold_mask_eq in E. apply existsb_map_filter in E.
    split; [exact E|].
    pose proof (argmax_bound _ _ Hk) as Hlt.
    unfold _calculate_intersection_over_unions in Hlt.
    rewrite length_map in Hlt.
    destruct (lookup_lt_is_Some_2 _ _ Hlt) as [p Hp].
    exists k, p. split; [exact Hk|]. split; [exact Hp|].
    unfold object_priors. rewrite Hm, threshold_mask_eq.
    apply (select_insert_single
             (fun p => fgtb (iou p g) (Fin (overlap_threshold self))));
      assumption.
Qed.

(** The value a box stores at a prior is its intersection over union with
    the prior when the prior is in its mask, and 0 otherwise: NaN, or a
    number of [0, 1]. *)
Lemma stored_iou_cases self (j : nat) p g :
  prior_boxes self !! j = Some p ->
  stored_iou self j g = NaN \/
  exists r, stored_iou self j g = Fin r /\ 0 <= r <= 1.
Proof.
  intros Hp. destruct (object_mask_lookup self (gt_box g) j p Hp) as [mk Hmk].
  rewrite (stored_iou_eq _ _ _ _ _ Hp Hmk). destruct mk.
  - destruct (iou_nan_or_unit p (gt_box g)) as [[_ H]|[_ H]]; auto.
  - right. exists 0. split; [reflexivity|lra].
Qed.

Lemma foldl_fmaximum_nan l : foldl fmaximum NaN l = NaN.
Proof. induction l as [|x l IH]; [reflexivity|exact IH]. Qed.

(** A maximum that is not NaN is the maximum of an array of numbers. *)
Lemma foldl_fmaximum_fin_inv (a : fval) (l : list fval) :
  Forall (fun x => x = NaN \/ exists r, x = Fin r) (a :: l) ->
  foldl fmaximum a l <> NaN ->
  exists r rs, a = Fin r /\ l = map Fin rs.
Proof.
  revert a. induction l as [|x l IH]; intros a Hall Hv.
  - apply Forall_cons_1 in Hall as [[->|[r ->]] _]; [contradiction|].
    exists r, []. split; reflexivity.
  - apply Forall_cons_1 in Hall as [Ha Hall].
    apply Forall_cons_1 in Hall as [Hx Hall].
    cbn [foldl] in Hv.
    destruct Ha as [->|[r ->]].
    { cbn in Hv. rewrite foldl_fmaximum_nan in Hv. contradiction. }
    destruct Hx as [->|[s ->]].
    { cbn in Hv. rewrite foldl_fmaximum_nan in Hv. contradiction. }
    rewrite fmaximum_fin in Hv.
    destruct (IH (Fin (Rmax r s))) as (r' & rs & _ & ->).
    { constructor; [right; eauto|exact Hall]. }
    { exact Hv. }
    exists r, (s :: rs). split; reflexivity.
Qed.

Lemma amax_fin_inv (l : list fval) v :
  Forall (fun x => x = NaN \/ exists r, x = Fin r) l ->
  amax l = Ok v -> v <> NaN -> exists rs, l = map Fin rs.
Proof.
  destruct l as [|a l]; [discriminate|]. intros Hall [= <-] Hv.
  destruct (foldl_fmaximum_fin_inv a l Hall Hv) as (r & rs & -> & ->).
  exists (r :: rs). reflexivity.
Qed.

Lemma fgtb_not_nan v w : fgtb v w = true -> v <> NaN.
Proof. intros H ->. destruct w; discriminate. Qed.

(** The row of the matrix at one prior: the match of the first
    ground-truth box with the highest stored intersection over union when
    that is positive, the background row otherwise. *)
Lemma assign_boxes_row_at self gts :
  prior_boxes self <> [] -> gts <> [] ->
  (background_id self < num_classes self)%nat ->
  Forall (fun g => length (gt_classes g) = num_classes self) gts ->
  exists m,
    assign_boxes self gts =
      Ok (m, set_assigned self
               (map (fun g => object_priors self (gt_box g)) gts)) /\
    length m = num_priors self /\
    forall (j : nat) p, prior_boxes self !! j = Some p ->
      exists v (b : nat) gb row,
        amax (map (stored_iou self j) gts) = Ok v /\
        argmax (map (stored_iou self j) gts) = Ok b /\
        gts !! b = Some gb /\ m !! j = Some row /\
        (fgtb v (Fin 0) = true ->
           stored_iou self j gb = v /\ iou p (gt_box gb) = v /\
           object_mask self (gt_box gb) !! j = Some true /\
           Forall (fun g => fleb (stored_iou self j g) v = true) gts /\
           row_assigned_to self p gb row) /\
        (fgtb v (Fin 0) = false -> row = background_row self).
Proof.
  intros Hne Hgne Hbid Hshape.
  destruct (assign_boxes_rows self gts Hne Hgne ltac:(lia) Hshape)
    as (m & Hm & Hlen & Hrows).
  exists m. split; [exact Hm|]. split; [exact Hlen|].
  intros j p Hp.
  destruct (Hrows j (lookup_lt_Some _ _ _ Hp)) as (v & b & Hv & Hb & Hrow).
  pose proof (argmax_bound _ _ Hb) as Hlt. rewrite length_map in Hlt.
  destruct (lookup_lt_is_Some_2 gts b Hlt) as [gb Hgb].
  eexists v, b, gb, _. split; [exact Hv|]. split; [exact Hb|].
  split; [exact Hgb|]. split; [exact Hrow|].
  split; intros Hpos; rewrite Hpos; [|reflexivity].
  (* the column holds numbers only *)
  destruct (amax_fin_inv (map (stored_iou self j) gts) v) as [rs Hcol].
  { apply Forall_map, Forall_forall. intros g _. cbn beta.
    destruct (stored_iou_cases self j p g Hp) as [H|(r & H & _)]; eauto. }
  { exact Hv. }
  { eapply fgtb_not_nan, Hpos. }
  destruct (argmax_amax_fin rs) as (b' & M & Hb' & HM & HbM & Hmax).
  { intros ->. destruct gts; [congruence|discriminate]. }
  rewrite Hcol, Hb' in Hb. rewrite Hcol, HM in Hv.
  injection Hb as <-. injection Hv as <-.
  assert (Hsb : stored_iou self j gb = Fin M).
  { pose proof (f_equal (fun l => l !! b') Hcol) as E. cbn beta in E.
    rewrite !list_lookup_fmap, Hgb, HbM in E. injection E as E. exact E. }
  apply fgtb_fin in Hpos.
  destruct (object_mask_lookup self (gt_box gb) j p Hp) as [mk Hmk].
  pose proof (stored_iou_eq self gb j p mk Hp Hmk) as Hs.
  rewrite Hsb in Hs.
  assert (mk = true).
  { destruct mk; [reflexivity|]. injection Hs as Hs. lra. }
  subst mk.
  destruct (write_assigned_row (num_classes self)
              (map (fun g => object_rows self (gt_box g)) gts)
              (map class_columns gts) j b' (background_row self)
              (encode_row (box_scale_factors self) p (gt_box gb))
              (iou p (gt_box gb)) (class_columns gb))
    as (Ht & H4 & Hc & _ & _).
  { lia. }
  { apply length_background_row. }
  { rewrite (lookup_total_map _ _ _ _ Hgb).
    apply list_lookup_total_correct.
    apply (object_rows_lookup _ _ _ _ true Hp Hmk). }
  { reflexivity. }
  { apply lookup_total_map, Hgb. }
  { unfold class_columns. rewrite length_map, length_drop.
    rewrite Forall_forall in Hshape.
    rewrite (Hshape gb) by (eapply list_elem_of_lookup_2; exact Hgb). reflexivity. }
  split; [exact Hsb|]. split; [symmetry; exact Hs|]. split; [exact Hmk|].
  split; [|unfold row_assigned_to; repeat split; assumption].
  apply Forall_forall. intros g Hg.
  apply list_elem_of_lookup in Hg as [i Hi].
  pose proof (f_equal (fun l => l !! i) Hcol) as E. cbn beta in E.
  rewrite !list_lookup_fmap, Hi in E. cbn in E.
  destruct (rs !! i) as [r|] eqn:Er; [|discriminate]. injection E as ->.
  apply fleb_fin. rewrite Forall_forall in Hmax. apply Hmax.
  eapply list_elem_of_lookup_2. exact Er.
Qed.

(** C1, as amended.  For a non-empty set of prior boxes and at least one
    ground-truth box, [assign_boxes] returns, and:
    - for every ground-truth box [_assign_boxes_to_object] assigns at
      least one prior box, recorded in [assigned_prior_boxes]: the prior
      boxes whose intersection over union exceeds the threshold or, when
      there is none, the single prior box at [argmax];
    - the row of the matrix at a prior box carries the match of the first
      ground-truth box with the highest intersection over union stored
      for that prior (the prior is in the set of that box) when that value
      is above 0, and is the background row otherwise;
    - so a ground-truth box has an assigned prior in the matrix whenever,
      at some prior box, it is the first box with the highest stored
      intersection over union and that value is above 0.
    (The rows have [num_classes] class columns and the background is one
    of the classes.) *)
Theorem assignment_completeness (self : manager) (gts : list gt_row) :
  prior_boxes self <> [] -> gts <> [] ->
  (background_id self < num_classes self)%nat ->
  Forall (fun g => length (gt_classes g) = num_classes self) gts ->
  exists m st,
    assign_boxes self gts = Ok (m, st) /\
    Forall2 (fun g assigned =>
      let above :=
        List.filter
          (fun p => fgtb (iou p (gt_box g)) (Fin (overlap_threshold self)))
          (prior_boxes self) in
      assigned <> [] /\
      ((above <> [] /\ assigned = above) \/
       (above = [] /\
        exists k p,
          argmax (_calculate_intersection_over_unions self (gt_box g)) = Ok k /\
          prior_boxes self !! k = Some p /\ assigned = [p])))
      gts (assigned_prior_boxes st) /\
    length m = num_priors self /\
    (forall (j : nat) p, prior_boxes self !! j = Some p ->
       exists v (b : nat) gb row,
         amax (map (stored_iou self j) gts) = Ok v /\
         argmax (map (stored_iou self j) gts) = Ok b /\
         gts !! b = Some gb /\ m !! j = Some row /\
         (fgtb v (Fin 0) = true ->
            iou p (gt_box gb) = v /\
            object_mask self (gt_box gb) !! j = Some true /\
            row_assigned_to self p gb row) /\
         (fgtb v (Fin 0) = false -> row = background_row self)) /\
    (forall (i : nat) g, gts !! i = Some g ->
       (exists (j : nat) v, (j < num_priors self)%nat /\
          amax (map (stored_iou self j) gts) = Ok v /\
          fgtb v (Fin 0) = true /\
          argmax (map (stored_iou self j) gts) = Ok i) ->
       has_assigned_prior self m g).
Proof.
  intros Hne Hg Hb Hc.
  destruct (assign_boxes_row_at self gts Hne Hg Hb Hc) as (m & Hm & Hlen & Hrows).
  eexists _, _. split; [exact Hm|].
  cbn [set_assigned assigned_prior_boxes]. split; [|split; [exact Hlen|split]].
  - apply Forall2_fmap_r, Forall_Forall2_diag, Forall_forall.
    intros g _. apply object_priors_spec, Hne.
  - intros j p Hp.
    destruct (Hrows j p Hp) as (v & b & gb & row & Hv & Hbb & Hgb & Hrow & H1 & H0).
    exists v, b, gb, row. repeat split; try assumption.
    + apply H1. assumption.
    + apply H1. assumption.
    + apply H1. assumption.
    + apply H1. assumption.
    + apply H1. assumption.
  - intros i g Hi (j & v & Hj & Hv & Hpos & Hbi).
    destruct (lookup_lt_is_Some_2 (prior_boxes self) j Hj) as [p Hp].
    destruct (Hrows j p Hp) as (v' & b & gb & row & Hv' & Hbb & Hgb & Hrow & H1 & _).
    rewrite Hv in Hv'. injection Hv' as <-.
    rewrite Hbi in Hbb. injection Hbb as <-.
    rewrite Hi in Hgb. injection Hgb as <-.
    exists j, p, row. split; [exact Hp|]. split; [exact Hrow|].
    apply H1, Hpos.
Qed.

Lemma fin_inj a b : Fin a = Fin b -> a = b.
Proof. intros [= H]. exact H. Qed.

Lemma singleton_lookup {A} (m : list A) x :
  length m = 1%nat -> m !! 0%nat = Some x -> m = [x].
Proof.
  destruct m as [|y [|z m]]; try discriminate. intros _ [= ->]. reflexivity.
Qed.

(** A ground-truth box that touches no prior box: the fallback assigns it
    the prior at [argmax], with intersection over union 0, and
    [best_iou > 0] leaves the row of that prior a background row. *)
Lemma counterexample_far :
  exists st,
    assign_boxes ex_far_manager [ex_far] =
      Ok ([background_row ex_far_manager], st) /\
    ~ has_assigned_prior ex_far_manager [background_row ex_far_manager] ex_far.
Proof.
  destruct (assign_boxes_rows ex_far_manager [ex_far])
    as (m & Hm & Hlen & Hrows); try discriminate.
  { cbn. lia. }
  { repeat constructor. }
  destruct (Hrows 0%nat ltac:(cbn; lia)) as (v & b & Hv & _ & Hrow).
  assert (Hiou : iou (Box 0 0 0.5 0.5) (Box 0.6 0.6 1 1) = Fin 0).
  { iou_eval. all: f_equal; lra. }
  assert (Hs : stored_iou ex_far_manager 0 ex_far = Fin 0).
  { destruct (object_mask_lookup ex_far_manager (gt_box ex_far) 0
                (Box 0 0 0.5 0.5) eq_refl) as [mk Hmk].
    rewrite (stored_iou_eq ex_far_manager ex_far 0 (Box 0 0 0.5 0.5) mk eq_refl Hmk).
    cbn [gt_box ex_far]. rewrite Hiou. destruct mk; reflexivity. }
  cbn [map amax foldl] in Hv. rewrite Hs in Hv. injection Hv as <-.
  replace (fgtb (Fin 0) (Fin 0)) with false in Hrow
    by (symmetry; unfold fgtb, fltb, Rltb; rdec; reflexivity).
  rewrite (singleton_lookup m _ Hlen Hrow) in Hm.
  eexists. split; [exact Hm|].
  intros (j & p & row & _ & Hj & H4 & _).
  destruct j as [|j]; [|discriminate]. injection Hj as <-.
  cbn in H4. injection H4 as H4. lra.
Qed.

(** Two ground-truth boxes that exceed the threshold for the only prior
    box: the row of the prior carries the first, the second has no row. *)
Lemma counterexample_conflict :
  exists m st,
    assign_boxes ex_manager ex_conflict = Ok (m, st) /\
    ~ has_assigned_prior ex_manager m (GtRow (Box 0 0 1 0.8) [0; 1]).
Proof.
  destruct (assign_boxes_rows ex_manager ex_conflict)
    as (m & Hm & Hlen & Hrows); try discriminate.
  { cbn. lia. }
  { repeat constructor. }
  destruct (Hrows 0%nat ltac:(cbn; lia)) as (v & b & Hv & Hb & Hrow).
  assert (Hi1 : iou (Box 0 0 1 1) (Box 0 0 1 1) = Fin 1).
  { iou_eval. all: f_equal; lra. }
  assert (Hi2 : iou (Box 0 0 1 1) (Box 0 0 1 0.8) = Fin 0.8).
  { iou_eval. all: f_equal; lra. }
  assert (Hs1 : stored_iou ex_manager 0 (GtRow (Box 0 0 1 1) [0; 1]) = Fin 1).
  { rewrite (stored_iou_eq ex_manager _ 0 (Box 0 0 1 1) true eq_refl).
    - exact Hi1.
    - apply (object_mask_above ex_manager _ 0 (Box 0 0 1 1) eq_refl).
      cbn [gt_box overlap_threshold ex_manager]. rewrite Hi1.
      apply fgtb_fin. lra. }
  assert (Hs2 : stored_iou ex_manager 0 (GtRow (Box 0 0 1 0.8) [0; 1]) = Fin 0.8).
  { rewrite (stored_iou_eq ex_manager _ 0 (Box 0 0 1 1) true eq_refl).
    - exact Hi2.
    - apply (object_mask_above ex_manager _ 0 (Box 0 0 1 1) eq_refl).
      cbn [gt_box overlap_threshold ex_manager]. rewrite Hi2.
      apply fgtb_fin. lra. }
  unfold ex_conflict in Hv, Hb. cbn [map] in Hv, Hb.
  rewrite Hs1, Hs2 in Hv, Hb.
  cbn [amax foldl] in Hv. rewrite fmaximum_fin in Hv. injection Hv as <-.
  cbn [argmax argmax_from is_nan] in Hb.
  replace (fleb (Fin 0.8) (Fin 1)) with true in Hb
    by (symmetry; apply fleb_fin; lra).
  injection Hb as <-.
  replace (fgtb (Fin (Rmax 1 0.8)) (Fin 0)) with true in Hrow
    by (symmetry; apply fgtb_fin; rewrite Rmax_left; lra).
  destruct (write_assigned_row (num_classes ex_manager)
              (map (fun g => object_rows ex_manager (gt_box g)) ex_conflict)
              (map class_columns ex_conflict) 0 0 (background_row ex_manager)
              (encode_row (box_scale_factors ex_manager) (Box 0 0 1 1)
                 (Box 0 0 1 1))
              (iou (Box 0 0 1 1) (Box 0 0 1 1))
              (class_columns (GtRow (Box 0 0 1 1) [0; 1])))
    as (Ht & _); try reflexivity.
  { cbn. lia. }
  { apply list_lookup_total_correct.
    cbn [map ex_conflict lookup_total list_lookup_total gt_box].
    apply (object_rows_lookup ex_manager _ 0 (Box 0 0 1 1) true eq_refl).
    apply (object_mask_above ex_manager _ 0 (Box 0 0 1 1) eq_refl).
    cbn [overlap_threshold ex_manager]. rewrite Hi1. apply fgtb_fin. lra. }
  eexists m, _. split; [exact Hm|].
  intros (j & p & row & Hp & Hj & _ & Ht' & _).
  destruct j as [|j]; [|discriminate]. injection Hp as <-.
  rewrite Hrow in Hj. injection Hj as <-.
  pose proof (eq_trans (eq_sym Ht) Ht') as Heq. clear Ht Ht'.
  rename Heq into Ht'. unfold encode_row in Ht'.
  cbn [x_min x_max y_min y_max gt_box box_scale_factors ex_manager
       scale_center_x scale_center_y scale_width scale_height] in Ht'.
  injection Ht' as Hy _.
  destruct (Req_dec_T ((1 - 0) * 1) 0); [lra|]. apply fin_inj in Hy.
  apply (Rmult_eq_compat_r ((1 - 0) * 1)) in Hy.
  unfold Rdiv in Hy. rewrite !Rmult_assoc, Rinv_l in Hy by lra. lra.
Qed.



Lemma assignment_completeness_witness :
  exists m st,
    assign_boxes ex_manager ex_conflict = Ok (m, st) /\
    Forall2 (fun g assigned =>
      let above :=
        List.filter
          (fun p => fgtb (iou p (gt_box g))
                      (Fin (overlap_threshold ex_manager)))
          (prior_boxes ex_manager) in
      assigned <> [] /\
      ((above <> [] /\ assigned = above) \/
       (above = [] /\
        exists k p,
          argmax (_calculate_intersection_over_unions ex_manager
                    (gt_box g)) = Ok k /\
          prior_boxes ex_manager !! k = Some p /\ assigned = [p])))
      ex_conflict (assigned_prior_boxes st) /\
    length m = num_priors ex_manager /\
    (forall (j : nat) p, prior_boxes ex_manager !! j = Some p ->
       exists v (b : nat) gb row,
         amax (map (stored_iou ex_manager j) ex_conflict) = Ok v /\
         argmax (map (stored_iou ex_manager j) ex_conflict) = Ok b /\
         ex_conflict !! b = Some gb /\ m !! j = Some row /\
         (fgtb v (Fin 0) = true ->
            iou p (gt_box gb) = v /\
            object_mask ex_manager (gt_box gb) !! j = Some true /\
            row_assigned_to ex_manager p gb row) /\
         (fgtb v (Fin 0) = false -> row = background_row ex_manager)) /\
    (forall (i : nat) g, ex_conflict !! i = Some g ->
       (exists (j : nat) v, (j < num_priors ex_manager)%nat /\
          amax (map (stored_iou ex_manager j) ex_conflict) = Ok v /\
          fgtb v (Fin 0) = true /\
          argmax (map (stored_iou ex_manager j) ex_conflict) = Ok i) ->
       has_assigned_prior ex_manager m g).
Proof.
  apply (assignment_completeness ex_manager ex_conflict).
  - discriminate.
  - discriminate.
  - cbn. lia.
  - constructor; [reflexivity|]. constructor; [reflexivity|constructor].
Defined.

(** C6.  For an empty ground-truth array [assign_boxes] returns a matrix
    of [num_priors] rows of [4 + num_classes + 8] columns, and in every
    row the column of the background class is 1 and every other column
    (encoded delta, other classes, auxiliary columns) is 0.  (The
    background is one of the classes.) *)
Theorem background_default (self : manager) :
  (background_id self < num_classes self)%nat ->
  exists m,
    assign_boxes self [] = Ok (m, set_assigned self []) /\
    length m = num_priors self /\
    Forall (fun row : list fval =>
      length row = (4 + num_classes self + 8)%nat /\
      row !! (4 + background_id self)%nat = Some (Fin 1) /\
      forall k : nat, (k < 4 + num_classes self + 8)%nat ->
        k <> (4 + background_id self)%nat -> row !! k = Some (Fin 0)) m.
Proof.
  intros Hb. exists (replicate (num_priors self) (background_row self)).
  split; [|split].
  - unfold assign_boxes.
    destruct (decide (4 + background_id (set_assigned self []) <
                      4 + num_classes (set_assigned self []) + 8)%nat)
      as [_|n]; [|cbn in n; lia].
    reflexivity.
  - apply length_replicate.
  - apply Forall_replicate. unfold background_row. split; [|split].
    + rewrite length_insert, length_replicate. reflexivity.
    + apply list_lookup_insert_eq. rewrite length_replicate. lia.
    + intros k Hk Hne. rewrite list_lookup_insert_ne by congruence.
      apply lookup_replicate_2, Hk.
Qed.

Lemma background_default_witness :
  exists m,
    assign_boxes (init_defaults [Box 0 0 1 1; Box 0 0 0.5 0.5]) [] =
      Ok (m, set_assigned (init_defaults [Box 0 0 1 1; Box 0 0 0.5 0.5]) []) /\
    length m = num_priors (init_defaults [Box 0 0 1 1; Box 0 0 0.5 0.5]) /\
    Forall (fun row : list fval =>
      length row = (4 + 21 + 8)%nat /\
      row !! (4 + 0)%nat = Some (Fin 1) /\
      forall k : nat, (k < 4 + 21 + 8)%nat ->
        k <> (4 + 0)%nat -> row !! k = Some (Fin 0)) m.
Proof.
  apply (background_default (init_defaults [Box 0 0 1 1; Box 0 0 0.5 0.5])).
  cbn. lia.
Defined.

(** C1 as stated fails: [assign_boxes] returns a matrix in which a
    ground-truth box has no assigned prior, when the box touches no prior
    box and when another box wins its only prior. *)
Lemma assignment_completeness_counterexample :
  (prior_boxes ex_far_manager <> [] /\
   exists m st,
     assign_boxes ex_far_manager [ex_far] = Ok (m, st) /\
     ex_far ∈ [ex_far] /\
     ~ has_assigned_prior ex_far_manager m ex_far) /\
  (prior_boxes ex_manager <> [] /\
   exists m st,
     assign_boxes ex_manager ex_conflict = Ok (m, st) /\
     GtRow (Box 0 0 1 0.8) [0; 1] ∈ ex_conflict /\
     ~ has_assigned_prior ex_manager m (GtRow (Box 0 0 1 0.8) [0; 1])).
Proof.
  split; (split; [discriminate|]).
  - destruct counterexample_far as (st & H1 & H2).
    eexists _, st. split; [exact H1|]. split; [apply list_elem_of_here|exact H2].
  - destruct counterexample_conflict as (m & st & H1 & H2).
    exists m, st. split; [exact H1|]. split; [|exact H2].
    apply list_elem_of_further, list_elem_of_here.
Qed.

(** ** Sample selection *)

Lemma mapM_lookup {A} (l : list A) (idx : list nat) (e : exn) :
  Forall (fun i => (i < length l)%nat) idx ->
  exists rows,
    mapM (fun i : nat => match l !! i with
                         | Some row => Ok row
                         | None => Raise e
                         end) idx = Ok rows /\
    length rows = length idx /\ Forall (fun row => row ∈ l) rows.
Proof.
  induction 1 as [|i idx Hi _ (rows & IH & Hlen & Hin)].
  - exists []. repeat split; constructor.
  - destruct (lookup_lt_is_Some_2 _ _ Hi) as [x Hx].
    exists (x :: rows). cbn [mapM]. rewrite Hx, bind_ok, IH, bind_ok.
    split; [reflexivity|]. split; [cbn; lia|].
    constructor; [eapply list_elem_of_lookup_2; exact Hx|exact Hin].
Qed.

(** C7.  For every assignment matrix (rows of more than four columns),
    every ratio [r] and every permutation that [np.random.permutation]
    can return, [_select_samples] returns all the foreground rows (column
    4 is not 1) and at most [r] times their number of background rows. *)
Theorem negative_sample_cap (self : generator) (permutation : list nat)
    (assigned_data : matrix) :
  Forall (fun row : list fval => (4 < length row)%nat) assigned_data ->
  Permutation permutation
    (seq 0 (length (List.filter (fun row => negb (is_object row))
                      assigned_data))) ->
  exists object_data background_data,
    _select_samples self permutation assigned_data
      = Ok (object_data, background_data) /\
    object_data = List.filter is_object assigned_data /\
    (length background_data
       <= negative_positive_ratio self * length object_data)%nat /\
    Forall (fun row => row ∈ assigned_data /\ is_object row = false)
      background_data.
Proof.
  intros Hshape Hperm. unfold _select_samples.
  rewrite (mapM_ok_map _ is_object).
  2:{ eapply Forall_impl; [exact Hshape|]. intros row Hl. cbn beta.
      destruct (lookup_lt_is_Some_2 row 4 Hl) as [v Hv]. rewrite Hv.
      unfold is_object. rewrite (list_lookup_total_correct _ _ _ Hv).
      reflexivity. }
  rewrite bind_ok, map_map, !select_map_filter.
  set (bg := List.filter (fun x => negb (is_object x)) assigned_data) in *.
  set (n := (negative_positive_ratio self *
             length (List.filter is_object assigned_data))%nat).
  destruct (mapM_lookup bg (take n permutation) ValueError)
    as (rows & Hrows & Hlen & Hin).
  { apply Forall_take. apply Forall_forall. intros i Hi.
    apply (elem_of_Permutation_proper _ _ _ Hperm) in Hi.
    apply list_elem_of_In, in_seq in Hi. lia. }
  rewrite Hrows, bind_ok. exists (List.filter is_object assigned_data), rows.
  split; [reflexivity|]. split; [reflexivity|]. split.
  - rewrite Hlen, length_take. fold n. lia.
  - eapply Forall_impl; [exact Hin|]. intros row Hr. cbn beta in Hr.
    apply list_elem_of_In, filter_In in Hr as [H1 H2].
    split; [apply list_elem_of_In, H1|].
    destruct (is_object row); [discriminate|reflexivity].
Qed.

Lemma negative_sample_cap_witness :
  exists object_data background_data,
    _select_samples (ex_generator 2) [2; 0; 1]%nat ex_assigned
      = Ok (object_data, background_data) /\
    object_data = List.filter is_object ex_assigned /\
    (length background_data
       <= negative_positive_ratio (ex_generator 2) * length object_data)%nat /\
    Forall (fun row => row ∈ ex_assigned /\ is_object row = false)
      background_data.
Proof.
  assert (H1 : is_object (replicate 4 (Fin 0) ++ [Fin 1; Fin 0]) = false).
  { unfold is_object. cbn. unfold Reqb. rdec; try reflexivity. }
  assert (H0 : is_object (replicate 4 (Fin 0) ++ [Fin 0; Fin 1]) = true).
  { unfold is_object. cbn. unfold Reqb. rdec; try reflexivity. }
  apply (negative_sample_cap (ex_generator 2) [2; 0; 1]%nat ex_assigned).
  - repeat constructor; cbn; lia.
  - unfold ex_assigned. cbn [List.filter]. rewrite H0, !H1. cbn.
    apply (Permutation_cons_append [0;1]%nat 2%nat).
Defined.

Lemma truthy_nonzero v : v <> 0 -> truthy v = true.
Proof. intros H. unfold truthy, Reqb. destruct (Req_dec_T v 0); [contradiction|reflexivity]. Qed.

Lemma truthy_zero : truthy 0 = false.
Proof. unfold truthy, Reqb. destruct (Req_dec_T 0 0); [reflexivity|lra]. Qed.

(** Without the attribute [brightness_var], a list of jitters that holds
    [saturation] raises [AttributeError]: [saturation] and [brightness]
    read the attribute, and [contrast] raises nothing else. *)
Lemma apply_jitters_raise self js u i image_array :
  brightness_var self = None ->
  Saturation ∈ js ->
  apply_jitters self js u i image_array = Raise AttributeError.
Proof.
  intros Hb. revert i image_array.
  induction js as [|j js IH]; intros i image_array Hin.
  - apply elem_of_nil in Hin. contradiction.
  - cbn [apply_jitters]. destruct j; cbn [apply_jitter].
    + unfold saturation. rewrite Hb. reflexivity.
    + unfold brightness. rewrite Hb. reflexivity.
    + apply elem_of_cons in Hin as [Hin|Hin]; [discriminate|].
      unfold contrast. destruct (contrast_var self); [|reflexivity].
      cbn [getattr]. rewrite !bind_ok. apply IH, Hin.
Qed.

(** ** Colour jitter *)

Section Transform.

Variable lighting_core : R -> R * R * R -> image -> option image.

(** C9.  A generator constructed with a non-zero [saturation_var] and
    [brightness_var] 0 has no attribute [brightness_var], and [saturation]
    is in its [color_jitter]: whatever the order [shuffle] leaves and
    whatever the image, [transform] raises [AttributeError]. *)
Theorem saturation_needs_brightness_var
    (ground_truth_data : gmap string loc) (box_manager : manager)
    (batch_size : nat) (image_size : nat * nat)
    (train_keys validation_keys : list string) (path_prefix suffix : string)
    (negative_positive_ratio : nat)
    (saturation_var contrast_var lighting_std
       horizontal_flip_probability vertical_flip_probability : R)
    (d : transform_draws) (image_array : image) (box_corners : loc)
    (h : heap) :
  saturation_var <> 0 ->
  Permutation (shuffled d)
    (color_jitter
       (init ground_truth_data box_manager batch_size image_size train_keys
          validation_keys path_prefix suffix negative_positive_ratio
          saturation_var 0 contrast_var lighting_std
          horizontal_flip_probability vertical_flip_probability)) ->
  transform lighting_core
    (init ground_truth_data box_manager batch_size image_size train_keys
       validation_keys path_prefix suffix negative_positive_ratio
       saturation_var 0 contrast_var lighting_std
       horizontal_flip_probability vertical_flip_probability)
    d image_array box_corners h
  = Raise AttributeError.
Proof.
  intros Hs Hperm. unfold transform.
  rewrite apply_jitters_raise; [reflexivity| |].
  - cbn. rewrite truthy_zero. reflexivity.
  - cbn [set_color_jitter color_jitter].
    apply (elem_of_Permutation_proper _ _ _ Hperm).
    cbn [init color_jitter]. rewrite (truthy_nonzero _ Hs).
    apply list_elem_of_here.
Qed.

End Transform.

Lemma saturation_needs_brightness_var_witness :
  transform (fun _ _ im => Some im)
    (init ∅ (init_defaults []) 1 (1, 1)%nat [] [] "" "" 1 0.5 0 0.5 0.5 0.5 0.5)
    (TransformDraws [Contrast; Saturation] (fun _ => 0.25) (0, 0, 0) 0.75 0.75)
    [[Pixel 10 20 30]] 0%nat ∅
  = Raise AttributeError.
Proof.
  apply (saturation_needs_brightness_var (fun _ _ im => Some im)
           ∅ (init_defaults []) 1 (1, 1)%nat [] [] "" "" 1 0.5 0.5 0.5 0.5 0.5
           (TransformDraws [Contrast; Saturation] (fun _ => 0.25) (0, 0, 0)
              0.75 0.75)
           [[Pixel 10 20 30]] 0%nat ∅).
  - lra.
  - cbn [init color_jitter shuffled].
    rewrite !truthy_nonzero by lra. rewrite truthy_zero. cbn [app].
    apply perm_swap.
Defined.

(** ** The box arrays in the heap *)

Lemma bind_ok_inv {A B} (m : result A) (k : A -> result B) b :
  m ≫= k = Ok b -> exists a, m = Ok a /\ k a = Ok b.
Proof. destruct m as [a|e]; [|discriminate]. intros H. exists a. split; [reflexivity|exact H]. Qed.

Lemma alter_same (f : list gt_row -> list gt_row) (l : loc) (h : heap) :
  (forall x, f x = x) -> alter f l h = h.
Proof. intros Hf. apply alter_id. intros x _. apply Hf. Qed.

Lemma fneqb_same r : fneqb (Fin r) (Fin r) = false.
Proof. unfold fneqb, Reqb. destruct (Req_dec_T r r); [reflexivity|congruence]. Qed.

Lemma fneqb_fin a b : a <> b -> fneqb (Fin a) (Fin b) = true.
Proof. intros H. unfold fneqb, Reqb. destruct (Req_dec_T a b); [contradiction|reflexivity]. Qed.

Lemma Rtrunc_0 x : x = 0 -> Rtrunc x = 0%Z.
Proof.
  intros ->. unfold Rtrunc. destruct (Rle_dec 0 0); [|lra]. apply (ZfloorZ 0).
Qed.

(** A row of at least four columns, its first four columns apart. *)
Lemma row_split (row : list fval) :
  (4 <= length row)%nat ->
  exists a b c d rest, row = a :: b :: c :: d :: rest.
Proof.
  destruct row as [|a [|b [|c [|d rest]]]]; cbn; try lia. eauto 6.
Qed.

Lemma denormalize_row_cons H W a b c d rest :
  denormalize_row H W (a :: b :: c :: d :: rest) =
  fmul a (Fin (INR W)) :: fmul b (Fin (INR H)) ::
  fmul c (Fin (INR W)) :: fmul d (Fin (INR H)) :: rest.
Proof. reflexivity. Qed.

Lemma denormalize_ok (m : matrix) H W :
  Forall (fun row : list fval => (4 <= length row)%nat) m ->
  _denormalize_box m (H, W) = Ok (map (denormalize_row H W) m).
Proof.
  intros Hm. unfold _denormalize_box.
  replace (forallb _ m) with true; [reflexivity|].
  symmetry. apply forallb_forall. intros row Hin.
  rewrite Forall_forall in Hm. apply bool_decide_eq_true.
  apply Hm, list_elem_of_In, Hin.
Qed.

(** The crop of a row whose four box columns are 0 is empty. *)
Lemma crop_zero_row (im : image) x0 x1 x2 x3 rest :
  x0 = 0 -> x1 = 0 -> x2 = 0 -> x3 = 0 ->
  _crop_bounding_box im (Fin x0 :: Fin x1 :: Fin x2 :: Fin x3 :: rest) = Ok [].
Proof.
  intros H0 H1 H2 H3. unfold _crop_bounding_box.
  cbn [lookup list_lookup mbind result_bind py_int].
  rewrite !Rtrunc_0 by assumption. reflexivity.
Qed.

(** Sample selection and cropping on a matrix of background rows: no
    foreground row, so no background row is taken, and there is no crop. *)
Lemma crop_all_background resize_image self permutation im (m : matrix) :
  Forall (fun row : list fval => row !! 4%nat = Some (Fin 1)) m ->
  _crop_bounding_boxes resize_image self permutation im m = Ok ([], []).
Proof.
  intros Hm. unfold _crop_bounding_boxes, _select_samples.
  rewrite (mapM_ok_map _ (fun _ => false)).
  2:{ eapply Forall_impl; [exact Hm|]. intros row ->. cbn beta iota.
      rewrite fneqb_same. reflexivity. }
  rewrite bind_ok.
  assert (Hsel : forall (l : matrix), select (map (fun _ => false) l) l = []).
  { induction l as [|x l IH]; [reflexivity|exact IH]. }
  rewrite Hsel. cbn [length]. rewrite Nat.mul_0_r, take_0.
  reflexivity.
Qed.

(** A ground-truth box that overlaps no prior box leaves every row a
    background row. *)
Lemma assign_boxes_no_overlap self g :
  prior_boxes self <> [] ->
  (background_id self < num_classes self)%nat ->
  length (gt_classes g) = num_classes self ->
  Forall (fun p => iou p (gt_box g) = Fin 0) (prior_boxes self) ->
  assign_boxes self [g] =
  Ok (replicate (num_priors self) (background_row self),
      set_assigned self [object_priors self (gt_box g)]).
Proof.
  intros Hne Hb Hc Hiou.
  destruct (assign_boxes_rows self [g] Hne ltac:(discriminate) ltac:(lia)
              ltac:(repeat constructor; exact Hc))
    as (m & Hm & Hlen & Hrows).
  rewrite Hm. f_equal. f_equal.
  apply list_eq. intros j.
  destruct (decide (j < num_priors self)%nat) as [Hj|Hj].
  - rewrite lookup_replicate_2 by exact Hj.
    destruct (Hrows j Hj) as (v & b & Hv & _ & ->).
    destruct (lookup_lt_is_Some_2 (prior_boxes self) j Hj) as [p Hp].
    destruct (object_mask_lookup self (gt_box g) j p Hp) as [mk Hmk].
    cbn [map amax foldl] in Hv.
    rewrite (stored_iou_eq self g j p mk Hp Hmk) in Hv.
    rewrite Forall_forall in Hiou.
    rewrite (Hiou p) in Hv by (eapply list_elem_of_lookup_2; exact Hp).
    assert (v = Fin 0) by (destruct mk; congruence). subst v.
    replace (fgtb (Fin 0) (Fin 0)) with false; [reflexivity|].
    symmetry. unfold fgtb, fltb, Rltb. destruct (Rlt_dec 0 0); [lra|reflexivity].
  - rewrite !(proj2 (lookup_ge_None _ _)); [reflexivity| |].
    + rewrite length_replicate. lia.
    + rewrite Hlen. lia.
Qed.

Lemma background_row_flag self :
  background_id self = 0%nat -> background_row self !! 4%nat = Some (Fin 1).
Proof.
  intros E. unfold background_row. rewrite E.
  apply list_lookup_insert_eq. rewrite length_replicate. lia.
Qed.

Lemma denormalize_row_flag H W row :
  (4 <= length row)%nat -> denormalize_row H W row !! 4%nat = row !! 4%nat.
Proof.
  intros Hl. destruct (row_split row Hl) as (a & b & c & d & rest & ->).
  reflexivity.
Qed.

(** ** Flips and the stored ground truth *)

Section Flow.

Variable read_image : string -> result image.
Variable resize_image : image -> nat * nat -> image.
Variable preprocess_images : list image -> list image.
Variable lighting_core : R -> R * R * R -> image -> option image.

Lemma transform_heap self d image_array l h image' l' h' self' :
  transform lighting_core self d image_array l h = Ok (image', l', h', self') ->
  l' = l /\
  h' = alter (flip_boxes (horizontal_flip_probability self)
                (vertical_flip_probability self) d) l h /\
  same_config self self'.
Proof.
  unfold transform. intros H.
  apply bind_ok_inv in H as (im & _ & H).
  apply bind_ok_inv in H as (im0 & _ & H).
  cbn [set_color_jitter lighting_std horizontal_flip_probability
       vertical_flip_probability] in H.
  unfold horizontal_flip, vertical_flip, flip_boxes, flip_fires in *.
  cbn [set_color_jitter lighting_std horizontal_flip_probability
       vertical_flip_probability] in H.
  destruct (Rltb 0 (horizontal_flip_probability self));
    destruct (Rltb (hflip_u d) (horizontal_flip_probability self));
    destruct (Rltb 0 (vertical_flip_probability self));
    destruct (Rltb (vflip_u d) (vertical_flip_probability self));
    cbn [andb] in *; injection H as <- <- <- <-;
    (split; [reflexivity|split; [|repeat split; reflexivity]]);
    first [ reflexivity
          | exact (alter_alter_eq (map flip_row_y) (map flip_row_x) h l)
          | symmetry; apply alter_same; reflexivity ].
Qed.

Lemma same_config_refl self : same_config self self.
Proof. repeat split. Qed.

Lemma same_config_trans a b c :
  same_config a b -> same_config b c -> same_config a c.
Proof.
  intros (H1 & H2 & H3) (H4 & H5 & H6). repeat split; congruence.
Qed.

Lemma flow_key_heap self m d key h images classes h' self' :
  flow_key read_image resize_image lighting_core self m d key h
    = Ok (images, classes, h', self') ->
  h' = key_effect (ground_truth_data self)
         (horizontal_flip_probability self) (vertical_flip_probability self)
         m (kd_transform d) key h /\
  same_config self self'.
Proof.
  unfold flow_key. intros H.
  apply bind_ok_inv in H as (im & _ & H).
  apply bind_ok_inv in H as (l & Hl & H).
  apply bind_ok_inv in H as ([[[im' l'] h1] self1] & Ht & H).
  apply bind_ok_inv in H as ([assigned mgr] & _ & H).
  apply bind_ok_inv in H as (den & _ & H).
  apply bind_ok_inv in H as ([imgs cls] & _ & H).
  injection H as <- <- <- <-.
  unfold key_effect.
  destruct (ground_truth_data self !! key) as [l0|]; [|discriminate].
  injection Hl as ->.
  destruct m.
  - apply transform_heap in Ht as (_ & -> & Hc). split; [reflexivity|].
    destruct Hc as (? & ? & ?). repeat split; assumption.
  - injection Ht as <- <- <- <-. split; [reflexivity|]. repeat split.
  - apply transform_heap in Ht as (_ & -> & Hc). split; [reflexivity|].
    destruct Hc as (? & ? & ?). repeat split; assumption.
Qed.

Lemma flow_keys_heap self m d i keys inputs targets h batches h' self' :
  flow_keys read_image resize_image preprocess_images lighting_core
    self m d i keys inputs targets h = Ok (batches, h', self') ->
  h' = keys_effect (ground_truth_data self)
         (horizontal_flip_probability self) (vertical_flip_probability self)
         m d i keys h /\
  same_config self self'.
Proof.
  revert self i inputs targets h batches.
  induction keys as [|key keys IH]; intros self i inputs targets h batches H.
  - injection H as <- <- <-. split; [reflexivity|apply same_config_refl].
  - cbn [flow_keys keys_effect] in *.
    apply bind_ok_inv in H as ([[[imgs cls] h1] self1] & Hk & H).
    apply flow_key_heap in Hk as (-> & Hc).
    destruct (decide _) as [_|_].
    + apply bind_ok_inv in H as ([inp tgt] & _ & H).
      apply bind_ok_inv in H as ([[rest h2] self2] & Hr & H).
      injection H as <- <- <-.
      apply IH in Hr as (-> & Hc').
      pose proof Hc as (E1 & E2 & E3). rewrite E1, E2, E3.
      split; [reflexivity|]. eapply same_config_trans; eassumption.
    + apply IH in H as (-> & Hc').
      pose proof Hc as (E1 & E2 & E3). rewrite E1, E2, E3.
      split; [reflexivity|]. eapply same_config_trans; eassumption.
Qed.

Lemma flow_heap self m passes h batches h' self' :
  flow read_image resize_image preprocess_images lighting_core
    self m passes h = Ok (batches, h', self') ->
  h' = passes_effect (ground_truth_data self)
         (horizontal_flip_probability self) (vertical_flip_probability self)
         m passes h /\
  same_config self self'.
Proof.
  revert self h batches.
  induction passes as [|d passes IH]; intros self h batches H.
  - injection H as <- <- <-. split; [reflexivity|apply same_config_refl].
  - cbn [flow passes_effect] in *.
    destruct (_mangage_keys self m d) as [keys self0] eqn:Ek.
    assert (Hk : keys = shuffled_keys d /\ same_config self self0).
    { unfold _mangage_keys in Ek. destruct m; injection Ek as <- <-;
        (split; [reflexivity|repeat split]). }
    destruct Hk as [-> Hc0].
    apply bind_ok_inv in H as ([[bs h1] self1] & Hk & H).
    apply bind_ok_inv in H as ([[rest h2] self2] & Hr & H).
    injection H as <- <- <-.
    apply flow_keys_heap in Hk as (-> & Hc1).
    apply IH in Hr as (-> & Hc2).
    pose proof (same_config_trans _ _ _ Hc0 Hc1) as (E1 & E2 & E3).
    destruct Hc0 as (F1 & F2 & F3).
    rewrite E1, E2, E3, F1, F2, F3. split; [reflexivity|].
    eapply same_config_trans; [|exact Hc2].
    repeat split; congruence.
Qed.

(** [transform] when no colour jitter and no lighting noise is enabled. *)
Lemma transform_flips_only self d im l h :
  shuffled d = [] -> lighting_std self = 0 ->
  exists im',
    transform lighting_core self d im l h =
    Ok (im', l,
        alter (flip_boxes (horizontal_flip_probability self)
                 (vertical_flip_probability self) d) l h,
        set_color_jitter self []).
Proof.
  intros Hs Hl.
  destruct (transform lighting_core self d im l h)
    as [[[[im' l'] h'] self']|e] eqn:E.
  - pose proof (transform_heap _ _ _ _ _ _ _ _ _ E) as (-> & -> & _).
    exists im'. f_equal. f_equal.
    unfold transform in E. rewrite Hs in E.
    cbn [set_color_jitter color_jitter apply_jitters mbind result_bind
         lighting_std] in E.
    rewrite Hl, truthy_zero in E. cbn [mbind result_bind] in E.
    repeat match type of E with
    | context [if ?c then _ else _] => destruct c
    end; unfold horizontal_flip, vertical_flip in E;
    repeat match type of E with
    | context [if ?c then _ else _] => destruct c
    end; injection E; intros; subst; reflexivity.
  - exfalso. unfold transform in E. rewrite Hs in E.
    cbn [set_color_jitter color_jitter apply_jitters mbind result_bind
         lighting_std] in E.
    rewrite Hl, truthy_zero in E. cbn [mbind result_bind] in E.
    repeat match type of E with
    | context [if ?c then _ else _] => destruct c
    end; unfold horizontal_flip, vertical_flip in E;
    repeat match type of E with
    | context [if ?c then _ else _] => destruct c
    end; discriminate.
Qed.


End Flow.





(** ** Denormalization and crops *)

(** The encoded delta of a box against itself is zero. *)
Lemma encode_row_self s d :
  nonzero_scales s -> valid_box d -> encode_row s d d = replicate 4 (Fin 0).
Proof.
  intros (Hsx & Hsy & Hsw & Hsh) [Hx Hy]. unfold encode_row.
  rewrite !fdiv_fin
    by (try apply Rmult_integral_contrapositive_currified; lra).
  rewrite !flog_fin by (apply Rdiv_lt_0_compat; lra).
  rewrite !fdiv_fin by assumption.
  assert (Hl : forall w, 0 < w -> ln (w / w) = 0).
  { intros w Hw. replace (w / w) with 1 by (field; lra). apply ln_1. }
  rewrite !Hl by lra. cbn [replicate].
  unfold Rdiv. rewrite !Rminus_diag, !Rmult_0_l. reflexivity.
Qed.

Lemma INR_4 : INR 4 = 4.
Proof. cbn. lra. Qed.

Lemma ex_crop_assign :
  exists rest,
    assign_boxes ex_crop_manager [ex_crop_row] =
      Ok ([replicate 4 (Fin 0) ++ Fin 0 :: rest],
          set_assigned ex_crop_manager
            [object_priors ex_crop_manager ex_crop_box]) /\
    row_assigned_to ex_crop_manager ex_crop_box ex_crop_row
      (replicate 4 (Fin 0) ++ Fin 0 :: rest).
Proof.
  destruct (assign_boxes_rows ex_crop_manager [ex_crop_row])
    as (m & Hm & Hlen & Hrows); try discriminate.
  { cbn. lia. }
  { repeat constructor. }
  destruct (Hrows 0%nat ltac:(cbn; lia)) as (v & b & Hv & Hb & Hrow).
  assert (Hv' : valid_box ex_crop_box) by (split; cbn; lra).
  assert (Hi : iou ex_crop_box ex_crop_box = Fin 1) by (apply iou_self, Hv').
  assert (Hmask : object_mask ex_crop_manager ex_crop_box !! 0%nat = Some true).
  { apply (object_mask_above ex_crop_manager _ 0 ex_crop_box eq_refl).
    rewrite Hi. apply fgtb_fin. cbn. lra. }
  assert (Hs : stored_iou ex_crop_manager 0 ex_crop_row = Fin 1).
  { rewrite (stored_iou_eq ex_crop_manager ex_crop_row 0 ex_crop_box true
               eq_refl Hmask). exact Hi. }
  cbn [map amax argmax argmax_from foldl] in Hv, Hb.
  rewrite Hs in Hv. injection Hv as <-. injection Hb as <-.
  replace (fgtb (Fin 1) (Fin 0)) with true in Hrow
    by (symmetry; apply fgtb_fin; lra).
  destruct (write_assigned_row (num_classes ex_crop_manager)
              (map (fun g => object_rows ex_crop_manager (gt_box g))
                 [ex_crop_row])
              (map class_columns [ex_crop_row]) 0 0
              (background_row ex_crop_manager)
              (encode_row (box_scale_factors ex_crop_manager) ex_crop_box
                 ex_crop_box)
              (iou ex_crop_box ex_crop_box) (class_columns ex_crop_row))
    as (Ht & H4 & Hc & _ & Hl); try reflexivity.
  { cbn. lia. }
  { apply list_lookup_total_correct.
    apply (object_rows_lookup ex_crop_manager _ 0 ex_crop_box true eq_refl Hmask). }
  set (row := write_assigned _ _ _ _ _ _) in *.
  assert (Hl4 : (4 <= length row)%nat) by (rewrite Hl; lia).
  destruct (row_split row Hl4) as (a & b' & c & d & rest0 & Erow).
  assert (Henc : encode_row (box_scale_factors ex_crop_manager) ex_crop_box
                   ex_crop_box = replicate 4 (Fin 0)).
  { apply encode_row_self; [|exact Hv'].
    unfold nonzero_scales. cbn. lra. }
  rewrite Erow in Ht, H4, Hl. rewrite Henc in Ht.
  cbn [take replicate] in Ht. injection Ht as -> -> -> ->.
  destruct rest0 as [|e rest]; [discriminate|].
  cbn in H4. injection H4 as ->.
  exists rest. split.
  - rewrite Hm. f_equal. f_equal.
    apply (singleton_lookup m _ Hlen). rewrite Hrow, Erow. reflexivity.
  - rewrite Erow in Hc. unfold row_assigned_to. split; [reflexivity|].
    split; [|exact Hc].
    change (gt_box ex_crop_row) with ex_crop_box. rewrite Henc. reflexivity.
Qed.

Lemma Rtrunc_IZR x (z : Z) : x = IZR z -> (0 <= z)%Z -> Rtrunc x = z.
Proof.
  intros -> Hz. unfold Rtrunc. apply IZR_le in Hz.
  destruct (Rle_dec 0 (IZR z)); [apply ZfloorZ|contradiction].
Qed.

(** C5, the failing input.  The only ground-truth box is the only prior
    box, the middle of a 4 by 4 image.  [assign_boxes] returns one
    foreground row, matched to the box; its first four columns are the
    encoded delta, which is zero, and denormalization leaves them zero,
    whereas the box in pixels is [(1, 1, 3, 3)].  The crop at the row's
    columns is empty, whereas the crop at the box is 2 by 2 pixels, and
    [flow] gets no sample from the key. *)
Lemma denormalize_then_crop_failing_input :
  exists rest st self',
    let row := replicate 4 (Fin 0) ++ Fin 0 :: rest in
    assign_boxes ex_crop_manager [ex_crop_row] = Ok ([row], st) /\
    row_assigned_to ex_crop_manager ex_crop_box ex_crop_row row /\
    _denormalize_box [row] (image_shape ex_image) = Ok [row] /\
    denormalize_row 4 4 (box_row ex_crop_box) =
      [Fin 1; Fin 1; Fin 3; Fin 3] /\
    _crop_bounding_box ex_image row = Ok [] /\
    _crop_bounding_box ex_image [Fin 1; Fin 1; Fin 3; Fin 3] =
      Ok (replicate 2 (replicate 2 (Pixel 0 0 0))) /\
    flow_key ex_read_image ex_resize_image ex_lighting_core
      ex_crop_generator Val ex_crop_draws "k" ex_crop_heap
    = Ok ([], [], ex_crop_heap, self').
Proof.
  destruct ex_crop_assign as (rest & Ha & Hr).
  assert (Hden : _denormalize_box [replicate 4 (Fin 0) ++ Fin 0 :: rest]
                   (image_shape ex_image)
                 = Ok [replicate 4 (Fin 0) ++ Fin 0 :: rest]).
  { unfold image_shape. rewrite denormalize_ok by (constructor; [cbn; lia|constructor]).
    cbn [map replicate app]. rewrite denormalize_row_cons. cbn [fmul].
    rewrite !Rmult_0_l. reflexivity. }
  assert (Hcrop : _crop_bounding_box ex_image
                    (replicate 4 (Fin 0) ++ Fin 0 :: rest) = Ok []).
  { apply crop_zero_row; reflexivity. }
  eexists rest, _, _. cbn zeta.
  split; [exact Ha|]. split; [exact Hr|]. split; [exact Hden|].
  split; [|split; [exact Hcrop|split]].
  - unfold box_row, ex_crop_box. cbn [x_min y_min x_max y_max].
    rewrite denormalize_row_cons. cbn [fmul]. rewrite INR_4.
    replace (0.25 * 4) with 1 by lra. replace (0.75 * 4) with 3 by lra.
    reflexivity.
  - unfold _crop_bounding_box.
    cbn [lookup list_lookup mbind result_bind py_int].
    rewrite (Rtrunc_IZR 1 1), (Rtrunc_IZR 3 3) by (reflexivity || lia).
    reflexivity.
  - unfold flow_key, ex_read_image. rewrite bind_ok.
    assert (Hg : ground_truth_data ex_crop_generator !! "k" = Some 0%nat)
      by (cbn [ex_crop_generator init ground_truth_data];
          apply lookup_singleton_eq).
    rewrite Hg, !bind_ok. cbn beta iota.
    assert (Hh : ex_crop_heap !!! 0%nat = [ex_crop_row])
      by apply lookup_total_singleton_eq.
    rewrite Hh.
    change (box_manager ex_crop_generator) with ex_crop_manager.
    rewrite Ha, bind_ok. cbn beta iota.
    rewrite Hden, bind_ok.
    unfold _crop_bounding_boxes, _select_samples.
    cbn [mapM app replicate lookup list_lookup mbind result_bind].
    rewrite fneqb_fin by lra.
    cbn [map negb select length kd_permutation ex_crop_draws take mapM
         mbind result_bind app crop_rows].
    rewrite take_nil.
    cbn [mapM mbind result_bind app crop_rows].
    change (Fin 0 :: Fin 0 :: Fin 0 :: Fin 0 :: Fin 0 :: rest)
      with (replicate 4 (Fin 0) ++ Fin 0 :: rest).
    rewrite Hcrop. reflexivity.
Qed.

(** * Further properties of the two modules *)

(** ** The range of the intersection over union, and clipping *)

(** X1.  For every pair of boxes, valid or not, the intersection over
    union that [_calculate_intersection_over_unions] computes is NaN
    exactly when the union (both areas minus the intersection) is 0, and
    otherwise a number between 0 and 1: it is never infinite, negative or
    above 1. *)
Theorem iou_never_out_of_range (p g : box) :
  (area p + area g - intersection p g = 0 /\ iou p g = NaN) \/
  (area p + area g - intersection p g <> 0 /\
   exists r, iou p g = Fin r /\ 0 <= r <= 1).
Proof. exact (iou_nan_or_unit p g). Qed.

Lemma fclip_fin_any x : fclip 0 1 (Fin x) = Fin (Rclip 0 1 x).
Proof.
  unfold fclip, Rclip. unfold fmaximum at 1.
  assert (H1 : forall a b, (if fleb (Fin a) (Fin b) then Fin b else Fin a)
                           = Fin (Rmax a b)).
  { intros a b. unfold fleb, Rleb, Rmax. destruct (Rle_dec a b); reflexivity. }
  rewrite H1. unfold fminimum.
  unfold fleb, Rleb, Rmin. destruct (Rle_dec (Rmax x 0) 1); reflexivity.
Qed.

Lemma Rclip_range x : 0 <= Rclip 0 1 x <= 1.
Proof.
  unfold Rclip, Rmin, Rmax.
  destruct (Rle_dec x 0); destruct (Rle_dec _ 1); lra.
Qed.

Lemma fclip_unit_or_nan v : unit_or_nan (fclip 0 1 v).
Proof.
  destruct v as [x| | |].
  - right. rewrite fclip_fin_any. eexists. split; [reflexivity|apply Rclip_range].
  - right. exists 1. split; [|lra].
    unfold fclip, fmaximum, fminimum, fleb, Rleb; cbn.
    destruct (Rle_dec 0 1); [reflexivity|lra].
  - right. exists 0. split; [|lra].
    unfold fclip, fmaximum, fminimum, fleb, Rleb; cbn.
    unfold Rleb. destruct (Rle_dec 0 1); [reflexivity|lra].
  - left. reflexivity.
Qed.

Lemma decode_encode_row_clip s d g :
  nonzero_scales s -> valid_box d -> valid_box g ->
  decode_row s d (predicted_of_row (encode_row s d g)) = clip_box g.
Proof.
  intros (Hsx & Hsy & Hsw & Hsh) [Hdx Hdy] [Hgx Hgy].
  assert (Hdw : x_max d - x_min d <> 0) by lra.
  assert (Hdh : y_max d - y_min d <> 0) by lra.
  assert (Hrw : 0 < (x_max g - x_min g) / (x_max d - x_min d))
    by (apply Rdiv_lt_0_compat; lra).
  assert (Hrh : 0 < (y_max g - y_min g) / (y_max d - y_min d))
    by (apply Rdiv_lt_0_compat; lra).
  unfold encode_row, predicted_of_row, decode_row, clip_box.
  rewrite !fdiv_fin
    by (try apply Rmult_integral_contrapositive_currified; assumption).
  rewrite !flog_fin by assumption.
  rewrite !fdiv_fin by assumption.
  cbn [pred_center_x pred_center_y pred_width pred_height lookup_total
       list_lookup_total fmul fadd fsub fneg fexp map].
  rewrite !exp_ln_scaled by assumption.
  rewrite !fclip_fin_any.
  repeat match goal with |- _ :: _ = _ :: _ => f_equal end.
  all: apply (f_equal (fun e => Fin (Rclip 0 1 e)));
    rewrite !half_eq; field; repeat split; assumption.
Qed.

(** X2.  For a valid ground-truth box that need not lie in the unit square,
    decoding what [_encode_box] computes gives, for every prior box, the
    box with each coordinate clipped to [0, 1]: the round trip loses
    what [np.clip] cuts off.  The equality is that of the real numbers, in
    which the arithmetic, [log] and [exp] are computed here; in float64 it
    holds up to rounding. *)
Theorem encode_decode_clips (self : manager) (g : box) :
  nonzero_scales (box_scale_factors self) ->
  Forall valid_box (prior_boxes self) -> valid_box g ->
  decode_boxes self
    (map predicted_of_row (_encode_box self (prior_boxes self) g))
  = Ok (map (fun _ => clip_box g) (prior_boxes self)).
Proof.
  intros Hs Hp Hg. unfold decode_boxes, _encode_box, broadcast2.
  rewrite !length_map. destruct (decide _) as [_|n]; [|congruence].
  cbn [mbind result_bind].
  replace (forallb _ _) with true.
  2:{ symmetry. apply forallb_forall. intros x Hin.
      apply in_map_iff in Hin as (r & <- & Hin).
      apply in_map_iff in Hin as (d & <- & _). reflexivity. }
  f_equal. induction Hp as [|d l Hd Hl IH]; [reflexivity|].
  cbn [map zip zip_with]. rewrite decode_encode_row_clip by assumption.
  f_equal. apply IH.
Qed.

(** ** Decoding, and the shape of the assignment matrix *)

Lemma length_decode_row s d p : length (decode_row s d p) = 4%nat.
Proof. reflexivity. Qed.

Lemma decode_row_unit s d p : Forall unit_or_nan (decode_row s d p).
Proof.
  unfold decode_row. cbn [map].
  repeat (constructor; [apply fclip_unit_or_nan|]). constructor.
Qed.

(** X3.  With as many predicted rows as prior boxes [decode_boxes] raises
    nothing and returns one row for each prior box: four decoded
    coordinates, each NaN or a number in [0, 1] whatever the prediction
    (infinite or not), followed by the trailing columns of the predicted
    row, unchanged. *)
Theorem decode_boxes_clipped (self : manager) (preds : list predicted_row) :
  length preds = num_priors self ->
  exists m, decode_boxes self preds = Ok m /\
    length m = num_priors self /\
    forall (j : nat) p, preds !! j = Some p ->
      exists c, m !! j = Some (c ++ pred_rest p) /\
        length c = 4%nat /\ Forall unit_or_nan c.
Proof.
  unfold num_priors. intros Hlen. unfold decode_boxes, broadcast2.
  destruct (decide _) as [_|n]; [|congruence].
  cbn [mbind result_bind].
  set (dec := map _ (zip (prior_boxes self) preds)).
  assert (Hdl : length dec = length preds).
  { unfold dec. rewrite length_map, length_zip. lia. }
  assert (Hdec : forall (j : nat) p, preds !! j = Some p ->
            exists d, prior_boxes self !! j = Some d /\
              dec !! j = Some (decode_row (box_scale_factors self) d p)).
  { intros j p Hp.
    destruct (lookup_lt_is_Some_2 (prior_boxes self) j) as [d Hd].
    { rewrite <- Hlen. eapply lookup_lt_Some, Hp. }
    exists d. split; [exact Hd|]. unfold dec.
    rewrite list_lookup_fmap, lookup_zip_with, Hd. cbn. rewrite Hp.
    reflexivity. }
  destruct (forallb _ preds) eqn:Hall.
  - exists dec. split; [reflexivity|]. split; [lia|].
    intros j p Hp. destruct (Hdec j p Hp) as (d & _ & Hj).
    exists (decode_row (box_scale_factors self) d p).
    rewrite forallb_forall in Hall.
    pose proof (Hall p ltac:(apply list_elem_of_In; eapply list_elem_of_lookup_2; exact Hp)) as E.
    apply bool_decide_eq_true in E. rewrite E, app_nil_r.
    split; [exact Hj|]. split; [reflexivity|apply decode_row_unit].
  - destruct (decide _) as [_|n]; [|congruence].
    eexists. split; [reflexivity|]. split.
    { rewrite length_zip_with. lia. }
    intros j p Hp. destruct (Hdec j p Hp) as (d & _ & Hj).
    exists (decode_row (box_scale_factors self) d p).
    rewrite lookup_zip_with, Hj. cbn. rewrite Hp.
    split; [reflexivity|]. split; [reflexivity|apply decode_row_unit].
Qed.

Lemma assign_boxes_no_objects (self : manager) :
  (background_id self < num_classes self + 8)%nat ->
  assign_boxes self [] =
  Ok (replicate (num_priors self) (background_row self), set_assigned self []).
Proof.
  intros Hb. unfold assign_boxes.
  destruct (decide (4 + background_id (set_assigned self []) <
                    4 + num_classes (set_assigned self []) + 8)%nat)
    as [_|n]; [|cbn in n; lia].
  reflexivity.
Qed.

(** X4.  [assign_boxes] raises [IndexError] when the column of the
    background class, [4 + background_id], is outside the
    [4 + num_classes + 8] columns, whatever the ground truth; and with that
    column in range, at least one ground-truth box and no prior box it
    raises [ValueError], from the [argmax] of an empty array. *)
Theorem assign_boxes_errors (self : manager) (gts : list gt_row) :
  (~ (background_id self < num_classes self + 8)%nat ->
     assign_boxes self gts = Raise IndexError) /\
  ((background_id self < num_classes self + 8)%nat -> gts <> [] ->
     prior_boxes self = [] ->
     assign_boxes self gts = Raise ValueError).
Proof.
  unfold assign_boxes. cbn [background_id num_classes set_assigned].
  split.
  - intros Hb.
    destruct (decide (4 + background_id self < 4 + num_classes self + 8)%nat)
      as [H|_]; [lia|reflexivity].
  - intros Hb Hg Hp.
    destruct (decide (4 + background_id self < 4 + num_classes self + 8)%nat)
      as [_|H]; [|lia].
    rewrite bind_ok. destruct (decide (length gts = 0%nat)) as [E|_].
    { destruct gts; [congruence|discriminate]. }
    destruct gts as [|g gts]; [congruence|].
    cbn [map assign_each]. unfold _assign_boxes_to_object at 1.
    unfold _calculate_intersection_over_unions.
    change (prior_boxes (set_assigned self [])) with (prior_boxes self).
    rewrite Hp. reflexivity.
Qed.

(** X5.  With at least one prior box and rows of [num_classes] class
    columns, [assign_boxes] returns [num_priors] rows of
    [4 + num_classes + 8] columns, and every row is either the background
    row as initialised, or a row marked as assigned: column 4 is 0 and
    column [4 + num_classes], the first auxiliary column, is 1. *)
Theorem assign_boxes_row_shape (self : manager) (gts : list gt_row) :
  prior_boxes self <> [] ->
  (1 <= num_classes self)%nat ->
  (background_id self < num_classes self + 8)%nat ->
  Forall (fun g => length (gt_classes g) = num_classes self) gts ->
  exists m st, assign_boxes self gts = Ok (m, st) /\
    length m = num_priors self /\
    forall (j : nat) row, m !! j = Some row ->
      length row = (4 + num_classes self + 8)%nat /\
      (row = background_row self \/
       (row !! 4%nat = Some (Fin 0) /\
        row !! (4 + num_classes self)%nat = Some (Fin 1))).
Proof.
  intros Hne HC Hb Hshape.
  destruct gts as [|g0 gts0] eqn:Egts.
  { rewrite assign_boxes_no_objects by assumption.
    eexists _, _. split; [reflexivity|]. split; [apply length_replicate|].
    intros j row Hj. apply lookup_replicate in Hj as [-> _].
    split; [apply length_background_row|left; reflexivity]. }
  rewrite <- Egts in *. assert (Hg : gts <> []) by (rewrite Egts; discriminate).
  clear Egts g0 gts0.
  destruct (assign_boxes_rows self gts Hne Hg Hb Hshape)
    as (m & Hm & Hlen & Hrows).
  exists m, (set_assigned self (map (fun g => object_priors self (gt_box g)) gts)).
  split; [exact Hm|]. split; [exact Hlen|].
  intros j row Hj.
  assert (Hjn : (j < num_priors self)%nat) by (rewrite <- Hlen; eapply lookup_lt_Some, Hj).
  destruct (Hrows j Hjn) as (v & b & Hv & Hb' & Hrow).
  pose proof (eq_trans (eq_sym Hj) Hrow) as Er. apply (inj Some) in Er.
  subst row. clear Hj Hrow.
  destruct (fgtb v (Fin 0)); [|split; [apply length_background_row|left; reflexivity]].
  apply argmax_bound in Hb'. rewrite length_map in Hb'.
  destruct (lookup_lt_is_Some_2 gts b Hb') as [gb Hgb].
  destruct (lookup_lt_is_Some_2 (prior_boxes self) j Hjn) as [p Hp].
  destruct (object_mask_lookup self (gt_box gb) j p Hp) as [mk Hmk].
  destruct (write_assigned_row (num_classes self)
              (map (fun g => object_rows self (gt_box g)) gts)
              (map class_columns gts) j b (background_row self)
              (if mk then encode_row (box_scale_factors self) p (gt_box gb)
               else replicate 4 (Fin 0))
              (if mk then iou p (gt_box gb) else Fin 0) (class_columns gb))
    as (_ & H4 & _ & HC4 & Hl).
  { exact HC. }
  { apply length_background_row. }
  { rewrite (lookup_total_map _ _ _ _ Hgb).
    rewrite (list_lookup_total_correct _ _ _
               (object_rows_lookup _ _ _ _ _ Hp Hmk)).
    destruct mk; reflexivity. }
  { destruct mk; [apply length_encode_row|reflexivity]. }
  { apply lookup_total_map, Hgb. }
  { unfold class_columns. rewrite length_map, length_drop.
    rewrite Forall_forall in Hshape.
    rewrite (Hshape gb) by (eapply list_elem_of_lookup_2; exact Hgb). reflexivity. }
  split; [exact Hl|right; split; assumption].
Qed.

(** ** Flips and the attributes of the colour jitters *)

Lemma flip_row_x_involutive g : flip_row_x (flip_row_x g) = g.
Proof.
  destruct g as [[a b c d] cls]. unfold flip_row_x. cbn.
  f_equal. f_equal; lra.
Qed.

Lemma flip_row_y_involutive g : flip_row_y (flip_row_y g) = g.
Proof.
  destruct g as [[a b c d] cls]. unfold flip_row_y. cbn.
  f_equal. f_equal; lra.
Qed.

Lemma alter_involutive (f : gt_row -> gt_row) (l : loc) (h : heap) :
  (forall g, f (f g) = g) -> alter (map f) l (alter (map f) l h) = h.
Proof.
  intros Hf. rewrite alter_alter_eq. apply alter_same. intros x. cbn.
  rewrite map_map. rewrite <- (map_id x) at 2. apply map_ext, Hf.
Qed.

(** X6.  A horizontal flip that fires twice gives back the image, the
    address of the box array and the heap it started from, and so does a
    vertical flip: the second flip undoes what the first wrote in the
    stored ground truth.  The image and the address are given back as
    they were; the coordinates are equal as real numbers, [1 - (1 - x)]
    being [x], and in float64 up to the rounding of the two
    subtractions. *)
Theorem flip_twice_restores (self : generator) (u1 u2 : R) (im : image)
    (l : loc) (h : heap) :
  (u1 < horizontal_flip_probability self ->
   u2 < horizontal_flip_probability self ->
   let '(im1, l1, h1) := horizontal_flip self u1 im l h in
   horizontal_flip self u2 im1 l1 h1 = (im, l, h)) /\
  (u1 < vertical_flip_probability self ->
   u2 < vertical_flip_probability self ->
   let '(im1, l1, h1) := vertical_flip self u1 im l h in
   vertical_flip self u2 im1 l1 h1 = (im, l, h)).
Proof.
  split; intros H1 H2.
  - unfold horizontal_flip, Rltb.
    destruct (Rlt_dec u1 _) as [_|n]; [|contradiction].
    destruct (Rlt_dec u2 _) as [_|n]; [|contradiction].
    rewrite alter_involutive by apply flip_row_x_involutive.
    rewrite map_map. f_equal. f_equal.
    rewrite <- (map_id im) at 2. apply map_ext, rev_involutive.
  - unfold vertical_flip, Rltb.
    destruct (Rlt_dec u1 _) as [_|n]; [|contradiction].
    destruct (Rlt_dec u2 _) as [_|n]; [|contradiction].
    rewrite alter_involutive by apply flip_row_y_involutive.
    rewrite rev_involutive. reflexivity.
Qed.

Lemma flip_row_x_well_formed g : well_formed g -> well_formed (flip_row_x g).
Proof.
  destruct g as [[a b c d] cls].
  unfold well_formed, valid_box, in_unit_square, flip_row_x. cbn. lra.
Qed.

Lemma flip_row_y_well_formed g : well_formed g -> well_formed (flip_row_y g).
Proof.
  destruct g as [[a b c d] cls].
  unfold well_formed, valid_box, in_unit_square, flip_row_y. cbn. lra.
Qed.

Lemma flip_boxes_well_formed ph pv d boxes :
  Forall well_formed boxes ->
  Forall well_formed (flip_boxes ph pv d boxes) /\
  map gt_classes (flip_boxes ph pv d boxes) = map gt_classes boxes.
Proof.
  intros H. unfold flip_boxes.
  assert (Hx : forall l, Forall well_formed l ->
            Forall well_formed (map flip_row_x l) /\
            map gt_classes (map flip_row_x l) = map gt_classes l).
  { intros l Hl. split.
    - induction Hl; constructor; auto using flip_row_x_well_formed.
    - rewrite map_map. apply map_ext. intros g. reflexivity. }
  assert (Hy : forall l, Forall well_formed l ->
            Forall well_formed (map flip_row_y l) /\
            map gt_classes (map flip_row_y l) = map gt_classes l).
  { intros l Hl. split.
    - induction Hl; constructor; auto using flip_row_y_well_formed.
    - rewrite map_map. apply map_ext. intros g. reflexivity. }
  destruct (flip_fires ph _); destruct (flip_fires pv _).
  - destruct (Hx _ H) as [H1 E1]. destruct (Hy _ H1) as [H2 E2].
    split; [exact H2|congruence].
  - apply Hx, H.
  - apply Hy, H.
  - split; [exact H|reflexivity].
Qed.

Section TransformBoxes.
Variable lighting_core : R -> R * R * R -> image -> option image.

(** X8.  When the boxes stored at the address given to [transform] are
    valid and inside the unit square, so are the boxes stored there when
    [transform] returns, with the same class columns; the arrays at every
    other address are untouched and the address returned is the one
    given. *)
Theorem transform_keeps_boxes_well_formed (self : generator)
    (d : transform_draws) (im : image) (l : loc) (h : heap)
    (boxes : list gt_row) im' l' h' self' :
  h !! l = Some boxes -> Forall well_formed boxes ->
  transform lighting_core self d im l h = Ok (im', l', h', self') ->
  l' = l /\
  (exists boxes', h' !! l = Some boxes' /\ Forall well_formed boxes' /\
     map gt_classes boxes' = map gt_classes boxes) /\
  (forall l0 : loc, l0 <> l -> h' !! l0 = h !! l0).
Proof.
  intros Hl Hwf Ht.
  apply (transform_heap lighting_core) in Ht as (-> & -> & _).
  split; [reflexivity|]. split.
  - eexists. rewrite lookup_alter_eq, Hl. split; [reflexivity|].
    apply flip_boxes_well_formed, Hwf.
  - intros l0 Hne. apply lookup_alter_ne. congruence.
Qed.

Lemma apply_jitters_ok self js u i im :
  (forall j, j ∈ js ->
     match j with
     | Contrast => is_Some (contrast_var self)
     | _ => is_Some (brightness_var self) /\ is_Some (saturation_var self)
     end) ->
  exists im', apply_jitters self js u i im = Ok im'.
Proof.
  revert i im. induction js as [|j js IH]; intros i im Hr.
  - eexists. reflexivity.
  - cbn [apply_jitters].
    assert (Hj := Hr j ltac:(apply list_elem_of_here)).
    assert (exists im1, apply_jitter self j (u i) im = Ok im1) as [im1 ->].
    { destruct j; cbn [apply_jitter].
      - destruct Hj as [[b Hb] [s Hs]]. unfold saturation.
        rewrite Hb, Hs. eexists. reflexivity.
      - destruct Hj as [[b Hb] [s Hs]]. unfold brightness.
        rewrite Hb, Hs. eexists. reflexivity.
      - destruct Hj as [c Hc]. unfold contrast. rewrite Hc.
        eexists. reflexivity. }
    rewrite bind_ok. apply IH. intros j' Hj'. apply Hr.
    apply list_elem_of_further, Hj'.
Qed.

Lemma apply_jitters_raise_sat self js u i image_array :
  saturation_var self = None ->
  Brightness ∈ js ->
  apply_jitters self js u i image_array = Raise AttributeError.
Proof.
  intros Hs. revert i image_array.
  induction js as [|j js IH]; intros i image_array Hin.
  - apply elem_of_nil in Hin. contradiction.
  - cbn [apply_jitters]. destruct j; cbn [apply_jitter].
    + unfold saturation. rewrite Hs.
      destruct (brightness_var self); reflexivity.
    + unfold brightness. rewrite Hs.
      destruct (brightness_var self); reflexivity.
    + apply elem_of_cons in Hin as [Hin|Hin]; [discriminate|].
      unfold contrast. destruct (contrast_var self); [|reflexivity].
      cbn [getattr]. rewrite !bind_ok. apply IH, Hin.
Qed.

Lemma truthy_false v : truthy v = false -> v = 0.
Proof.
  unfold truthy, Reqb. destruct (Req_dec_T v 0); [trivial|discriminate].
Qed.

(** X9.  For a generator as [__init__] builds it, and every order
    [shuffle] can leave [color_jitter] in: when [saturation_var] and
    [brightness_var] are both zero or both non-zero, no attribute is
    missing and [transform] returns, unless the lighting noise is enabled
    and [lighting] raises [LinAlgError]; and [transform] raises
    [AttributeError] when exactly one of the two is zero ([saturation] and
    [brightness] each read both attributes). *)
Theorem transform_attribute_errors
    (ground_truth_data : gmap string loc) (box_manager : manager)
    (batch_size : nat) (image_size : nat * nat)
    (train_keys validation_keys : list string) (path_prefix suffix : string)
    (negative_positive_ratio : nat)
    (saturation_var brightness_var contrast_var lighting_std
       horizontal_flip_probability vertical_flip_probability : R)
    (d : transform_draws) (image_array : image) (box_corners : loc)
    (h : heap) :
  let self :=
    init ground_truth_data box_manager batch_size image_size train_keys
      validation_keys path_prefix suffix negative_positive_ratio
      saturation_var brightness_var contrast_var lighting_std
      horizontal_flip_probability vertical_flip_probability in
  Permutation (shuffled d) (color_jitter self) ->
  ((saturation_var = 0 <-> brightness_var = 0) ->
   (exists r,
      transform lighting_core self d image_array box_corners h = Ok r) \/
   (lighting_std <> 0 /\
    transform lighting_core self d image_array box_corners h
    = Raise LinAlgError)) /\
  (~ (saturation_var = 0 <-> brightness_var = 0) ->
   transform lighting_core self d image_array box_corners h
   = Raise AttributeError).
Proof.
  intros self Hperm. split.
  - intros Hiff. unfold transform.
    destruct (apply_jitters_ok (set_color_jitter self (shuffled d))
                (shuffled d) (jitter_u d) 0 image_array) as [im' Him].
    { intros j Hj. apply (elem_of_Permutation_proper _ _ _ Hperm) in Hj.
      subst self. cbn [init color_jitter set_color_jitter
                       ImageGenerator.saturation_var
                       ImageGenerator.brightness_var
                       ImageGenerator.contrast_var] in *.
      destruct (truthy saturation_var) eqn:Es;
        destruct (truthy brightness_var) eqn:Eb;
        destruct (truthy contrast_var) eqn:Ec; cbn [app] in Hj.
      all: try (apply truthy_false in Es; apply proj1 in Hiff;
                specialize (Hiff Es); subst; rewrite truthy_zero in Eb;
                discriminate).
      all: try (apply truthy_false in Eb; apply proj2 in Hiff;
                specialize (Hiff Eb); subst; rewrite truthy_zero in Es;
                discriminate).
      all: repeat (apply elem_of_cons in Hj as [->|Hj]);
        try (apply elem_of_nil in Hj; contradiction);
        repeat split; eexists; reflexivity. }
    cbn [set_color_jitter color_jitter]. cbn [set_color_jitter color_jitter] in Him.
    rewrite Him, bind_ok.
    assert (Hflips : forall im0 : image, exists r,
              (let '(image_array, box_corners, h) :=
                 if Rltb 0 (ImageGenerator.horizontal_flip_probability self)
                 then horizontal_flip (set_color_jitter self (shuffled d))
                        (hflip_u d) im0 box_corners h
                 else (im0, box_corners, h) in
               let '(image_array, box_corners, h) :=
                 if Rltb 0 (ImageGenerator.vertical_flip_probability self)
                 then vertical_flip (set_color_jitter self (shuffled d))
                        (vflip_u d) image_array box_corners h
                 else (image_array, box_corners, h) in
               Ok (image_array, box_corners, h,
                   set_color_jitter self (shuffled d))) = Ok r).
    { intros im0. unfold horizontal_flip, vertical_flip.
      repeat match goal with
      | |- context [if ?c then _ else _] => destruct c
      end; eexists; reflexivity. }
    cbn [ImageGenerator.lighting_std ImageGenerator.horizontal_flip_probability
         ImageGenerator.vertical_flip_probability set_color_jitter].
    destruct (truthy (ImageGenerator.lighting_std self)) eqn:El.
    + unfold lighting.
      destruct (lighting_core _ (lighting_noise d) im') as [im0|].
      * left. rewrite bind_ok. apply Hflips.
      * right. split; [|reflexivity].
        intros E0. subst self. cbn [init ImageGenerator.lighting_std] in El.
        rewrite E0, truthy_zero in El. discriminate.
    + left. rewrite bind_ok. apply Hflips.
  - intros Hn. unfold transform.
    cbn [set_color_jitter color_jitter].
    assert (Hcase : (saturation_var <> 0 /\ brightness_var = 0) \/
                    (saturation_var = 0 /\ brightness_var <> 0)).
    { destruct (Req_dec_T saturation_var 0); destruct (Req_dec_T brightness_var 0);
        try tauto. }
    destruct Hcase as [[Hs Hb]|[Hs Hb]].
    + rewrite apply_jitters_raise; [reflexivity| |].
      * subst self. cbn. rewrite Hb, truthy_zero. reflexivity.
      * apply (elem_of_Permutation_proper _ _ _ Hperm).
        subst self. cbn [init color_jitter]. rewrite (truthy_nonzero _ Hs).
        apply list_elem_of_here.
    + rewrite apply_jitters_raise_sat; [reflexivity| |].
      * subst self. cbn. rewrite Hs, truthy_zero. reflexivity.
      * apply (elem_of_Permutation_proper _ _ _ Hperm).
        subst self. cbn [init color_jitter]. rewrite Hs, truthy_zero.
        rewrite (truthy_nonzero _ Hb). apply list_elem_of_here.
Qed.

End TransformBoxes.

(** ** The range of the colour jitters; background sampling *)

Lemma Rclip_byte x : 0 <= Rclip 0 255 x <= 255.
Proof.
  unfold Rclip, Rmin, Rmax.
  destruct (Rle_dec x 0); destruct (Rle_dec _ 255); lra.
Qed.

Lemma image_map_clip_range im : in_byte_range (image_map (Rclip 0 255) im).
Proof.
  unfold in_byte_range, image_map.
  apply Forall_map, Forall_forall. intros row _. cbn.
  apply Forall_map, Forall_forall. intros p _. cbn.
  repeat split; apply Rclip_byte.
Qed.

Lemma image_map_shape f im : same_shape (image_map f im) im.
Proof.
  unfold same_shape, image_map. rewrite map_map.
  apply map_ext. intros row. apply length_map.
Qed.

Lemma same_shape_trans a b c : same_shape a b -> same_shape b c -> same_shape a c.
Proof. unfold same_shape. congruence. Qed.

Lemma saturation_mix_shape (f : pixel -> R -> pixel) (im : image) :
  same_shape (zip_with (zip_with f) im (_gray_scale im)) im.
Proof.
  unfold same_shape, _gray_scale.
  induction im as [|row im IH]; [reflexivity|].
  cbn [map zip_with]. f_equal; [|exact IH].
  rewrite length_zip_with, length_map. lia.
Qed.

Lemma apply_jitter_range_shape self j u im im' :
  apply_jitter self j u im = Ok im' ->
  same_shape im' im /\ in_byte_range im'.
Proof.
  destruct j; cbn [apply_jitter];
    unfold saturation, brightness, contrast; intros H.
  - apply bind_ok_inv in H as (b & _ & H).
    apply bind_ok_inv in H as (s & _ & H). injection H as <-.
    split; [|apply image_map_clip_range].
    eapply same_shape_trans; [apply image_map_shape|].
    apply saturation_mix_shape.
  - apply bind_ok_inv in H as (b & _ & H).
    apply bind_ok_inv in H as (s & _ & H). injection H as <-.
    split; [|apply image_map_clip_range].
    eapply same_shape_trans; apply image_map_shape.
  - apply bind_ok_inv in H as (c & _ & H). injection H as <-.
    split; [|apply image_map_clip_range].
    eapply same_shape_trans; apply image_map_shape.
Qed.

Lemma jitters_shape self js u i im im' :
  apply_jitters self js u i im = Ok im' -> same_shape im' im.
Proof.
  revert i im. induction js as [|j js IH]; intros i im H.
  - injection H as <-. reflexivity.
  - cbn [apply_jitters] in H.
    apply bind_ok_inv in H as (im1 & H1 & H).
    apply apply_jitter_range_shape in H1 as [Hs1 _].
    eapply same_shape_trans; [apply (IH _ _ H)|exact Hs1].
Qed.

Lemma jitters_range self js u i im im' :
  apply_jitters self js u i im = Ok im' -> js <> [] -> in_byte_range im'.
Proof.
  revert i im. induction js as [|j js IH]; intros i im H Hne; [congruence|].
  cbn [apply_jitters] in H.
  apply bind_ok_inv in H as (im1 & H1 & H).
  apply apply_jitter_range_shape in H1 as [_ Hr1].
  destruct js as [|j' js'].
  - injection H as <-. exact Hr1.
  - eapply IH; [exact H|discriminate].
Qed.

(** X10.  The colour jitters of [transform] keep the shape of the image
    (the number of rows and the length of every row), and when at least one
    jitter is applied every channel of every pixel of the result is in
    [0, 255]. *)
Theorem jitters_keep_shape_and_range (self : generator) (js : list jitter)
    (u : nat -> R) (i : nat) (im im' : image) :
  apply_jitters self js u i im = Ok im' ->
  same_shape im' im /\ (js <> [] -> in_byte_range im').
Proof.
  intros H. split; [eapply jitters_shape, H|eapply jitters_range, H].
Qed.

Lemma mapM_index_omap {A} (l : list A) (idx : list nat) (e : exn) :
  Forall (fun i => (i < length l)%nat) idx ->
  mapM (fun i : nat => match l !! i with
                       | Some row => Ok row
                       | None => Raise e
                       end) idx = Ok (omap (l !!.) idx).
Proof.
  induction 1 as [|i idx Hi _ IH]; [reflexivity|].
  destruct (lookup_lt_is_Some_2 _ _ Hi) as [x Hx].
  cbn [mapM omap list_omap]. rewrite Hx, bind_ok, IH, bind_ok. reflexivity.
Qed.

Lemma omap_lookup_seq_app {A} (pre l : list A) :
  omap ((pre ++ l) !!.) (seq (length pre) (length l)) = l.
Proof.
  revert pre. induction l as [|x l IH]; intros pre; [reflexivity|].
  cbn [length seq omap list_omap].
  rewrite list_lookup_middle by reflexivity. f_equal.
  specialize (IH (pre ++ [x])). rewrite <- app_assoc, length_app in IH.
  cbn in IH. rewrite Nat.add_1_r in IH. exact IH.
Qed.

Lemma omap_lookup_seq {A} (l : list A) :
  omap (l !!.) (seq 0 (length l)) = l.
Proof. apply (omap_lookup_seq_app [] l). Qed.

Lemma omap_lookup_permutation {A} (l : list A) (idx : list nat) :
  Permutation idx (seq 0 (length l)) -> Permutation (omap (l !!.) idx) l.
Proof.
  intros H. rewrite H. rewrite omap_lookup_seq. reflexivity.
Qed.

Lemma omap_lookup_take {A} (l : list A) (idx : list nat) n :
  Permutation idx (seq 0 (length l)) -> omap (l !!.) (take n idx) ⊆+ l.
Proof.
  intros H.
  destruct (submseteq_Permutation _ _ (submseteq_take idx n)) as [k Hk].
  rewrite <- (omap_lookup_permutation l idx H).
  rewrite Hk at 2. rewrite omap_app. apply submseteq_inserts_r. reflexivity.
Qed.

Lemma permutation_in_range (idx : list nat) n :
  Permutation idx (seq 0 n) -> Forall (fun i => (i < n)%nat) idx.
Proof.
  intros H. apply Forall_forall. intros i Hi.
  apply (elem_of_Permutation_proper _ _ _ H) in Hi.
  apply list_elem_of_In, in_seq in Hi. lia.
Qed.

(** X13.  For a permutation as [np.random.permutation] returns it,
    [_select_samples] takes no background row twice (the rows it returns
    are a sub-multiset of the background rows), it takes exactly the
    minimum of [negative_positive_ratio] times the number of foreground
    rows and the number of background rows, and when the cap is not below
    that number it returns all the background rows, reordered. *)
Theorem background_samples_distinct (self : generator)
    (permutation : list nat) (assigned_data : matrix) :
  Forall (fun row : list fval => (4 < length row)%nat) assigned_data ->
  Permutation permutation
    (seq 0 (length (List.filter (fun row => negb (is_object row))
                      assigned_data))) ->
  exists object_data background_data,
    _select_samples self permutation assigned_data
      = Ok (object_data, background_data) /\
    background_data ⊆+
      List.filter (fun row => negb (is_object row)) assigned_data /\
    length background_data =
      Nat.min (negative_positive_ratio self * length object_data)
        (length (List.filter (fun row => negb (is_object row))
                   assigned_data)) /\
    ((length (List.filter (fun row => negb (is_object row)) assigned_data)
        <= negative_positive_ratio self * length object_data)%nat ->
     Permutation background_data
       (List.filter (fun row => negb (is_object row)) assigned_data)).
Proof.
  intros Hshape Hperm. unfold _select_samples.
  rewrite (mapM_ok_map _ is_object).
  2:{ eapply Forall_impl; [exact Hshape|]. intros row Hl. cbn beta.
      destruct (lookup_lt_is_Some_2 row 4 Hl) as [v Hv]. rewrite Hv.
      unfold is_object. rewrite (list_lookup_total_correct _ _ _ Hv).
      reflexivity. }
  rewrite bind_ok, map_map, !select_map_filter.
  set (bg := List.filter (fun x => negb (is_object x)) assigned_data) in *.
  set (n := (negative_positive_ratio self *
             length (List.filter is_object assigned_data))%nat).
  rewrite mapM_index_omap
    by (apply Forall_take, permutation_in_range, Hperm).
  rewrite bind_ok. eexists _, _. split; [reflexivity|].
  pose proof (omap_lookup_take bg permutation n Hperm) as Hsub.
  assert (Hlen : length (omap (bg !!.) (take n permutation))
                 = Nat.min n (length bg)).
  { assert (Hl : forall idx, Forall (fun i => (i < length bg)%nat) idx ->
                   length (omap (bg !!.) idx) = length idx).
    { induction 1 as [|i idx Hi _ IH]; [reflexivity|].
      destruct (lookup_lt_is_Some_2 _ _ Hi) as [x Hx].
      cbn [omap list_omap]. rewrite Hx. cbn. f_equal. exact IH. }
    rewrite Hl by (apply Forall_take, permutation_in_range, Hperm).
    rewrite length_take. apply Permutation_length in Hperm.
    rewrite Hperm, length_seq. reflexivity. }
  split; [exact Hsub|]. split; [exact Hlen|].
  intros Hall. apply submseteq_length_Permutation; [exact Hsub|].
  rewrite Hlen. lia.
Qed.

(** ** Shuffling inputs and targets together *)

Lemma omap_lookup_zip {A B} (a : list A) (b : list B) (idx : list nat) :
  length a = length b ->
  Forall (fun i => (i < length a)%nat) idx ->
  zip (omap (a !!.) idx) (omap (b !!.) idx) = omap (zip a b !!.) idx.
Proof.
  intros Hlen. induction 1 as [|i idx Hi _ IH]; [reflexivity|].
  destruct (lookup_lt_is_Some_2 a i Hi) as [x Hx].
  destruct (lookup_lt_is_Some_2 b i ltac:(lia)) as [y Hy].
  cbn [omap list_omap]. rewrite Hx, Hy.
  assert (Hz : zip a b !! i = Some (x, y)).
  { pose proof (lookup_zip_with (@pair A B) a b i) as HH. rewrite Hx, Hy in HH. exact HH. }
  rewrite Hz. cbn [zip zip_with]. f_equal. exact IH.
Qed.

(** X17.  [_shuffle_together] raises [AssertionError] on arrays of
    different lengths.  On arrays of one length and a permutation as
    [np.random.permutation] returns it, it returns a reordering of each
    array that keeps the pairs: the pairs of elements at equal positions
    are those of the arguments, reordered. *)
Theorem shuffle_together_keeps_pairs {A B} (random_args : list nat)
    (array_1 : list A) (array_2 : list B) :
  (length array_1 <> length array_2 ->
   _shuffle_together random_args array_1 array_2 = Raise AssertionError) /\
  (length array_1 = length array_2 ->
   Permutation random_args (seq 0 (length array_1)) ->
   exists r1 r2,
     _shuffle_together random_args array_1 array_2 = Ok (r1, r2) /\
     Permutation (zip r1 r2) (zip array_1 array_2) /\
     Permutation r1 array_1 /\ Permutation r2 array_2).
Proof.
  unfold _shuffle_together. split.
  - intros Hne. destruct (decide _) as [E|_]; [contradiction|reflexivity].
  - intros Hlen Hperm. destruct (decide _) as [_|n]; [|contradiction].
    pose proof (permutation_in_range _ _ Hperm) as Hr.
    rewrite (mapM_index_omap array_1) by exact Hr. rewrite bind_ok.
    rewrite (mapM_index_omap array_2)
      by (eapply Forall_impl; [exact Hr|]; cbn; intros; lia).
    rewrite bind_ok. eexists _, _. split; [reflexivity|].
    split; [|split].
    + rewrite omap_lookup_zip by assumption.
      apply omap_lookup_permutation.
      rewrite length_zip. rewrite <- Hlen, Nat.min_id. exact Hperm.
    + apply omap_lookup_permutation, Hperm.
    + apply omap_lookup_permutation. rewrite <- Hlen. exact Hperm.
Qed.

(** ** Crops *)

Lemma py_slice_sublist {A} lo hi (l : list A) : py_slice lo hi l `sublist_of` l.
Proof.
  unfold py_slice. etransitivity; [apply sublist_take|apply sublist_drop].
Qed.

Lemma crop_finite (im : image) a b c d rest :
  _crop_bounding_box im (Fin a :: Fin b :: Fin c :: Fin d :: rest) =
  Ok (map (py_slice (Rtrunc a) (Rtrunc c))
        (py_slice (Rtrunc b) (Rtrunc d) im)).
Proof. reflexivity. Qed.

(** X14.  On a row of at least four columns [_crop_bounding_box] returns
    when the four box columns are finite, whatever their values (negative,
    reversed, beyond the image), and the crop is then a sub-image: some of
    the rows of the image, in order, each cut down to some of its pixels,
    in order.  When a box column is NaN or infinite it raises [ValueError]
    or [OverflowError]. *)
Theorem crop_of_any_box (im : image) (row : list fval) :
  (4 <= length row)%nat ->
  (forallb is_finite (take 4 row) = true ->
   exists crop, _crop_bounding_box im row = Ok crop /\ sub_image crop im) /\
  (forallb is_finite (take 4 row) = false ->
   _crop_bounding_box im row = Raise ValueError \/
   _crop_bounding_box im row = Raise OverflowError).
Proof.
  intros Hl. destruct (row_split row Hl) as (a & b & c & d & rest & ->).
  cbn [take forallb]. split.
  - intros Hf.
    destruct a as [a| | |]; try discriminate.
    destruct b as [b| | |]; try discriminate.
    destruct c as [c| | |]; try discriminate.
    destruct d as [d| | |]; try discriminate.
    rewrite crop_finite. eexists. split; [reflexivity|].
    exists (py_slice (Rtrunc b) (Rtrunc d) im).
    split; [apply py_slice_sublist|].
    induction (py_slice (Rtrunc b) (Rtrunc d) im) as [|r rows IH];
      constructor; [apply py_slice_sublist|exact IH].
  - intros Hf. unfold _crop_bounding_box.
    cbn [lookup list_lookup mbind result_bind].
    destruct a as [a| | |]; cbn [py_int result_bind]; auto.
    destruct b as [b| | |]; cbn [py_int result_bind]; auto.
    destruct c as [c| | |]; cbn [py_int result_bind]; auto.
    destruct d as [d| | |]; cbn [py_int result_bind]; auto.
    discriminate.
Qed.

Lemma slice_bound_in_range len (z : Z) :
  (0 <= z <= Z.of_nat len)%Z -> slice_bound len z = Z.to_nat z.
Proof.
  intros H. unfold slice_bound. destruct (decide (z < 0)%Z); lia.
Qed.

Lemma py_slice_in_range {A} (lo hi : Z) (l : list A) :
  (0 <= lo <= hi)%Z -> (hi <= Z.of_nat (length l))%Z ->
  length (py_slice lo hi l) = Z.to_nat (hi - lo) /\
  forall i : nat, (i < Z.to_nat (hi - lo))%nat ->
    py_slice lo hi l !! i = l !! (Z.to_nat lo + i)%nat.
Proof.
  intros H1 H2. unfold py_slice.
  rewrite !slice_bound_in_range by lia.
  replace (Z.to_nat hi - Z.to_nat lo)%nat with (Z.to_nat (hi - lo)) by lia.
  split.
  - rewrite length_take, length_drop. lia.
  - intros i Hi. rewrite lookup_take_lt by exact Hi. apply lookup_drop.
Qed.

(** X15.  For box columns that truncate to [0 <= x_min <= x_max <= W] and
    [0 <= y_min <= y_max <= H] on an [H x W] image, the crop has
    [y_max - y_min] rows of [x_max - x_min] pixels, and its pixel at
    [(i, j)] is the pixel of the image at [(y_min + i, x_min + j)]. *)
Theorem crop_in_image (im : image) (W : nat) (a b c d : R)
    (rest : list fval) :
  Forall (fun row : list pixel => length row = W) im ->
  (0 <= Rtrunc a <= Rtrunc c)%Z -> (Rtrunc c <= Z.of_nat W)%Z ->
  (0 <= Rtrunc b <= Rtrunc d)%Z -> (Rtrunc d <= Z.of_nat (length im))%Z ->
  exists crop,
    _crop_bounding_box im (Fin a :: Fin b :: Fin c :: Fin d :: rest)
      = Ok crop /\
    length crop = Z.to_nat (Rtrunc d - Rtrunc b) /\
    Forall (fun row : list pixel =>
              length row = Z.to_nat (Rtrunc c - Rtrunc a)) crop /\
    forall i j : nat,
      (i < Z.to_nat (Rtrunc d - Rtrunc b))%nat ->
      (j < Z.to_nat (Rtrunc c - Rtrunc a))%nat ->
      crop !! i ≫= (.!! j) =
      im !! (Z.to_nat (Rtrunc b) + i)%nat
        ≫= (.!! (Z.to_nat (Rtrunc a) + j)%nat).
Proof.
  intros Hrect Hx1 Hx2 Hy1 Hy2. rewrite crop_finite.
  eexists. split; [reflexivity|].
  destruct (py_slice_in_range (Rtrunc b) (Rtrunc d) im Hy1 Hy2) as [Hlen Hrow].
  assert (Hrows : Forall (fun row : list pixel => length row = W)
                    (py_slice (Rtrunc b) (Rtrunc d) im)).
  { eapply Forall_forall. intros r Hr. rewrite Forall_forall in Hrect.
    apply Hrect. eapply elem_of_sublist; [exact Hr|apply py_slice_sublist]. }
  split; [rewrite length_map; exact Hlen|]. split.
  - apply Forall_map. eapply Forall_impl; [exact Hrows|].
    intros r Hr. cbn beta.
    apply (py_slice_in_range (Rtrunc a) (Rtrunc c) r Hx1). rewrite Hr. exact Hx2.
  - intros i j Hi Hj. rewrite list_lookup_fmap, (Hrow i Hi).
    destruct (im !! (Z.to_nat (Rtrunc b) + i)%nat) as [r|] eqn:Er;
      [|reflexivity].
    cbn. rewrite Forall_forall in Hrect.
    assert (Hr : length r = W)
      by (apply Hrect; eapply list_elem_of_lookup_2; exact Er).
    apply (py_slice_in_range (Rtrunc a) (Rtrunc c) r Hx1);
      [rewrite Hr; exact Hx2|exact Hj].
Qed.

(** ** Crops and their class targets *)

Lemma mapM_ok_inv {A B} (f : A -> result B) (l : list A) (r : list B) :
  mapM f l = Ok r -> Forall2 (fun x y => f x = Ok y) l r.
Proof.
  revert r. induction l as [|x l IH]; intros r H.
  - injection H as <-. constructor.
  - cbn [mapM] in H. apply bind_ok_inv in H as (y & Hy & H).
    apply bind_ok_inv in H as (ys & Hys & H). injection H as <-.
    constructor; [exact Hy|apply IH, Hys].
Qed.

Lemma select_samples_inv self permutation (data obj bg : matrix) :
  _select_samples self permutation data = Ok (obj, bg) ->
  obj = List.filter is_object data /\
  (length bg <= negative_positive_ratio self * length obj)%nat /\
  Forall (fun row => row ∈ data) bg.
Proof.
  unfold _select_samples. intros H.
  apply bind_ok_inv in H as (mask & Hmask & H).
  apply bind_ok_inv in H as (rows & Hrows & H).
  injection H as <- <-.
  assert (Em : mask = map is_object data).
  { apply mapM_ok_inv in Hmask. clear Hrows.
    induction Hmask as [|row m l ms Hrow _ IH]; [reflexivity|].
    cbn [map]. f_equal; [|exact IH].
    destruct (row !! 4%nat) as [v|] eqn:Ev; [|discriminate].
    injection Hrow as <-. unfold is_object.
    rewrite (list_lookup_total_correct _ _ _ Ev). reflexivity. }
  subst mask. rewrite map_map, !select_map_filter in *.
  split; [reflexivity|].
  apply mapM_ok_inv in Hrows. split.
  - rewrite <- (Forall2_length _ _ _ Hrows), length_take. lia.
  - set (bgd := List.filter _ data) in Hrows.
    assert (Hin : Forall (fun row => row ∈ bgd) rows).
    { clear -Hrows. induction Hrows as [|i row l rs Hi _ IH]; constructor.
      - destruct (bgd !! i) as [r|] eqn:Er; [|discriminate].
        injection Hi as <-. eapply list_elem_of_lookup_2. exact Er.
      - exact IH. }
    eapply Forall_impl; [exact Hin|]. intros row Hr. cbn beta in Hr.
    apply list_elem_of_In, filter_In in Hr as [Hr _].
    apply list_elem_of_In, Hr.
Qed.

Section Crops.
Variable resize_image : image -> nat * nat -> image.

Lemma crop_rows_inv self im (data : matrix) images classes :
  crop_rows resize_image self im data = Ok (images, classes) ->
  length images = length classes /\
  classes `sublist_of` map (drop 4) data.
Proof.
  revert images classes. induction data as [|row data IH];
    intros images classes H.
  - injection H as <- <-. split; [reflexivity|constructor].
  - cbn [crop_rows] in H.
    apply bind_ok_inv in H as (crop & _ & H).
    apply bind_ok_inv in H as ([imgs cls] & Hrest & H).
    destruct (IH _ _ Hrest) as [Hl Hs]. cbn [map].
    destruct (empty_shape crop); injection H as <- <-.
    + split; [exact Hl|]. apply sublist_cons, Hs.
    + split; [cbn; lia|]. apply sublist_skip, Hs.
Qed.

(** X16.  Whenever [_crop_bounding_boxes] returns, it returns as many
    class targets as images, at most [1 + negative_positive_ratio] times
    the number of foreground rows of the matrix, and every class target is
    the columns from 4 on of a row of the matrix. *)
Theorem crops_are_paired (self : generator) (permutation : list nat)
    (im : image) (data : matrix) (images : list image) (classes : matrix) :
  _crop_bounding_boxes resize_image self permutation im data
    = Ok (images, classes) ->
  length images = length classes /\
  (length classes <=
     (1 + negative_positive_ratio self) * length (List.filter is_object data))%nat /\
  Forall (fun c => exists row, row ∈ data /\ c = drop 4 row) classes.
Proof.
  unfold _crop_bounding_boxes. intros H.
  apply bind_ok_inv in H as ([obj bg] & Hsel & H).
  apply select_samples_inv in Hsel as (-> & Hcap & Hbg).
  apply crop_rows_inv in H as [Hl Hs].
  split; [exact Hl|]. split.
  - apply sublist_length in Hs. rewrite length_map, length_app in Hs. lia.
  - apply Forall_forall. intros c Hc.
    pose proof (elem_of_sublist _ _ _ Hc Hs) as Hin.
    apply list_elem_of_fmap in Hin as (row & -> & Hrow).
    exists row. split; [|reflexivity].
    apply elem_of_app in Hrow as [Hrow|Hrow].
    + apply list_elem_of_In, filter_In in Hrow as [Hrow _].
      apply list_elem_of_In, Hrow.
    + rewrite Forall_forall in Hbg. apply Hbg, Hrow.
Qed.

End Crops.

(** ** The assertion of [_shuffle_together] in [flow] *)

Lemma na_ok {A} (a : A) : never_asserts (Ok a).
Proof. discriminate. Qed.

Lemma na_raise {A} (e : exn) : e <> AssertionError -> never_asserts (@Raise A e).
Proof. intros H E. injection E as E. contradiction. Qed.

Lemma na_bind {A B} (m : result A) (k : A -> result B) :
  never_asserts m -> (forall a, m = Ok a -> never_asserts (k a)) ->
  never_asserts (m ≫= k).
Proof.
  intros Hm Hk. destruct m as [a|e]; [apply Hk; reflexivity|].
  intros E. apply Hm. injection E as ->. reflexivity.
Qed.

Lemma na_mapM {A B} (f : A -> result B) (l : list A) :
  (forall x, never_asserts (f x)) -> never_asserts (mapM f l).
Proof.
  intros Hf. induction l as [|x l IH]; [apply na_ok|].
  cbn [mapM]. apply na_bind; [apply Hf|]. intros y _.
  apply na_bind; [exact IH|]. intros ys _. apply na_ok.
Qed.

Ltac na_step :=
  first [ apply na_ok
        | apply na_raise; discriminate
        | apply na_mapM; intros ?
        | apply na_bind; [|intros ? ?] ].

Lemma na_getattr {A} (a : option A) : never_asserts (getattr a).
Proof. destruct a; na_step. Qed.

Lemma na_apply_jitters self js u i im :
  never_asserts (apply_jitters self js u i im).
Proof.
  revert i im. induction js as [|j js IH]; intros i im; [apply na_ok|].
  cbn [apply_jitters]. apply na_bind; [|intros ? _; apply IH].
  destruct j; cbn [apply_jitter]; unfold saturation, brightness, contrast;
    repeat (apply na_bind; [apply na_getattr|intros ? _]); apply na_ok.
Qed.

Lemma na_argmax l : never_asserts (argmax l).
Proof. destruct l; na_step. Qed.

Lemma na_amax l : never_asserts (amax l).
Proof. destruct l; na_step. Qed.

Lemma na_broadcast_row t v : never_asserts (broadcast_row t v).
Proof.
  unfold broadcast_row. destruct (decide _); [na_step|].
  destruct v as [|x [|y v]]; na_step.
Qed.

Lemma na_assign_object self b g :
  never_asserts (_assign_boxes_to_object self b g).
Proof.
  unfold _assign_boxes_to_object. apply na_bind; [|intros ? _; apply na_ok].
  destruct (existsb _ _); [apply na_ok|].
  apply na_bind; [apply na_argmax|intros ? _; apply na_ok].
Qed.

Lemma na_assign_each self boxes : never_asserts (assign_each self boxes).
Proof.
  revert self. induction boxes as [|g boxes IH]; intros self; [apply na_ok|].
  cbn [assign_each]. apply na_bind; [apply na_assign_object|].
  intros [rows self1] _. apply na_bind; [apply IH|].
  intros [rest self2] _. apply na_ok.
Qed.

Lemma na_assign_boxes self gts : never_asserts (assign_boxes self gts).
Proof.
  unfold assign_boxes. apply na_bind.
  { destruct (decide _); na_step. }
  intros assignments _. destruct (decide _); [apply na_ok|].
  apply na_bind; [apply na_assign_each|]. intros [enc self1] _.
  apply na_bind; [apply na_mapM; intros ?; apply na_amax|]. intros ? _.
  apply na_bind; [apply na_mapM; intros ?; apply na_argmax|]. intros ? _.
  apply na_bind; [apply na_mapM; intros ?; apply na_broadcast_row|].
  intros ? _. apply na_ok.
Qed.

Lemma na_denormalize m size : never_asserts (_denormalize_box m size).
Proof.
  unfold _denormalize_box. destruct size. destruct (forallb _ _); na_step.
Qed.

Lemma na_select_samples self permutation data :
  never_asserts (_select_samples self permutation data).
Proof.
  unfold _select_samples.
  apply na_bind.
  { apply na_mapM. intros row. destruct (row !! 4%nat); na_step. }
  intros mask _. apply na_bind; [|intros ? _; apply na_ok].
  apply na_mapM. intros i. destruct (_ !! i); na_step.
Qed.

Lemma na_py_int v : never_asserts (py_int v).
Proof. destruct v; na_step. Qed.

Lemma na_crop_box im row : never_asserts (_crop_bounding_box im row).
Proof.
  unfold _crop_bounding_box.
  repeat (apply na_bind;
          [apply na_bind; [destruct (row !! _); na_step
                          |intros ? _; apply na_py_int]
          |intros ? _]).
  apply na_ok.
Qed.

Section FlowAssertion.
Variable read_image : string -> result image.
Variable resize_image : image -> nat * nat -> image.
Variable preprocess_images : list image -> list image.
Variable lighting_core : R -> R * R * R -> image -> option image.

Hypothesis read_image_never_asserts :
  forall path, never_asserts (read_image path).

Lemma na_transform self d im l h :
  never_asserts (transform lighting_core self d im l h).
Proof.
  unfold transform. apply na_bind; [apply na_apply_jitters|].
  intros im1 _. apply na_bind.
  { destruct (truthy _); [|apply na_ok]. unfold lighting.
    destruct (lighting_core _ _ _); na_step. }
  intros im0 _.
  destruct (if Rltb 0 _ then horizontal_flip _ _ _ _ _ else _) as [[im2 l2] h2].
  destruct (if Rltb 0 _ then vertical_flip _ _ _ _ _ else _) as [[im3 l3] h3].
  apply na_ok.
Qed.

Lemma na_crop_rows self im data :
  never_asserts (crop_rows resize_image self im data).
Proof.
  induction data as [|row data IH]; [apply na_ok|].
  cbn [crop_rows]. apply na_bind; [apply na_crop_box|]. intros crop _.
  apply na_bind; [exact IH|]. intros [imgs cls] _.
  destruct (empty_shape crop); apply na_ok.
Qed.

Lemma na_crop_boxes self permutation im data :
  never_asserts (_crop_bounding_boxes resize_image self permutation im data).
Proof.
  unfold _crop_bounding_boxes. apply na_bind; [apply na_select_samples|].
  intros [obj bg] _. apply na_crop_rows.
Qed.

Lemma na_flow_key self m d key h :
  never_asserts (flow_key read_image resize_image lighting_core self m d key h).
Proof.
  unfold flow_key. apply na_bind; [apply read_image_never_asserts|].
  intros im _. apply na_bind.
  { destruct (ground_truth_data self !! key); na_step. }
  intros l _. apply na_bind.
  { destruct m; first [apply na_transform|apply na_ok]. }
  intros [[[im1 l1] h1] self1] _.
  apply na_bind; [apply na_assign_boxes|]. intros [assigned mgr] _.
  apply na_bind; [apply na_denormalize|]. intros den _.
  apply na_bind; [apply na_crop_boxes|]. intros [imgs cls] _. apply na_ok.
Qed.

Lemma flow_key_paired self m d key h images classes h' self' :
  flow_key read_image resize_image lighting_core self m d key h
    = Ok (images, classes, h', self') ->
  length images = length classes.
Proof.
  unfold flow_key. intros H.
  apply bind_ok_inv in H as (im & _ & H).
  apply bind_ok_inv in H as (l & _ & H).
  apply bind_ok_inv in H as ([[[im' l'] h1] self1] & _ & H).
  apply bind_ok_inv in H as ([assigned mgr] & _ & H).
  apply bind_ok_inv in H as (den & _ & H).
  apply bind_ok_inv in H as ([imgs cls] & Hc & H).
  injection H as <- <- <- <-.
  unfold _crop_bounding_boxes in Hc.
  apply bind_ok_inv in Hc as ([obj bg] & _ & Hc).
  apply crop_rows_inv in Hc as [Hl _]. exact Hl.
Qed.

Lemma na_shuffle_together {A B} perm (a : list A) (b : list B) :
  length a = length b -> never_asserts (_shuffle_together perm a b).
Proof.
  intros Hl. unfold _shuffle_together.
  destruct (decide _) as [_|n]; [|contradiction].
  apply na_bind.
  { apply na_mapM. intros i. destruct (a !! i); na_step. }
  intros r1 _. apply na_bind.
  { apply na_mapM. intros i. destruct (b !! i); na_step. }
  intros r2 _. apply na_ok.
Qed.

Lemma na_flow_keys self m d i keys inputs targets h :
  length inputs = length targets ->
  never_asserts
    (flow_keys read_image resize_image preprocess_images lighting_core
       self m d i keys inputs targets h).
Proof.
  revert self i inputs targets h.
  induction keys as [|key keys IH]; intros self i inputs targets h Hl;
    [apply na_ok|].
  cbn [flow_keys]. apply na_bind; [apply na_flow_key|].
  intros [[[imgs cls] h1] self1] Hk. apply flow_key_paired in Hk.
  destruct (decide _) as [_|_].
  - apply na_bind.
    { apply na_shuffle_together. rewrite !length_app. lia. }
    intros [inp tgt] _. apply na_bind; [apply IH; reflexivity|].
    intros [[rest h2] self2] _. apply na_ok.
  - apply IH. rewrite !length_app. lia.
Qed.

Lemma na_flow self m passes h :
  never_asserts
    (flow read_image resize_image preprocess_images lighting_core
       self m passes h).
Proof.
  revert self h. induction passes as [|d passes IH]; intros self h;
    [apply na_ok|].
  cbn [flow]. destruct (_mangage_keys self m d) as [keys self0].
  apply na_bind; [apply na_flow_keys; reflexivity|].
  intros [[bs h1] self1] _. apply na_bind; [apply IH|].
  intros [[rest h2] self2] _. apply na_ok.
Qed.

Lemma keys_effect_val gtd ph pv d i keys (h : heap) :
  keys_effect gtd ph pv Val d i keys h = h.
Proof.
  revert i. induction keys as [|key keys IH]; intros i; [reflexivity|].
  cbn [keys_effect]. unfold key_effect at 1. apply IH.
Qed.

Lemma passes_effect_val gtd ph pv passes (h : heap) :
  passes_effect gtd ph pv Val passes h = h.
Proof.
  induction passes as [|d passes IH]; [reflexivity|].
  cbn [passes_effect]. rewrite keys_effect_val. exact IH.
Qed.

End FlowAssertion.

Section FlowTheorems.
Variable read_image : string -> result image.
Variable resize_image : image -> nat * nat -> image.
Variable preprocess_images : list image -> list image.
Variable lighting_core : R -> R * R * R -> image -> option image.

(** X18.  Unless [read_image] itself raises it, no run of [flow] raises
    [AssertionError], in any mode and for any random draws: the inputs and
    the targets given to [_shuffle_together] always have one length. *)
Theorem flow_assertion_never_fails (self : generator) (m : mode)
    (passes : list pass_draws) (h : heap) :
  (forall path, read_image path <> Raise AssertionError) ->
  flow read_image resize_image preprocess_images lighting_core
    self m passes h <> Raise AssertionError.
Proof. intros Hr. apply na_flow. exact Hr. Qed.

(** X19.  A run of [flow] in mode ['val'] that completes leaves the heap
    of box arrays and the dictionary [ground_truth_data] as they were:
    validation never rewrites the stored ground truth. *)
Theorem validation_leaves_ground_truth (self : generator)
    (passes : list pass_draws) (h : heap) batches h' self' :
  flow read_image resize_image preprocess_images lighting_core
    self Val passes h = Ok (batches, h', self') ->
  h' = h /\ ground_truth_data self' = ground_truth_data self.
Proof.
  intros H.
  apply (flow_heap read_image resize_image preprocess_images lighting_core)
    in H as (-> & Hc & _).
  split; [apply passes_effect_val|exact Hc].
Qed.

End FlowTheorems.

(** ** Flips and the intersection over union *)

Lemma flip_box_intersection_x p g :
  intersection (gt_box (flip_row_x (GtRow p []))) (gt_box (flip_row_x (GtRow g [])))
  = intersection p g.
Proof.
  destruct p as [a b c d], g as [a' b' c' d'].
  unfold intersection, flip_row_x. cbn [gt_box x_min x_max y_min y_max].
  f_equal. f_equal.
  unfold Rmin, Rmax.
  destruct (Rle_dec (1 - a) (1 - a')); destruct (Rle_dec (1 - c) (1 - c'));
    destruct (Rle_dec c c'); destruct (Rle_dec a a'); lra.
Qed.

Lemma flip_box_intersection_y p g :
  intersection (gt_box (flip_row_y (GtRow p []))) (gt_box (flip_row_y (GtRow g [])))
  = intersection p g.
Proof.
  destruct p as [a b c d], g as [a' b' c' d'].
  unfold intersection, flip_row_y. cbn [gt_box x_min x_max y_min y_max].
  f_equal. f_equal.
  unfold Rmin, Rmax.
  destruct (Rle_dec (1 - b) (1 - b')); destruct (Rle_dec (1 - d) (1 - d'));
    destruct (Rle_dec d d'); destruct (Rle_dec b b'); lra.
Qed.

(** X7.  The intersection over union of two boxes does not change when
    both are flipped, horizontally or vertically, the way
    [horizontal_flip] and [vertical_flip] rewrite a row.  The equality is
    that of the real numbers; in float64 the two values agree up to
    rounding. *)
Theorem iou_invariant_under_flips (a b : gt_row) :
  iou (gt_box (flip_row_x a)) (gt_box (flip_row_x b))
    = iou (gt_box a) (gt_box b) /\
  iou (gt_box (flip_row_y a)) (gt_box (flip_row_y b))
    = iou (gt_box a) (gt_box b).
Proof.
  destruct a as [p ca], b as [g cb]. rewrite !iou_unfold.
  change (gt_box (flip_row_x (GtRow g cb)))
    with (gt_box (flip_row_x (GtRow g []))).
  change (gt_box (flip_row_y (GtRow g cb)))
    with (gt_box (flip_row_y (GtRow g []))).
  change (gt_box (flip_row_x (GtRow p ca)))
    with (gt_box (flip_row_x (GtRow p []))).
  change (gt_box (flip_row_y (GtRow p ca)))
    with (gt_box (flip_row_y (GtRow p []))).
  rewrite flip_box_intersection_x, flip_box_intersection_y.
  cbn [gt_box].
  split; f_equal; f_equal; f_equal;
    destruct p as [a b c d], g as [a' b' c' d'];
    unfold area, flip_row_x, flip_row_y; cbn; ring.
Qed.

(** ** Neutral draws, missing keys and images without boxes *)

Lemma Rclip_byte_id x : 0 <= x <= 255 -> Rclip 0 255 x = x.
Proof.
  intros H. unfold Rclip, Rmin, Rmax.
  destruct (Rle_dec x 0); destruct (Rle_dec _ 255); lra.
Qed.

Lemma clip_mix_neutral (alpha g x : R) :
  alpha = 1 -> 0 <= x <= 255 -> Rclip 0 255 (alpha * x + (1 - alpha) * g) = x.
Proof.
  intros -> H. replace (1 * x + (1 - 1) * g) with x by lra.
  apply Rclip_byte_id, H.
Qed.

Lemma clip_image_fix (F : pixel -> pixel) (im : image) :
  (forall p, 0 <= red p <= 255 /\ 0 <= green p <= 255 /\ 0 <= blue p <= 255 ->
     pixel_map (Rclip 0 255) (F p) = p) ->
  in_byte_range im ->
  image_map (Rclip 0 255) (map (map F) im) = im.
Proof.
  intros HF Him. unfold image_map. rewrite map_map.
  induction Him as [|row im Hrow _ IH]; [reflexivity|].
  cbn [map]. f_equal; [|exact IH]. rewrite map_map.
  induction Hrow as [|p row Hp _ IHr]; [reflexivity|].
  cbn [map]. f_equal; [apply HF, Hp|exact IHr].
Qed.

Lemma clip_zip_fix (F : pixel -> R -> pixel) (im : image) (gray : list (list R)) :
  (forall p g, 0 <= red p <= 255 /\ 0 <= green p <= 255 /\ 0 <= blue p <= 255 ->
     pixel_map (Rclip 0 255) (F p g) = p) ->
  in_byte_range im ->
  map length gray = map length im ->
  image_map (Rclip 0 255) (zip_with (zip_with F) im gray) = im.
Proof.
  intros HF Him. revert gray. unfold image_map.
  induction Him as [|row im Hrow _ IH]; intros gray Hg; [reflexivity|].
  destruct gray as [|grow gray]; [discriminate|].
  injection Hg as Hg1 Hg2. cbn [zip_with map].
  f_equal; [|apply IH, Hg2]. clear IH.
  revert grow Hg1. induction Hrow as [|p row Hp _ IHr]; intros grow Hg1;
    [reflexivity|].
  destruct grow as [|g grow]; [discriminate|]. injection Hg1 as Hg1.
  cbn [zip_with map]. f_equal; [apply HF, Hp|apply IHr, Hg1].
Qed.

(** X11.  On an image with channels in [0, 255], the random draw 0.5
    makes [contrast] return the image unchanged, and [saturation] and
    [brightness] too when [saturation_var] and [brightness_var] are set to
    the same value: the factor alpha is then 1.  This is over the real
    numbers; in float64 alpha is 1 up to rounding (exactly 1 for the
    default variance 0.5), and the image is returned up to that
    rounding. *)
Theorem jitter_neutral_draw (self : generator) (im : image) :
  in_byte_range im ->
  (is_Some (contrast_var self) -> contrast self 0.5 im = Ok im) /\
  (forall v, saturation_var self = Some v -> brightness_var self = Some v ->
     saturation self 0.5 im = Ok im /\ brightness self 0.5 im = Ok im).
Proof.
  intros Him. split.
  - intros [c Hc]. unfold contrast. rewrite Hc. cbn [getattr].
    rewrite bind_ok. f_equal. apply clip_image_fix; [|exact Him].
    intros [r g b] (Hr & Hg & Hb). unfold pixel_map. cbn [red green blue] in *.
    f_equal; rewrite (Rmult_comm _ (2 * 0.5 * c + 1 - c));
      apply clip_mix_neutral; (lra || assumption).
  - intros v Hs Hb. split.
    + unfold saturation. rewrite Hs, Hb. cbn [getattr]. rewrite !bind_ok.
      f_equal. apply clip_zip_fix; [|exact Him|].
      * intros [r g b] gr (Hr & Hg & Hbl). unfold pixel_map.
        cbn [red green blue] in *.
        f_equal; apply clip_mix_neutral; (lra || assumption).
      * unfold _gray_scale. rewrite map_map. apply map_ext. intros row.
        apply length_map.
    + unfold brightness. rewrite Hs, Hb. cbn [getattr]. rewrite !bind_ok.
      f_equal. apply clip_image_fix; [|exact Him].
      intros [r g b] (Hr & Hg & Hbl). unfold pixel_map.
      cbn [red green blue] in *.
      f_equal; (rewrite Rclip_byte_id; [|nra]; nra).
Qed.

Section FlowEdge.
Variable read_image : string -> result image.
Variable resize_image : image -> nat * nat -> image.
Variable preprocess_images : list image -> list image.
Variable lighting_core : R -> R * R * R -> image -> option image.

(** X20.  When the first key of a pass has an image that can be read but
    no entry in [ground_truth_data], [flow] raises [KeyError], in every
    mode. *)
Theorem flow_missing_key (self : generator) (m : mode) (d : pass_draws)
    (passes : list pass_draws) (h : heap) (key : string)
    (keys : list string) (im : image) :
  shuffled_keys d = key :: keys ->
  read_image (path_prefix self +:+ key +:+ suffix self)%string = Ok im ->
  ground_truth_data self !! key = None ->
  flow read_image resize_image preprocess_images lighting_core
    self m (d :: passes) h = Raise KeyError.
Proof.
  intros Hk Hr Hg. cbn [flow].
  assert (E : exists self0, _mangage_keys self m d = (key :: keys, self0) /\
            path_prefix self0 = path_prefix self /\
            suffix self0 = suffix self /\
            ground_truth_data self0 = ground_truth_data self).
  { unfold _mangage_keys. rewrite Hk.
    destruct m; eexists; (split; [reflexivity|repeat split]). }
  destruct E as (self0 & -> & E1 & E2 & E3).
  cbn [flow_keys]. unfold flow_key. rewrite E1, E2, E3, Hr, bind_ok, Hg.
  reflexivity.
Qed.

(** X21.  In mode ['val'], a key whose stored box array is empty gives no
    image and no target, when the background class is class 0: every row
    of the assignment matrix is a background row and
    [_select_samples] finds no foreground row. *)
Theorem image_without_boxes_gives_no_samples (self : generator)
    (d : key_draws) (key : string) (h : heap) (l : loc) (im : image) :
  read_image (path_prefix self +:+ key +:+ suffix self)%string = Ok im ->
  ground_truth_data self !! key = Some l ->
  h !! l = Some [] ->
  background_id (box_manager self) = 0%nat ->
  flow_key read_image resize_image lighting_core self Val d key h =
  Ok ([], [], h, set_box_manager self (set_assigned (box_manager self) [])).
Proof.
  intros Hr Hg Hl Hb. unfold flow_key.
  rewrite Hr, bind_ok, Hg, !bind_ok. cbn beta iota.
  rewrite (lookup_total_correct _ _ _ Hl).
  rewrite assign_boxes_no_objects by lia. rewrite bind_ok. cbn beta iota.
  unfold image_shape. rewrite denormalize_ok
    by (apply Forall_replicate; rewrite length_background_row; lia).
  rewrite bind_ok, crop_all_background; [reflexivity|].
  apply Forall_map, Forall_replicate. cbn beta.
  rewrite denormalize_row_flag by (rewrite length_background_row; lia).
  apply background_row_flag, Hb.
Qed.

End FlowEdge.

(** ** The range of the image that [transform] returns *)

Lemma in_byte_range_hflip im :
  in_byte_range im -> in_byte_range (map (@rev pixel) im).
Proof.
  unfold in_byte_range. intros H. apply Forall_map.
  eapply Forall_impl; [exact H|]. intros row Hrow. cbn beta.
  apply Forall_rev, Hrow.
Qed.

Lemma in_byte_range_vflip (im : image) :
  in_byte_range im -> in_byte_range (rev im).
Proof. unfold in_byte_range. apply Forall_rev. Qed.

Section TransformRange.
Variable lighting_core : R -> R * R * R -> image -> option image.

(** X12.  When a colour jitter or the lighting noise is enabled, every
    channel of the image that [transform] returns is in [0, 255], whatever
    the flips do afterwards. *)
Theorem transform_image_in_range (self : generator) (d : transform_draws)
    (im : image) (l : loc) (h : heap) im' l' h' self' :
  transform lighting_core self d im l h = Ok (im', l', h', self') ->
  shuffled d <> [] \/ lighting_std self <> 0 ->
  in_byte_range im'.
Proof.
  unfold transform. intros H Hon.
  apply bind_ok_inv in H as (im1 & Hj & H).
  apply bind_ok_inv in H as (im2 & Hl & H).
  cbn [set_color_jitter color_jitter lighting_std
       horizontal_flip_probability vertical_flip_probability] in *.
  assert (H2 : in_byte_range im2).
  { destruct (truthy (lighting_std self)) eqn:El.
    - unfold lighting in Hl.
      destruct (lighting_core _ _ _); [|discriminate].
      injection Hl as <-. apply image_map_clip_range.
    - injection Hl as <-. apply truthy_false in El.
      destruct Hon as [Hs|Hs]; [|contradiction].
      apply jitters_range in Hj; [exact Hj|exact Hs]. }
  clear Hl. unfold horizontal_flip, vertical_flip in H.
  cbn [set_color_jitter horizontal_flip_probability
       vertical_flip_probability] in H.
  destruct (Rltb 0 (horizontal_flip_probability self));
    destruct (Rltb (hflip_u d) (horizontal_flip_probability self));
    destruct (Rltb 0 (vertical_flip_probability self));
    destruct (Rltb (vflip_u d) (vertical_flip_probability self));
    injection H as <- _ _ _;
    auto using in_byte_range_hflip, in_byte_range_vflip.
Qed.

End TransformRange.

Lemma ex_lighting_run :
  exists im',
    transform ex_lighting_core ex_lighting_generator ex_lighting_draws
      ex_two_pixels 0%nat ∅
    = Ok (im', 0%nat, ∅, set_color_jitter ex_lighting_generator []).
Proof.
  unfold transform.
  cbn [ex_lighting_draws shuffled set_color_jitter color_jitter apply_jitters
       mbind result_bind ex_lighting_generator init lighting_std
       horizontal_flip_probability vertical_flip_probability].
  rewrite truthy_nonzero by lra. unfold lighting, ex_lighting_core.
  cbn [mbind result_bind].
  unfold Rltb. destruct (Rlt_dec 0 0) as [H|_]; [lra|].
  eexists. reflexivity.
Qed.

Lemma transform_image_in_range_witness :
  exists im',
    transform ex_lighting_core ex_lighting_generator ex_lighting_draws
      ex_two_pixels 0%nat ∅
    = Ok (im', 0%nat, ∅, set_color_jitter ex_lighting_generator []) /\
    in_byte_range im'.
Proof.
  destruct ex_lighting_run as [im' Hrun]. exists im'.
  split; [exact Hrun|].
  apply (transform_image_in_range ex_lighting_core ex_lighting_generator
           ex_lighting_draws ex_two_pixels 0%nat ∅ _ _ _ _ Hrun).
  right. cbn [ex_lighting_generator init lighting_std]. lra.
Defined.

(** ** The further properties on the example inputs *)

Lemma encode_decode_clips_witness :
  decode_boxes (init_defaults [Box 0 0 1 1; Box 0.25 0.25 0.75 0.5])
    (map predicted_of_row
       (_encode_box (init_defaults [Box 0 0 1 1; Box 0.25 0.25 0.75 0.5])
          [Box 0 0 1 1; Box 0.25 0.25 0.75 0.5] ex_wide_box))
  = Ok [clip_box ex_wide_box; clip_box ex_wide_box].
Proof.
  apply (encode_decode_clips
           (init_defaults [Box 0 0 1 1; Box 0.25 0.25 0.75 0.5]) ex_wide_box).
  - unfold nonzero_scales. cbn. lra.
  - repeat constructor; cbn; lra.
  - split; cbn; lra.
Defined.

Lemma decode_boxes_clipped_witness :
  exists m, decode_boxes ex_manager ex_predicted = Ok m /\
    length m = num_priors ex_manager /\
    forall (j : nat) p, ex_predicted !! j = Some p ->
      exists c, m !! j = Some (c ++ pred_rest p) /\
        length c = 4%nat /\ Forall unit_or_nan c.
Proof. apply (decode_boxes_clipped ex_manager ex_predicted). reflexivity. Defined.

Lemma assign_boxes_errors_witness :
  assign_boxes (Manager [Box 0 0 1 1] 30 0.5 21 (Scales 1 1 1 1) []) [ex_far]
    = Raise IndexError /\
  assign_boxes (init_defaults []) [ex_far] = Raise ValueError.
Proof.
  split.
  - apply (assign_boxes_errors
             (Manager [Box 0 0 1 1] 30 0.5 21 (Scales 1 1 1 1) []) [ex_far]).
    cbn. lia.
  - apply (assign_boxes_errors (init_defaults []) [ex_far]).
    + cbn. lia.
    + discriminate.
    + reflexivity.
Defined.

Lemma assign_boxes_row_shape_witness :
  exists m st, assign_boxes ex_manager ex_conflict = Ok (m, st) /\
    length m = num_priors ex_manager /\
    forall (j : nat) row, m !! j = Some row ->
      length row = (4 + num_classes ex_manager + 8)%nat /\
      (row = background_row ex_manager \/
       (row !! 4%nat = Some (Fin 0) /\
        row !! (4 + num_classes ex_manager)%nat = Some (Fin 1))).
Proof.
  apply (assign_boxes_row_shape ex_manager ex_conflict).
  - discriminate.
  - cbn. lia.
  - cbn. lia.
  - constructor; [reflexivity|]. constructor; [reflexivity|constructor].
Defined.

Lemma flip_twice_restores_witness :
  (let '(im1, l1, h1) :=
     horizontal_flip ex_both_flips_generator 0.5 ex_image 0%nat ex_flip_heap in
   horizontal_flip ex_both_flips_generator 0.25 im1 l1 h1
   = (ex_image, 0%nat, ex_flip_heap)) /\
  (let '(im1, l1, h1) :=
     vertical_flip ex_both_flips_generator 0.5 ex_image 0%nat ex_flip_heap in
   vertical_flip ex_both_flips_generator 0.25 im1 l1 h1
   = (ex_image, 0%nat, ex_flip_heap)).
Proof.
  split.
  - apply (proj1 (flip_twice_restores ex_both_flips_generator 0.5 0.25
                    ex_image 0%nat ex_flip_heap)); cbn; lra.
  - apply (proj2 (flip_twice_restores ex_both_flips_generator 0.5 0.25
                    ex_image 0%nat ex_flip_heap)); cbn; lra.
Defined.

Lemma transform_keeps_boxes_well_formed_witness :
  exists im' h' self',
    transform ex_lighting_core ex_flip_generator (kd_transform ex_flip_draws)
      ex_image 0%nat ex_flip_heap = Ok (im', 0%nat, h', self') /\
    0%nat = 0%nat /\
    (exists boxes', h' !! 0%nat = Some boxes' /\ Forall well_formed boxes' /\
       map gt_classes boxes' =
       map gt_classes [GtRow (Box 0 0.6 0.4 1) [0; 1]]) /\
    (forall l0 : loc, l0 <> 0%nat -> h' !! l0 = ex_flip_heap !! l0).
Proof.
  destruct (transform_flips_only ex_lighting_core ex_flip_generator
              (kd_transform ex_flip_draws) ex_image 0%nat ex_flip_heap)
    as [im' Ht]; [reflexivity|reflexivity|].
  eexists _, _, _. split; [exact Ht|].
  refine (transform_keeps_boxes_well_formed ex_lighting_core ex_flip_generator
            (kd_transform ex_flip_draws) ex_image 0%nat ex_flip_heap
            [GtRow (Box 0 0.6 0.4 1) [0; 1]] _ _ _ _ _ _ Ht).
  - apply lookup_singleton_eq.
  - constructor; [|constructor].
    unfold well_formed, valid_box, in_unit_square. cbn. lra.
Defined.

Lemma transform_attribute_errors_witness :
  ((exists r,
      transform ex_lighting_core
        (init ∅ (init_defaults []) 1 (1, 1)%nat [] [] "" "" 1
           0.5 0.5 0.5 0.5 0.5 0.5)
        (TransformDraws [Contrast; Saturation; Brightness] (fun _ => 0.25)
           (0, 0, 0) 0.75 0.75)
        ex_two_pixels 0%nat ∅ = Ok r) \/
   (0.5 <> 0 /\
    transform ex_lighting_core
      (init ∅ (init_defaults []) 1 (1, 1)%nat [] [] "" "" 1
         0.5 0.5 0.5 0.5 0.5 0.5)
      (TransformDraws [Contrast; Saturation; Brightness] (fun _ => 0.25)
         (0, 0, 0) 0.75 0.75)
      ex_two_pixels 0%nat ∅ = Raise LinAlgError)) /\
  transform ex_lighting_core
    (init ∅ (init_defaults []) 1 (1, 1)%nat [] [] "" "" 1
       0 0.5 0.5 0.5 0.5 0.5)
    (TransformDraws [Contrast; Brightness] (fun _ => 0.25)
       (0, 0, 0) 0.75 0.75)
    ex_two_pixels 0%nat ∅ = Raise AttributeError.
Proof.
  split.
  - apply (transform_attribute_errors ex_lighting_core
             ∅ (init_defaults []) 1 (1, 1)%nat [] [] "" "" 1
             0.5 0.5 0.5 0.5 0.5 0.5
             (TransformDraws [Contrast; Saturation; Brightness]
                (fun _ => 0.25) (0, 0, 0) 0.75 0.75)
             ex_two_pixels 0%nat ∅).
    + cbn [init color_jitter shuffled].
      rewrite !truthy_nonzero by lra. cbn [app].
      apply (Permutation_cons_append [Saturation; Brightness] Contrast).
    + split; intros; lra.
  - apply (transform_attribute_errors ex_lighting_core
             ∅ (init_defaults []) 1 (1, 1)%nat [] [] "" "" 1
             0 0.5 0.5 0.5 0.5 0.5
             (TransformDraws [Contrast; Brightness]
                (fun _ => 0.25) (0, 0, 0) 0.75 0.75)
             ex_two_pixels 0%nat ∅).
    + cbn [init color_jitter shuffled].
      rewrite truthy_zero, !(truthy_nonzero 0.5) by lra. cbn [app].
      apply perm_swap.
    + intros [H _]. specialize (H eq_refl). lra.
Defined.

Lemma ex_jitter_vars :
  saturation_var ex_jitter_generator = Some 0.5 /\
  brightness_var ex_jitter_generator = Some 0.5 /\
  contrast_var ex_jitter_generator = Some 0.5.
Proof.
  unfold ex_jitter_generator.
  cbn [init saturation_var brightness_var contrast_var].
  rewrite !truthy_nonzero by lra. repeat split.
Qed.

Lemma jitters_keep_shape_and_range_witness :
  exists im',
    apply_jitters ex_jitter_generator [Contrast; Brightness] (fun _ => 0.25)
      0 [[Pixel 10 20 30]] = Ok im' /\
    same_shape im' [[Pixel 10 20 30]] /\
    ([Contrast; Brightness] <> [] -> in_byte_range im').
Proof.
  destruct ex_jitter_vars as (Hs & Hb & Hc).
  assert (Hrun : exists im',
            apply_jitters ex_jitter_generator [Contrast; Brightness]
              (fun _ => 0.25) 0 [[Pixel 10 20 30]] = Ok im').
  { cbn [apply_jitters apply_jitter]. unfold contrast, brightness.
    rewrite Hs, Hb, Hc. cbn [getattr]. rewrite !bind_ok.
    eexists. reflexivity. }
  destruct Hrun as [im' Hrun]. exists im'. split; [exact Hrun|].
  apply (jitters_keep_shape_and_range ex_jitter_generator
           [Contrast; Brightness] (fun _ => 0.25) 0%nat [[Pixel 10 20 30]] im'
           Hrun).
Defined.

Lemma background_samples_distinct_witness :
  exists object_data background_data,
    _select_samples (ex_generator 2) [2; 0; 1]%nat ex_assigned
      = Ok (object_data, background_data) /\
    background_data ⊆+
      List.filter (fun row => negb (is_object row)) ex_assigned /\
    length background_data =
      Nat.min (negative_positive_ratio (ex_generator 2) * length object_data)
        (length (List.filter (fun row => negb (is_object row)) ex_assigned)) /\
    ((length (List.filter (fun row => negb (is_object row)) ex_assigned)
        <= negative_positive_ratio (ex_generator 2) * length object_data)%nat ->
     Permutation background_data
       (List.filter (fun row => negb (is_object row)) ex_assigned)).
Proof.
  assert (H1 : is_object (replicate 4 (Fin 0) ++ [Fin 1; Fin 0]) = false).
  { unfold is_object. cbn. unfold Reqb. rdec; try reflexivity. }
  assert (H0 : is_object (replicate 4 (Fin 0) ++ [Fin 0; Fin 1]) = true).
  { unfold is_object. cbn. unfold Reqb. rdec; try reflexivity. }
  apply (background_samples_distinct (ex_generator 2) [2; 0; 1]%nat
           ex_assigned).
  - repeat constructor; cbn; lia.
  - unfold ex_assigned. cbn [List.filter]. rewrite H0, !H1. cbn.
    apply (Permutation_cons_append [0;1]%nat 2%nat).
Defined.

Lemma shuffle_together_keeps_pairs_witness :
  _shuffle_together [0]%nat [10; 20]%nat [true] = Raise AssertionError /\
  exists r1 r2,
    _shuffle_together [1; 0]%nat [10; 20]%nat [true; false] = Ok (r1, r2) /\
    Permutation (zip r1 r2) (zip [10; 20]%nat [true; false]) /\
    Permutation r1 [10; 20]%nat /\ Permutation r2 [true; false].
Proof.
  split.
  - apply (proj1 (shuffle_together_keeps_pairs [0]%nat [10; 20]%nat [true])).
    cbn. lia.
  - apply (proj2 (shuffle_together_keeps_pairs [1; 0]%nat [10; 20]%nat
                    [true; false])).
    + reflexivity.
    + apply perm_swap.
Defined.

Lemma crop_of_any_box_witness :
  (exists crop, _crop_bounding_box ex_image ex_pixel_row = Ok crop /\
     sub_image crop ex_image) /\
  (_crop_bounding_box ex_image [Fin 1; NaN; Fin 3; PInf] = Raise ValueError \/
   _crop_bounding_box ex_image [Fin 1; NaN; Fin 3; PInf]
   = Raise OverflowError).
Proof.
  split.
  - apply (proj1 (crop_of_any_box ex_image ex_pixel_row ltac:(cbn; lia))).
    reflexivity.
  - apply (proj2 (crop_of_any_box ex_image [Fin 1; NaN; Fin 3; PInf]
                    ltac:(cbn; lia))).
    reflexivity.
Defined.

Lemma Rtrunc_1 : Rtrunc 1 = 1%Z.
Proof. apply Rtrunc_IZR; [reflexivity|lia]. Qed.

Lemma Rtrunc_3 : Rtrunc 3 = 3%Z.
Proof. apply Rtrunc_IZR; [reflexivity|lia]. Qed.

Lemma crop_in_image_witness :
  exists crop,
    _crop_bounding_box ex_image ex_pixel_row = Ok crop /\
    length crop = Z.to_nat (Rtrunc 3 - Rtrunc 1) /\
    Forall (fun row : list pixel =>
              length row = Z.to_nat (Rtrunc 3 - Rtrunc 1)) crop /\
    forall i j : nat,
      (i < Z.to_nat (Rtrunc 3 - Rtrunc 1))%nat ->
      (j < Z.to_nat (Rtrunc 3 - Rtrunc 1))%nat ->
      crop !! i ≫= (.!! j) =
      ex_image !! (Z.to_nat (Rtrunc 1) + i)%nat
        ≫= (.!! (Z.to_nat (Rtrunc 1) + j)%nat).
Proof.
  apply (crop_in_image ex_image 4 1 1 3 3 [Fin 0; Fin 1]).
  - apply Forall_replicate. reflexivity.
  - rewrite Rtrunc_1, Rtrunc_3. lia.
  - rewrite Rtrunc_3. cbn. lia.
  - rewrite Rtrunc_1, Rtrunc_3. lia.
  - rewrite Rtrunc_3. cbn. lia.
Defined.

Lemma ex_pixel_crops :
  _crop_bounding_boxes ex_resize_image (ex_generator 1) [] ex_image
    [ex_pixel_row]
  = Ok ([replicate 2 (replicate 2 (Pixel 0 0 0))], [[Fin 0; Fin 1]]).
Proof.
  unfold _crop_bounding_boxes, _select_samples, ex_pixel_row.
  cbn [mapM lookup list_lookup mbind result_bind].
  rewrite fneqb_fin by lra.
  cbn [map negb select length take mapM mbind result_bind app crop_rows].
  rewrite take_nil.
  cbn [mapM mbind result_bind app crop_rows].
  rewrite crop_finite, Rtrunc_1, Rtrunc_3. reflexivity.
Qed.

Lemma crops_are_paired_witness :
  exists images classes,
    _crop_bounding_boxes ex_resize_image (ex_generator 1) [] ex_image
      [ex_pixel_row] = Ok (images, classes) /\
    length images = length classes /\
    (length classes <=
       (1 + negative_positive_ratio (ex_generator 1)) *
       length (List.filter is_object [ex_pixel_row]))%nat /\
    Forall (fun c => exists row, row ∈ [ex_pixel_row] /\ c = drop 4 row)
      classes.
Proof.
  eexists _, _. split; [exact ex_pixel_crops|].
  apply (crops_are_paired ex_resize_image (ex_generator 1) [] ex_image
           [ex_pixel_row] _ _ ex_pixel_crops).
Defined.

Lemma flow_assertion_never_fails_witness :
  flow ex_read_image ex_resize_image (fun l => l) ex_lighting_core
    ex_flip_generator Train [ex_val_pass; ex_val_pass] ex_flip_heap
  <> Raise AssertionError.
Proof.
  apply (flow_assertion_never_fails ex_read_image ex_resize_image
           (fun l => l) ex_lighting_core ex_flip_generator Train
           [ex_val_pass; ex_val_pass] ex_flip_heap).
  intros path. discriminate.
Defined.

Lemma ex_val_iou :
  iou (Box 0 0 0.5 0.5) (Box 0 0.6 0.4 1) = Fin 0.
Proof. iou_eval. all: f_equal; lra. Qed.

Lemma ex_val_key (self : generator) :
  ground_truth_data self !! "k" = Some 0%nat ->
  box_manager self = ex_far_manager ->
  exists self',
    flow_key ex_read_image ex_resize_image ex_lighting_core
      self Val ex_flip_draws "k" ex_flip_heap
    = Ok ([], [], ex_flip_heap, self') /\
    batch_size self' = batch_size self.
Proof.
  intros Hg Hm. eexists. unfold flow_key, ex_read_image.
  rewrite bind_ok, Hg, !bind_ok. cbn beta iota.
  assert (Hh : ex_flip_heap !!! 0%nat = [GtRow (Box 0 0.6 0.4 1) [0; 1]])
    by apply lookup_total_singleton_eq.
  rewrite Hh, Hm.
  rewrite assign_boxes_no_overlap; try reflexivity; try discriminate.
  2:{ cbn. lia. }
  2:{ repeat constructor. exact ex_val_iou. }
  rewrite bind_ok. cbn beta iota.
  unfold image_shape. rewrite denormalize_ok.
  2:{ apply Forall_replicate. rewrite length_background_row. lia. }
  rewrite bind_ok.
  rewrite crop_all_background.
  2:{ apply Forall_map, Forall_replicate. cbn beta.
      rewrite denormalize_row_flag by (rewrite length_background_row; lia).
      apply background_row_flag. reflexivity. }
  rewrite bind_ok. split; reflexivity.
Qed.

Lemma ex_val_run :
  exists self',
    flow ex_read_image ex_resize_image (fun l => l) ex_lighting_core
      ex_flip_generator Val [ex_val_pass] ex_flip_heap
    = Ok ([], ex_flip_heap, self').
Proof.
  cbn [flow _mangage_keys ex_val_pass shuffled_keys flow_keys pd_key].
  destruct (ex_val_key
              (set_keys ex_flip_generator (train_keys ex_flip_generator) ["k"]))
    as (self' & Hk & Hb).
  { cbn [set_keys ground_truth_data ex_flip_generator init].
    apply lookup_singleton_eq. }
  { reflexivity. }
  rewrite Hk, bind_ok. cbn beta iota. rewrite Hb.
  cbn [set_keys batch_size ex_flip_generator init app length].
  destruct (decide (1 <= 0)%nat) as [H|_]; [lia|].
  cbn [mbind result_bind]. eexists. reflexivity.
Qed.

Lemma validation_leaves_ground_truth_witness :
  exists self',
    flow ex_read_image ex_resize_image (fun l => l) ex_lighting_core
      ex_flip_generator Val [ex_val_pass] ex_flip_heap
    = Ok ([], ex_flip_heap, self') /\
    ex_flip_heap = ex_flip_heap /\
    ground_truth_data self' = ground_truth_data ex_flip_generator.
Proof.
  destruct ex_val_run as [self' Hrun]. exists self'.
  split; [exact Hrun|].
  apply (validation_leaves_ground_truth ex_read_image ex_resize_image
           (fun l => l) ex_lighting_core ex_flip_generator [ex_val_pass]
           ex_flip_heap [] ex_flip_heap self' Hrun).
Defined.

Lemma flow_missing_key_witness :
  flow ex_read_image ex_resize_image (fun l => l) ex_lighting_core
    (ex_generator 1) Train [ex_val_pass] ∅ = Raise KeyError.
Proof.
  apply (flow_missing_key ex_read_image ex_resize_image (fun l => l)
           ex_lighting_core (ex_generator 1) Train ex_val_pass [] ∅ "k" []
           ex_image).
  - reflexivity.
  - reflexivity.
  - apply lookup_empty.
Defined.

Lemma image_without_boxes_gives_no_samples_witness :
  flow_key ex_read_image ex_resize_image ex_lighting_core
    ex_flip_generator Val ex_flip_draws "k" ex_empty_heap =
  Ok ([], [], ex_empty_heap,
      set_box_manager ex_flip_generator
        (set_assigned (box_manager ex_flip_generator) [])).
Proof.
  apply (image_without_boxes_gives_no_samples ex_read_image ex_resize_image
           ex_lighting_core ex_flip_generator ex_flip_draws "k" ex_empty_heap
           0%nat ex_image).
  - reflexivity.
  - cbn [ex_flip_generator init ground_truth_data]. apply lookup_singleton_eq.
  - apply lookup_singleton_eq.
  - reflexivity.
Defined.

Lemma jitter_neutral_draw_witness :
  contrast ex_jitter_generator 0.5 [[Pixel 10 20 30]]
    = Ok [[Pixel 10 20 30]] /\
  saturation ex_jitter_generator 0.5 [[Pixel 10 20 30]]
    = Ok [[Pixel 10 20 30]] /\
  brightness ex_jitter_generator 0.5 [[Pixel 10 20 30]]
    = Ok [[Pixel 10 20 30]].
Proof.
  destruct ex_jitter_vars as (Hs & Hb & Hc).
  assert (Hr : in_byte_range [[Pixel 10 20 30]]).
  { repeat constructor; cbn; lra. }
  split.
  - apply (proj1 (jitter_neutral_draw ex_jitter_generator [[Pixel 10 20 30]]
                    Hr)).
    rewrite Hc. eexists. reflexivity.
  - apply (proj2 (jitter_neutral_draw ex_jitter_generator [[Pixel 10 20 30]]
                    Hr) 0.5 Hs Hb).
Defined.
